(** * Sales-Analytics: record store, spreadsheet normalizer, ingestion job,
geocode enrichment and cascading filters

A shallow embedding of [server/storage.ts] and of the routes module
([processExcelInBackground], [updateCoordinatesInBackground] and the
[/api/cascading-filters] handler), followed by the properties the
specification states about them.

Numbers are integers (plus [NaN] where the program can produce it): [Num z]
stands for the double [z], which is exact for the integers up to
[MAX_SAFE_INTEGER] in magnitude; the properties that rest on the arithmetic
of the program bound the cells they read accordingly.  Strings are
sequences of one-byte characters compared by code, and the
[Map] of the store keeps its keys in insertion order.  The asynchronous
functions are followed from one suspension to the next: what runs between
two suspensions is one step on the state of the process. *)

From Stdlib Require Import ZArith Ascii String List DecimalString DecimalZ DecimalPos.
From stdpp Require Import base numbers strings list gmap sorting.

Local Open Scope string_scope.
Local Open Scope list_scope.
Local Open Scope nat_scope.

(** ** JavaScript values used by the program *)

Module JS.

(** A JavaScript number, restricted to the integers and [NaN]; the program
    only adds, compares and parses integers.  Up to [MAX_SAFE_INTEGER] in
    magnitude an integer is a double, it prints in plain decimal, and sums
    and parses that stay in this range are exact; beyond it the program
    rounds, and prints with an exponent from 10^21 on, which the integers
    here do not follow. *)
Inductive num := NaN | Num (z : Z).

Global Instance num_eq_dec : EqDecision num.
Proof. solve_decision. Defined.

(** [Number.MAX_SAFE_INTEGER], 2^53 - 1. *)
Definition MAX_SAFE_INTEGER : Z := 9007199254740991.

(** [x] is [NaN] or an integer of magnitude at most [b]. *)
Definition within (b : Z) (x : num) : bool :=
  match x with
  | NaN => true
  | Num z => (Z.abs z <=? b)%Z
  end.

(** The value of a spreadsheet cell or of a missing property; a number
    cell holds an integer (cells with a fraction are not modelled). *)
Inductive JsVal :=
| Undefined
| VNum (n : Z)
| VStr (s : string)
| VBool (b : bool).

Global Instance JsVal_eq_dec : EqDecision JsVal.
Proof. solve_decision. Defined.

(** ToBoolean. *)
Definition str_truthy (s : string) : bool := negb (String.eqb s "").

Definition truthy (v : JsVal) : bool :=
  match v with
  | Undefined => false
  | VNum n => negb (n =? 0)%Z
  | VStr s => str_truthy s
  | VBool b => b
  end.

Definition num_truthy (x : num) : bool :=
  match x with
  | NaN => false
  | Num z => negb (z =? 0)%Z
  end.

(** [a || b] on values and on numbers. *)
Definition or (a b : JsVal) : JsVal := if truthy a then a else b.
Definition num_or (a b : num) : num := if num_truthy a then a else b.

(** [a + b] on numbers; exact, as the addition of doubles is while the
    sum stays within [MAX_SAFE_INTEGER]. *)
Definition add (a b : num) : num :=
  match a, b with
  | Num x, Num y => Num (x + y)
  | _, _ => NaN
  end.


(** White space and line terminators, as far as one-byte characters go. *)
Definition is_white (c : ascii) : bool :=
  let n := nat_of_ascii c in
  ((9 <=? n)%nat && (n <=? 13)%nat) || (n =? 32)%nat || (n =? 160)%nat.

Fixpoint trimStart (s : string) : string :=
  match s with
  | String c s' => if is_white c then trimStart s' else s
  | EmptyString => EmptyString
  end.

(** [s.trim()] *)
Definition trim (s : string) : string :=
  String.rev (trimStart (String.rev (trimStart s))).

Fixpoint all_white (s : string) : bool :=
  match s with
  | String c s' => is_white c && all_white s'
  | EmptyString => true
  end.

(** A string cell that is not empty and holds white space only. *)
Definition blank (v : JsVal) : Prop :=
  ∃ w, v = VStr w ∧ w ≠ "" ∧ trim w = "".

(** [String(v)]; a number prints in plain decimal, as [String] does
    below 10^21. *)
Definition toString (v : JsVal) : string :=
  match v with
  | Undefined => "undefined"
  | VNum n => NilZero.string_of_int (Z.to_int n)
  | VStr s => s
  | VBool true => "true"
  | VBool false => "false"
  end.

(** The value of character [c] as a digit in base [radix]. *)
Definition digit (radix : Z) (c : ascii) : option Z :=
  let n := Z.of_nat (nat_of_ascii c) in
  let v :=
    if (48 <=? n)%Z && (n <=? 57)%Z then Some (n - 48)%Z
    else if (97 <=? n)%Z && (n <=? 122)%Z then Some (n - 87)%Z
    else if (65 <=? n)%Z && (n <=? 90)%Z then Some (n - 55)%Z
    else None in
  match v with
  | Some d => if (d <? radix)%Z then Some d else None
  | None => None
  end.

(** The longest prefix of digits, read from the left; [acc] is [None]
    until a digit has been read. *)
Fixpoint digits (radix : Z) (s : string) (acc : option Z) : option Z :=
  match s with
  | String c s' =>
      match digit radix c with
      | Some d => digits radix s' (Some (radix * default 0%Z acc + d)%Z)
      | None => acc
      end
  | EmptyString => acc
  end.

Definition strip_sign (s : string) : bool * string :=
  match s with
  | String "-" r => (true, r)
  | String "+" r => (false, r)
  | _ => (false, s)
  end.

Definition strip_radix (s : string) : Z * string :=
  match s with
  | String "0" (String "x" r) => (16%Z, r)
  | String "0" (String "X" r) => (16%Z, r)
  | _ => (10%Z, s)
  end.

(** [parseInt(s)] with no radix argument: the integer the digits spell,
    which is the double [parseInt] returns when it lies within
    [MAX_SAFE_INTEGER]. *)
Definition parseInt_string (s : string) : num :=
  let '(neg, s1) := strip_sign (trimStart s) in
  let '(radix, s2) := strip_radix s1 in
  match digits radix s2 None with
  | None => NaN
  | Some v => Num (if neg then - v else v)
  end.

(** [parseInt(v)]: the argument is converted to a string first. *)
Definition parseInt (v : JsVal) : num := parseInt_string (toString v).

Definition lower_char (c : ascii) : ascii :=
  let n := nat_of_ascii c in
  if ((65 <=? n)%nat && (n <=? 90)%nat)
     || ((192 <=? n)%nat && (n <=? 222)%nat && negb (n =? 215)%nat)
  then ascii_of_nat (n + 32) else c.

Fixpoint toLowerCase (s : string) : string :=
  match s with
  | String c s' => String (lower_char c) (toLowerCase s')
  | EmptyString => EmptyString
  end.

(** A row object: property name to value; a missing property reads as
    [Undefined]. *)
Definition prop (o : gmap string JsVal) (k : string) : JsVal :=
  default Undefined (o !! k).

(** *** [Map]: keys in insertion order *)

Section map.
Context {K V : Type} `{EqDecision K}.

Fixpoint map_get (k : K) (m : list (K * V)) : option V :=
  match m with
  | [] => None
  | (k', v) :: m' => if decide (k = k') then Some v else map_get k m'
  end.

(** [m.set(k, v)]: an existing key keeps its position. *)
Fixpoint map_set (k : K) (v : V) (m : list (K * V)) : list (K * V) :=
  match m with
  | [] => [(k, v)]
  | (k', v') :: m' =>
      if decide (k = k') then (k, v) :: m' else (k', v') :: map_set k v m'
  end.

Definition map_values (m : list (K * V)) : list V := m.*2.
Definition map_keys (m : list (K * V)) : list K := m.*1.
End map.

(** *** [Set]: elements in insertion order *)

Definition set_add {A} `{EqDecision A} (x : A) (s : list A) : list A :=
  if bool_decide (x ∈ s) then s else s ++ [x].

(** *** Arrays *)

(** [a.slice(i, j)] for [i <= j]. *)
Definition slice {A} (i j : nat) (a : list A) : list A :=
  take (j - i) (drop i a).

(** [for (let i = i0; i < a.length; i += size) body(i, a.slice(i, i + size))];
    each round advances [i] by [size], so [length a] rounds are enough as
    soon as [size] is positive. *)
Fixpoint for_slices_from {A S} (fuel i size : nat) (a : list A)
    (body : nat → list A → S → S) (s : S) : S :=
  match fuel with
  | O => s
  | S fuel' =>
      if (i <? length a)%nat
      then for_slices_from fuel' (i + size) size a body
             (body i (slice i (i + size) a) s)
      else s
  end.

Definition for_slices {A S} (size : nat) (a : list A)
    (body : nat → list A → S → S) (s : S) : S :=
  for_slices_from (length a) 0 size a body s.

(** [a.map(f)] for a callback [f] that reads and writes a state. *)
Fixpoint array_map {A B S} (f : A → S → B * S) (a : list A) (s : S)
    : list B * S :=
  match a with
  | [] => ([], s)
  | x :: a' =>
      let '(y, s1) := f x s in
      let '(ys, s2) := array_map f a' s1 in
      (y :: ys, s2)
  end.

(** [a.sort()] on strings: ascending by character code. *)
Definition sort (a : list string) : list string := merge_sort String.le a.

End JS.

(** ** The record store ([server/storage.ts]) *)

Module Storage.
Import JS.

(** The record types come from [@shared/schema]; their fields are the ones
    the program reads and writes.  Coordinates are only stored, copied and
    compared with [0]: they are integers here (a fixed-point reading). *)
Record InsertSalesData := {
  i_state : string;
  i_city : string;
  i_maker : option string;
  i_rto : option string;
  i_district : option string;
  i_latitude : Z;
  i_longitude : Z;
  i_sales2022 : option num;
  i_sales2023 : option num;
  i_sales2024 : option num;
  i_sales2025 : option num;
  i_total : option num;
  i_months : list (string * num)
}.

Record SalesData := {
  id : Z;
  state : string;
  city : string;
  maker : string;
  rto : string;
  district : string;
  latitude : Z;
  longitude : Z;
  sales2022 : Z;
  sales2023 : Z;
  sales2024 : Z;
  sales2025 : Z;
  total : Z;
  months : list (string * num)
}.

Global Instance SalesData_eq_dec : EqDecision SalesData.
Proof. solve_decision. Defined.

(** [x || ''] for an optional string and [x || 0] for an optional number. *)
Definition or_empty (x : option string) : string := default "" x.
Definition or_zero (x : option num) : Z :=
  match x with
  | Some (Num z) => z
  | _ => 0%Z
  end.

Record FilterOptions := {
  fo_makers : list string;
  fo_rtos : list string;
  fo_states : list string;
  fo_districts : list string
}.

Record MemStorage := {
  salesDataMap : list (Z * SalesData);
  currentId : Z;
  filterOptionsCache : option FilterOptions
}.

(** [new MemStorage()] *)
Definition empty : MemStorage :=
  {| salesDataMap := []; currentId := 1; filterOptionsCache := None |}.

Definition getAllSalesData (s : MemStorage) : list SalesData :=
  map_values (salesDataMap s).

Definition createSalesData (insertData : InsertSalesData) (s : MemStorage)
    : SalesData * MemStorage :=
  let id := currentId s in
  let data :=
    {| id := id;
       state := i_state insertData;
       city := i_city insertData;
       maker := or_empty (i_maker insertData);
       rto := or_empty (i_rto insertData);
       district := or_empty (i_district insertData);
       latitude := i_latitude insertData;
       longitude := i_longitude insertData;
       sales2022 := or_zero (i_sales2022 insertData);
       sales2023 := or_zero (i_sales2023 insertData);
       sales2024 := or_zero (i_sales2024 insertData);
       sales2025 := or_zero (i_sales2025 insertData);
       total := or_zero (i_total insertData);
       months := i_months insertData |} in
  (data,
   {| salesDataMap := map_set id data (salesDataMap s);
      currentId := (id + 1)%Z;
      filterOptionsCache := filterOptionsCache s |}).

Definition createMultipleSalesData (insertDataArray : list InsertSalesData)
    (s : MemStorage) : list SalesData * MemStorage :=
  let batchSize :=
    Nat.min 1000 (Nat.max 100 (length insertDataArray / 10)) in
  for_slices batchSize insertDataArray
    (λ _ batch '(results, s),
       let '(batchResults, s') :=
         array_map
           (λ insertData s,
              let id := currentId s in
              let data :=
                {| id := id;
                   state := i_state insertData;
                   city := i_city insertData;
                   maker := or_empty (i_maker insertData);
                   rto := or_empty (i_rto insertData);
                   district := or_empty (i_district insertData);
                   latitude := i_latitude insertData;
                   longitude := i_longitude insertData;
                   sales2022 := or_zero (i_sales2022 insertData);
                   sales2023 := or_zero (i_sales2023 insertData);
                   sales2024 := or_zero (i_sales2024 insertData);
                   sales2025 := or_zero (i_sales2025 insertData);
                   total := or_zero (i_total insertData);
                   months := i_months insertData |} in
              (data,
               {| salesDataMap := map_set id data (salesDataMap s);
                  currentId := (id + 1)%Z;
                  filterOptionsCache := filterOptionsCache s |}))
           batch s in
       (results ++ batchResults, s'))
    ([], s).

Definition clearSalesData (s : MemStorage) : MemStorage :=
  {| salesDataMap := []; currentId := 1; filterOptionsCache := None |}.

(** [data.latitude = latitude; data.longitude = longitude] *)
Definition set_coordinates (data : SalesData) (latitude longitude : Z)
    : SalesData :=
  {| id := id data;
     state := state data;
     city := city data;
     maker := maker data;
     rto := rto data;
     district := district data;
     latitude := latitude;
     longitude := longitude;
     sales2022 := sales2022 data;
     sales2023 := sales2023 data;
     sales2024 := sales2024 data;
     sales2025 := sales2025 data;
     total := total data;
     months := months data |}.

Definition updateSalesDataCoordinates (id : Z) (latitude longitude : Z)
    (s : MemStorage) : MemStorage :=
  match map_get id (salesDataMap s) with
  | Some data =>
      let data' := set_coordinates data latitude longitude in
      {| salesDataMap := map_set id data' (salesDataMap s);
         currentId := currentId s;
         filterOptionsCache := filterOptionsCache s |}
  | None => s
  end.

(** The coordinates stored under an id. *)
Definition coordinates (id : Z) (s : MemStorage) : option (Z * Z) :=
  (λ data, (latitude data, longitude data)) <$> map_get id (salesDataMap s).

(** Every key of the map is the id of its record and lies below the
    counter, and no key occurs twice: what [empty] satisfies and every
    operation keeps. *)
Definition store_ok (s : MemStorage) : Prop :=
  NoDup (map_keys (salesDataMap s))
  ∧ Forall (λ kv, id kv.2 = kv.1 ∧ (kv.1 < currentId s)%Z) (salesDataMap s).

(** The states a store goes through: [new MemStorage()] and what the
    methods make of it. *)
Inductive reachable : MemStorage → Prop :=
| reachable_empty : reachable empty
| reachable_create insertData s :
    reachable s → reachable (createSalesData insertData s).2
| reachable_create_multiple insertDataArray s :
    reachable s → reachable (createMultipleSalesData insertDataArray s).2
| reachable_clear s : reachable s → reachable (clearSalesData s)
| reachable_update id latitude longitude s :
    reachable s →
    reachable (updateSalesDataCoordinates id latitude longitude s).

End Storage.

(** ** The spreadsheet normalizer (row loop of [processExcelInBackground]) *)

Module Normalizer.
Import JS Storage.

(** The record assembled from a row, [salesData] in the source, before
    validation: [state], [city] and [district] are whatever the cells
    hold. *)
Record Draft := {
  d_state : JsVal;
  d_city : JsVal;
  d_maker : string;
  d_rto : string;
  d_district : JsVal;
  d_latitude : Z;
  d_longitude : Z;
  d_sales2022 : num;
  d_sales2023 : num;
  d_sales2024 : num;
  d_sales2025 : num;
  d_total : num;
  d_months : list (string * num)
}.

(** A validated record carries the values of the draft it comes from. *)
Definition agrees (d : Draft) (v : InsertSalesData) : Prop :=
  d_state d = VStr (i_state v)
  ∧ d_city d = VStr (i_city v)
  ∧ i_maker v = Some (d_maker d)
  ∧ i_rto v = Some (d_rto d)
  ∧ d_district d = VStr (or_empty (i_district v))
  ∧ i_latitude v = d_latitude d
  ∧ i_longitude v = d_longitude d
  ∧ i_sales2022 v = Some (d_sales2022 d)
  ∧ i_sales2023 v = Some (d_sales2023 d)
  ∧ i_sales2024 v = Some (d_sales2024 d)
  ∧ i_sales2025 v = Some (d_sales2025 d)
  ∧ i_total v = Some (d_total d).

(** Modelled from the spec: [insertSalesDataSchema] of [@shared/schema],
    which is not among the sources.  The spec has it "validate the
    assembled record against the schema (field presence/type)": [parse]
    rejects a draft ([None], the exception the row loop catches) or returns
    it with its fields unchanged. *)
Record Schema := {
  parse : Draft → option InsertSalesData;
  parse_agrees : ∀ d v, parse d = Some v → agrees d v
}.

Definition possibleMakerColumns : list string :=
  ["Maker"; "maker"; "MAKER"; "Manufacturer"; "manufacturer";
   "MANUFACTURER"; "Company"; "company"; "COMPANY"].

Definition possibleRTOColumns : list string :=
  ["RTO"; "rto"; "Rto"; "RTO_Code"; "rto_code"; "RTO Code"; "rto code"].

Definition months : list string :=
  ["JAN"; "FEB"; "MAR"; "APR"; "MAY"; "JUN";
   "JUL"; "AUG"; "SEP"; "OCT"; "NOV"; "DEC"].

(** [let v = ''; for (const col of cols)
      if (rowData[col] !== undefined) { v = String(rowData[col]).trim(); break; }] *)
Fixpoint probe (rowData : gmap string JsVal) (cols : list string) : string :=
  match cols with
  | [] => ""
  | col :: cols' =>
      match prop rowData col with
      | Undefined => probe rowData cols'
      | v => trim (toString v)
      end
  end.

Definition year_of (rowData : gmap string JsVal) : num :=
  parseInt (or (or (prop rowData "Year") (prop rowData "year")) (VStr "0")).
Definition state_of (rowData : gmap string JsVal) : JsVal :=
  or (or (prop rowData "state") (prop rowData "State")) (VStr "").
Definition city_of (rowData : gmap string JsVal) : JsVal :=
  or (or (prop rowData "city") (prop rowData "City")) (VStr "").
Definition district_of (rowData : gmap string JsVal) : JsVal :=
  or (or (prop rowData "District") (prop rowData "district")) (VStr "").

(** [[2022, 2023, 2024, 2025].includes(year)] *)
Definition year_included (year : num) : bool :=
  match year with
  | Num y => bool_decide (y ∈ [2022; 2023; 2024; 2025]%Z)
  | NaN => false
  end.

(** [parseInt(rowData[m] || rowData[m.toLowerCase()] || '0')] *)
Definition month_value (rowData : gmap string JsVal) (m : string) : num :=
  parseInt (or (or (prop rowData m) (prop rowData (toLowerCase m)))
               (VStr "0")).

(** [parseInt(rowData['total'] || rowData['Total'] || '0')] *)
Definition explicit_total (rowData : gmap string JsVal) : num :=
  parseInt (or (or (prop rowData "total") (prop rowData "Total"))
               (VStr "0")).


(** The loop over [months]: the running [yearTotal] and [monthValues]. *)
Definition month_step (rowData : gmap string JsVal)
    (acc : num * list (string * num)) (m : string)
    : num * list (string * num) :=
  let '(yearTotal, monthValues) := acc in
  let val := month_value rowData m in
  (add yearTotal val, monthValues ++ [(m, val)]).

Definition month_loop (rowData : gmap string JsVal)
    : num * list (string * num) :=
  fold_left (month_step rowData) months (Num 0, []).

Definition num_eqb (x : num) (z : Z) : bool :=
  match x with
  | Num y => (y =? z)%Z
  | NaN => false
  end.

(** The record assembled for a row that passed the two checks. *)
Definition assemble (rowData : gmap string JsVal) : Draft :=
  let maker := probe rowData possibleMakerColumns in
  let rto := probe rowData possibleRTOColumns in
  let year := year_of rowData in
  let state := state_of rowData in
  let city := city_of rowData in
  let district := district_of rowData in
  let latitude := 0%Z in
  let longitude := 0%Z in
  let '(yearTotal, monthValues) := month_loop rowData in
  let total := num_or (explicit_total rowData) yearTotal in
  let sales2022 := if num_eqb year 2022 then yearTotal else Num 0 in
  let sales2023 := if num_eqb year 2023 then yearTotal else Num 0 in
  let sales2024 := if num_eqb year 2024 then yearTotal else Num 0 in
  let sales2025 := if num_eqb year 2025 then yearTotal else Num 0 in
  {| d_state := state; d_city := city; d_maker := maker; d_rto := rto;
     d_district := district; d_latitude := latitude;
     d_longitude := longitude;
     d_sales2022 := sales2022; d_sales2023 := sales2023;
     d_sales2024 := sales2024; d_sales2025 := sales2025;
     d_total := total; d_months := monthValues |}.

(** [{ ...validatedData, ...monthValues }] *)
Definition with_months (v : InsertSalesData)
    (monthValues : list (string * num)) : InsertSalesData :=
  {| i_state := i_state v; i_city := i_city v; i_maker := i_maker v;
     i_rto := i_rto v; i_district := i_district v;
     i_latitude := i_latitude v; i_longitude := i_longitude v;
     i_sales2022 := i_sales2022 v; i_sales2023 := i_sales2023 v;
     i_sales2024 := i_sales2024 v; i_sales2025 := i_sales2025 v;
     i_total := i_total v; i_months := monthValues |}.

(** The body of the row loop: [None] where the source [continue]s (the two
    checks, or the exception of the schema caught by the row's [try]),
    [Some r] where it pushes [r] on [salesDataArray].  The sets
    [uniqueMakers] and [uniqueRTOs] are only logged and are left out. *)
Definition normalize_row (S : Schema) (rowData : gmap string JsVal)
    : option InsertSalesData :=
  let maker := probe rowData possibleMakerColumns in
  let rto := probe rowData possibleRTOColumns in
  let year := year_of rowData in
  let state := state_of rowData in
  let city := city_of rowData in
  if negb (str_truthy maker) || negb (str_truthy rto)
     || negb (truthy state) || negb (truthy city)
  then None
  else if negb (year_included year) then None
  else
    let salesData := assemble rowData in
    match parse S salesData with
    | Some validatedData =>
        Some (with_months validatedData (d_months salesData))
    | None => None
    end.

(** [for (const row of chunk) { ... }] on [salesDataArray]. *)
Definition row_loop (S : Schema) (chunk : list (gmap string JsVal))
    (salesDataArray : list InsertSalesData) : list InsertSalesData :=
  fold_left
    (λ arr row,
       match normalize_row S row with
       | Some r => arr ++ [r]
       | None => arr
       end)
    chunk salesDataArray.

(** Modelled from the spec: a schema that checks "field presence/type" and
    nothing else: [state], [city] and [district] are strings and no number
    is [NaN]. *)
Definition typed_parse (d : Draft) : option InsertSalesData :=
  match d_state d, d_city d, d_district d,
        d_sales2022 d, d_sales2023 d, d_sales2024 d, d_sales2025 d,
        d_total d with
  | VStr state, VStr city, VStr district,
    Num _, Num _, Num _, Num _, Num _ =>
      Some {| i_state := state; i_city := city;
              i_maker := Some (d_maker d); i_rto := Some (d_rto d);
              i_district := Some district;
              i_latitude := d_latitude d; i_longitude := d_longitude d;
              i_sales2022 := Some (d_sales2022 d);
              i_sales2023 := Some (d_sales2023 d);
              i_sales2024 := Some (d_sales2024 d);
              i_sales2025 := Some (d_sales2025 d);
              i_total := Some (d_total d);
              i_months := [] |}
  | _, _, _, _, _, _, _, _ => None
  end.

Lemma typed_parse_agrees d v : typed_parse d = Some v → agrees d v.
Proof.
  unfold typed_parse, agrees.
  destruct (d_state d), (d_city d), (d_district d); try discriminate.
  destruct (d_sales2022 d), (d_sales2023 d), (d_sales2024 d),
    (d_sales2025 d), (d_total d); try discriminate.
  intros [= <-]. simpl. repeat split; reflexivity.
Qed.

Definition typed_schema : Schema :=
  {| parse := typed_parse; parse_agrees := typed_parse_agrees |}.

End Normalizer.

(** ** The ingestion job ([processExcelInBackground]) *)

Module Job.
Import JS Storage Normalizer.

Inductive Status := processing | completed | error.

Global Instance Status_eq_dec : EqDecision Status.
Proof. solve_decision. Defined.

Record UploadStatus := {
  status : Status;
  totalRows : nat;
  processedRows : nat;
  insertedRecords : nat;
  error_message : option string;
  startTime : Z
}.

(** The process-wide state: the store, the job table and the geocoding
    cache. *)
Record World := {
  storage : MemStorage;
  uploadStatus : gmap string UploadStatus;
  geocodingCache : gmap string (Z * Z)
}.

Definition set_status (uploadId : string) (st : UploadStatus) (w : World)
    : World :=
  {| storage := storage w;
     uploadStatus := <[uploadId := st]> (uploadStatus w);
     geocodingCache := geocodingCache w |}.

(** An update of the job's entry in place, as [uploadStatus.get(id)!.f = v]
    and [uploadStatus.set(id, { ...uploadStatus.get(id)!, f: v })] do. *)
Definition update_status (uploadId : string)
    (f : UploadStatus → UploadStatus) (w : World) : World :=
  {| storage := storage w;
     uploadStatus := alter f uploadId (uploadStatus w);
     geocodingCache := geocodingCache w |}.

Definition set_storage (s : MemStorage) (w : World) : World :=
  {| storage := s;
     uploadStatus := uploadStatus w;
     geocodingCache := geocodingCache w |}.

Definition no_valid_data : string :=
  "No valid data found in the Excel file. Please check the format and required columns.".

(** What the workbook decoder hands over: the rows of the first sheet, or
    the message of the exception it throws. *)
Inductive Decoded :=
| Rows (jsonData : list (gmap string JsVal))
| Throws (message : string).

(** One round of the chunk loop: the rows of the chunk, then the progress
    update; the world after the update is what a poll sees while the loop
    is suspended. *)
Definition chunk_step (S : Schema) (uploadId : string)
    (chunkSize totalRows : nat) (i : nat) (chunk : list (gmap string JsVal))
    (acc : list InsertSalesData * World * list World)
    : list InsertSalesData * World * list World :=
  let '(salesDataArray, w, trace) := acc in
  let salesDataArray' := row_loop S chunk salesDataArray in
  let w' :=
    update_status uploadId
      (λ st,
         {| status := status st; totalRows := Job.totalRows st;
            processedRows := Nat.min (i + chunkSize) totalRows;
            insertedRecords := insertedRecords st;
            error_message := error_message st;
            startTime := startTime st |})
      w in
  (salesDataArray', w', trace ++ [w']).

(** The job on the decoded workbook, started at time [now] in world [w]:
    the worlds after each write to the job table or to the store, in
    order; the last one is the world the job leaves.  The enrichment the
    job starts when it completes is a task of its own,
    [Geocode.updateCoordinatesInBackground]. *)
Definition processExcelInBackground (S : Schema) (now : Z)
    (decoded : Decoded) (uploadId : string) (w : World) : list World :=
  let w0 :=
    set_status uploadId
      {| status := processing; totalRows := 0; processedRows := 0;
         insertedRecords := 0; error_message := None; startTime := now |}
      w in
  match decoded with
  | Throws message =>
      [w0;
       update_status uploadId
         (λ st,
            {| status := error; totalRows := Job.totalRows st;
               processedRows := processedRows st;
               insertedRecords := insertedRecords st;
               error_message := Some message;
               startTime := startTime st |})
         w0]
  | Rows jsonData =>
      let totalRows := length jsonData in
      let w1 :=
        update_status uploadId
          (λ st,
             {| status := status st; Job.totalRows := totalRows;
                processedRows := processedRows st;
                insertedRecords := insertedRecords st;
                error_message := error_message st;
                startTime := startTime st |})
          w0 in
      let chunkSize := Nat.min 2000 (Nat.max 500 (totalRows / 20)) in
      let '(salesDataArray, w2, trace) :=
        for_slices chunkSize jsonData
          (chunk_step S uploadId chunkSize totalRows)
          ([], w1, [w0; w1]) in
      if length salesDataArray =? 0
      then
        trace ++
        [update_status uploadId
           (λ st,
              {| status := error; Job.totalRows := Job.totalRows st;
                 processedRows := processedRows st;
                 insertedRecords := insertedRecords st;
                 error_message := Some no_valid_data;
                 startTime := startTime st |})
           w2]
      else
        let w3 := set_storage (clearSalesData (storage w2)) w2 in
        let '(insertedData, s4) :=
          createMultipleSalesData salesDataArray (storage w3) in
        let w4 := set_storage s4 w3 in
        let w5 :=
          update_status uploadId
            (λ st,
               {| status := completed; Job.totalRows := Job.totalRows st;
                  processedRows := totalRows;
                  insertedRecords := length insertedData;
                  error_message := error_message st;
                  startTime := startTime st |})
            w4 in
        trace ++ [w3; w4; w5]
  end.

(** [GET /api/upload-status/:uploadId], without the derived fields. *)
Definition poll (uploadId : string) (w : World) : option UploadStatus :=
  uploadStatus w !! uploadId.

(** The progress a poll of the job reads in a world. *)
Definition progress (uploadId : string) (w : World) : nat :=
  from_option processedRows 0 (poll uploadId w).

(** A trace whose worlds all hold the store, the cache and the other jobs
    of [w], and an entry of the job with progress at most [bound], in
    ascending order of progress. *)
Definition trace_ok (uploadId : string) (w : World) (bound : nat)
    (trace : list World) : Prop :=
  Forall (λ w', storage w' = storage w
                ∧ geocodingCache w' = geocodingCache w
                ∧ (∀ other, other ≠ uploadId → poll other w' = poll other w)
                ∧ is_Some (poll uploadId w')
                ∧ progress uploadId w' ≤ bound) trace
  ∧ StronglySorted le (progress uploadId <$> trace).

(** The store the job leaves. *)
Definition store_after (S : Schema) (now : Z)
    (jsonData : list (gmap string JsVal)) (uploadId : string) (w : World)
    : option MemStorage :=
  storage <$> last (processExcelInBackground S now (Rows jsonData) uploadId w).

End Job.

(** ** Geocode enrichment ([updateCoordinatesInBackground]) *)

Module Geocode.
Import JS Storage Job.

(** What a run meets outside the process: the configured key, the answer
    of the geocoding service to the lookup issued for a record ([Some]
    coordinates for status [OK] with a result, [None] for an empty result,
    another status or a failed request), and the time each answer takes;
    the answers of a batch are handled in the order of their arrival. *)
Record Env := {
  apiKey : option string;
  respond : Z → string → option (Z * Z);
  latency : Z → nat
}.

(** A lookup that has been sent and not yet answered. *)
Record Lookup := {
  l_item : SalesData;
  l_cacheKey : string;
  l_address : string
}.

Definition cacheKey_of (item : SalesData) : string :=
  city item +:+ ", " +:+ state item.

(** The lookup for a record: the address is its city and state, in
    India. *)
Definition lookup_of (item : SalesData) : Lookup :=
  {| l_item := item;
     l_cacheKey := cacheKey_of item;
     l_address := city item +:+ ", " +:+ state item +:+ ", India" |}.

Definition needs_geocode (item : SalesData) : bool :=
  (latitude item =? 0)%Z && (longitude item =? 0)%Z
  && str_truthy (state item) && str_truthy (city item).

(** The callback of [batch.map] up to its first suspension: a cached key
    updates the record at once, any other sends a lookup. *)
Definition start_item
    (acc : MemStorage * gmap string (Z * Z) * list Lookup)
    (item : SalesData) : MemStorage * gmap string (Z * Z) * list Lookup :=
  let '(s, cache, sent) := acc in
  let cacheKey := cacheKey_of item in
  match cache !! cacheKey with
  | Some coords =>
      (updateSalesDataCoordinates (id item) coords.1 coords.2 s, cache, sent)
  | None => (s, cache, sent ++ [lookup_of item])
  end.

(** The rest of the callback, run when the answer has arrived. *)
Definition finish_lookup (e : Env)
    (acc : MemStorage * gmap string (Z * Z)) (l : Lookup)
    : MemStorage * gmap string (Z * Z) :=
  let '(s, cache) := acc in
  match respond e (id (l_item l)) (l_address l) with
  | Some coords =>
      (updateSalesDataCoordinates (id (l_item l)) coords.1 coords.2 s,
       <[l_cacheKey l := coords]> cache)
  | None => (s, cache)
  end.

Definition arrives_before (e : Env) (l1 l2 : Lookup) : Prop :=
  latency e (id (l_item l1)) ≤ latency e (id (l_item l2)).

Global Instance arrives_before_dec e : RelDecision (arrives_before e).
Proof. intros l1 l2. unfold arrives_before. apply _. Defined.

(** [await Promise.all(batch.map(async item => ...))]: every callback
    runs to its first suspension before any answer is handled.  The
    lookups sent are appended to [log]. *)
Definition batch_step (e : Env) (batch : list SalesData)
    (acc : MemStorage * gmap string (Z * Z) * list Lookup)
    : MemStorage * gmap string (Z * Z) * list Lookup :=
  let '(s, cache, log) := acc in
  let '(s1, cache1, sent) := fold_left start_item batch (s, cache, []) in
  let '(s2, cache2) :=
    fold_left (finish_lookup e) (merge_sort (arrives_before e) sent)
      (s1, cache1) in
  (s2, cache2, log ++ sent).

(** The batches from index [i] on. *)
Definition geocode_from (e : Env) (fuel i : nat)
    (itemsNeedingGeocode : list SalesData)
    (acc : MemStorage * gmap string (Z * Z) * list Lookup)
    : MemStorage * gmap string (Z * Z) * list Lookup :=
  let batchSize := 10 in
  for_slices_from fuel i batchSize itemsNeedingGeocode
    (λ _ batch acc, batch_step e batch acc) acc.

Definition itemsNeedingGeocode (s : MemStorage) : list SalesData :=
  List.filter needs_geocode (getAllSalesData s).

(** One run: the world it leaves and the lookups it sent, in order. *)
Definition updateCoordinatesInBackground (e : Env) (w : World)
    : World * list Lookup :=
  match apiKey e with
  | Some key =>
      if str_truthy key
      then
        let items := itemsNeedingGeocode (storage w) in
        let '(s, cache, log) :=
          geocode_from e (length items) 0 items
            (storage w, geocodingCache w, []) in
        ({| storage := s; uploadStatus := uploadStatus w;
            geocodingCache := cache |}, log)
      else (w, [])
  | None => (w, [])
  end.

(** Successive runs, each in its own environment. *)
Definition runs (es : list Env) (w : World) : World :=
  fold_left (λ w e, (updateCoordinatesInBackground e w).1) es w.

End Geocode.

(** ** The cascading filters ([POST /api/cascading-filters]) *)

Module Filters.
Import JS Storage.

(** The request body; an absent list reads as [[]]. *)
Record Selection := {
  makers : option (list string);
  rtos : option (list string);
  states : option (list string);
  districts : option (list string)
}.

(** [a.includes(x)] on strings. *)
Definition includes (a : list string) (x : string) : bool :=
  bool_decide (x ∈ a).

Definition unconstrained_or_includes (a : list string) (x : string) : bool :=
  (length a =? 0) || includes a x.

(** The body of [allData.forEach] on the four option sets. *)
Definition options_step (makers rtos states districts : list string)
    (acc : list string * list string * list string * list string)
    (item : SalesData)
    : list string * list string * list string * list string :=
  let '(makerOptions, rtoOptions, stateOptions, districtOptions) := acc in
  let makerOptions :=
    if unconstrained_or_includes rtos (rto item)
       && unconstrained_or_includes states (state item)
       && unconstrained_or_includes districts (district item)
    then set_add (maker item) makerOptions else makerOptions in
  let rtoOptions :=
    if unconstrained_or_includes makers (maker item)
       && unconstrained_or_includes states (state item)
       && unconstrained_or_includes districts (district item)
    then set_add (rto item) rtoOptions else rtoOptions in
  let stateOptions :=
    if unconstrained_or_includes makers (maker item)
       && unconstrained_or_includes rtos (rto item)
       && unconstrained_or_includes districts (district item)
    then set_add (state item) stateOptions else stateOptions in
  let districtOptions :=
    if unconstrained_or_includes makers (maker item)
       && unconstrained_or_includes rtos (rto item)
       && unconstrained_or_includes states (state item)
    then set_add (district item) districtOptions else districtOptions in
  (makerOptions, rtoOptions, stateOptions, districtOptions).

(** The handler: [filteredData] and [availableOptions]. *)
Definition cascadingFilters (body : Selection) (s : MemStorage)
    : list SalesData * FilterOptions :=
  let makers := default [] (makers body) in
  let rtos := default [] (rtos body) in
  let states := default [] (states body) in
  let districts := default [] (districts body) in
  let allData := getAllSalesData s in
  let filteredData :=
    List.filter
      (λ item,
         let makerMatch := unconstrained_or_includes makers (maker item) in
         let rtoMatch := unconstrained_or_includes rtos (rto item) in
         let stateMatch := unconstrained_or_includes states (state item) in
         let districtMatch :=
           unconstrained_or_includes districts (district item) in
         makerMatch && rtoMatch && stateMatch && districtMatch)
      allData in
  let '(makerOptions, rtoOptions, stateOptions, districtOptions) :=
    fold_left (options_step makers rtos states districts) allData
      ([], [], [], []) in
  let availableOptions :=
    {| fo_makers := sort (List.filter str_truthy makerOptions);
       fo_rtos := sort (List.filter str_truthy rtoOptions);
       fo_states := sort (List.filter str_truthy stateOptions);
       fo_districts := sort (List.filter str_truthy districtOptions) |} in
  (filteredData, availableOptions).

End Filters.

(** ** Sample data *)

Module Sample.
Import JS Storage Normalizer.

Definition pune : InsertSalesData :=
  {| i_state := "Maharashtra"; i_city := "Pune"; i_maker := Some "Acme";
     i_rto := Some "MH12"; i_district := None;
     i_latitude := 0; i_longitude := 0;
     i_sales2022 := None; i_sales2023 := Some (Num 30);
     i_sales2024 := Some NaN; i_sales2025 := None;
     i_total := Some (Num 30); i_months := [] |}.

Definition nashik : InsertSalesData :=
  {| i_state := "Maharashtra"; i_city := "Nashik"; i_maker := Some "Zenith";
     i_rto := Some "MH15"; i_district := Some "Nashik";
     i_latitude := 0; i_longitude := 0;
     i_sales2022 := Some (Num 4); i_sales2023 := None;
     i_sales2024 := None; i_sales2025 := None;
     i_total := Some (Num 4); i_months := [] |}.

(** A store that already holds one record. *)
Definition one_record : MemStorage := (createSalesData nashik Storage.empty).2.

(** Two records of the same city, not geocoded yet. *)
Definition two_pune : MemStorage :=
  (createMultipleSalesData [pune; pune] Storage.empty).2.

(** A record of maker Acme and one of maker Zenith. *)
Definition acme_zenith : MemStorage :=
  (createMultipleSalesData [pune; nashik] Storage.empty).2.

(** The first of the two has been geocoded. *)
Definition one_enriched : MemStorage :=
  updateSalesDataCoordinates 1 18 73 two_pune.

Definition in_city (name : string) : InsertSalesData :=
  {| i_state := "Maharashtra"; i_city := name; i_maker := Some "Acme";
     i_rto := None; i_district := None;
     i_latitude := 0; i_longitude := 0;
     i_sales2022 := None; i_sales2023 := None;
     i_sales2024 := None; i_sales2025 := None;
     i_total := None; i_months := [] |}.

(** Eleven records; the first and the last are in the same city, in two
    batches. *)
Definition eleven : MemStorage :=
  (createMultipleSalesData
     (in_city <$> ["Pune"; "Nashik"; "Nagpur"; "Thane"; "Solapur";
                   "Kolhapur"; "Satara"; "Sangli"; "Latur"; "Akola";
                   "Pune"])
     Storage.empty).2.

Definition world_of (s : MemStorage) : Job.World :=
  {| Job.storage := s; Job.uploadStatus := ∅; Job.geocodingCache := ∅ |}.

(** A service that answers every lookup, with coordinates made from the
    id of the record. *)
Definition geocoder : Geocode.Env :=
  {| Geocode.apiKey := Some "key";
     Geocode.respond := λ id _, Some (18 + id, 73 + id)%Z;
     Geocode.latency := λ _, 0 |}.

(** The same service with an empty result for the first record. *)
Definition geocoder_failing_once : Geocode.Env :=
  {| Geocode.apiKey := Some "key";
     Geocode.respond :=
       λ id _, if (id =? 1)%Z then None else Some (18 + id, 73 + id)%Z;
     Geocode.latency := λ _, 0 |}.

Definition row_2023 : gmap string JsVal :=
  list_to_map
    [("Maker", VStr "Acme"); ("RTO", VStr "MH12");
     ("state", VStr "Maharashtra"); ("city", VStr "Pune");
     ("Year", VNum 2023); ("JAN", VNum 10); ("FEB", VNum 20)].

Definition row_2023_total_99 : gmap string JsVal :=
  <["total" := VNum 99]> row_2023.


(** The state is a number cell. *)
Definition row_numeric_state : gmap string JsVal :=
  <["state" := VNum 5]> row_2023.

(** The state is a text cell that holds one space. *)
Definition row_blank_state : gmap string JsVal :=
  <["state" := VStr " "]> row_2023.

(** [Maker] is present and blank, [Manufacturer] holds a name. *)
Definition row_blank_maker : gmap string JsVal :=
  <["Maker" := VStr "  "]> (<["Manufacturer" := VStr "Acme"]> row_2023).

(** No [Maker] column, [Manufacturer] holds a name. *)
Definition row_manufacturer : gmap string JsVal :=
  <["Manufacturer" := VStr "Acme"]> (delete "Maker" row_2023).


Definition row_2021 : gmap string JsVal :=
  <["Year" := VNum 2021]> row_2023.

End Sample.

(** ** The status routes and the upload filter ([registerRoutes]) *)

Module Routes.
Import JS Storage.

(** [upload.fileFilter]: [None] where the callback accepts the file, the
    message of the error where it refuses it. *)
Definition allowedTypes : list string :=
  ["application/vnd.openxmlformats-officedocument.spreadsheetml.sheet";
   "application/vnd.ms-excel";
   "application/vnd.oasis.opendocument.spreadsheet"].

Definition fileFilter (mimetype : string) : option string :=
  if bool_decide (mimetype ∈ allowedTypes)
  then None
  else Some "Invalid file type. Please upload an Excel file.".

(** [item.latitude !== 0 || item.longitude !== 0] *)
Definition geocoded (item : SalesData) : bool :=
  negb (latitude item =? 0)%Z || negb (longitude item =? 0)%Z.

(** The answer of [GET /api/geocoding-status].  [percentComplete], a
    rounded floating-point quotient of the two counts, is left out. *)
Record GeocodingStatus := {
  totalRecords : nat;
  geocodedRecords : nat;
  pendingGeocode : nat
}.

Definition geocodingStatus (s : MemStorage) : GeocodingStatus :=
  let allData := getAllSalesData s in
  let totalRecords := length allData in
  let geocodedRecords := length (List.filter geocoded allData) in
  {| totalRecords := totalRecords;
     geocodedRecords := geocodedRecords;
     pendingGeocode := totalRecords - geocodedRecords |}.

(** The store read with the coordinates of every record blanked: what is
    left of it when latitude and longitude are not looked at. *)
Definition without_coordinates (s : MemStorage) : MemStorage :=
  {| salesDataMap :=
       (λ kv, (kv.1, set_coordinates kv.2 0 0)) <$> salesDataMap s;
     currentId := currentId s;
     filterOptionsCache := filterOptionsCache s |}.

End Routes.

(** ** The filter bar ([client/src/components/CascadingFilters.tsx]) *)

Module FilterBar.
Import JS Storage.

(** The selections the component is handed by its parent. *)
Record Props := {
  selectedMakers : list string;
  selectedRTOs : list string;
  selectedStates : list string;
  selectedDistricts : list string
}.

(** A call of one of the parent's callbacks with the new selection. *)
Inductive Call :=
| onMakersChange (makers : list string)
| onRTOsChange (rtos : list string)
| onStatesChange (states : list string)
| onDistrictsChange (districts : list string).

(** The calls a handler makes, in order; the [default] branch returns
    without a call. *)
Definition handleFilterChange (p : Props) (filterType value : string)
    (checked : bool) : list Call :=
  if String.eqb filterType "maker" then
    let updatedSelection :=
      if checked then selectedMakers p ++ [value]
      else List.filter (λ v, bool_decide (v ≠ value)) (selectedMakers p) in
    [onMakersChange updatedSelection]
  else if String.eqb filterType "rto" then
    let updatedSelection :=
      if checked then selectedRTOs p ++ [value]
      else List.filter (λ v, bool_decide (v ≠ value)) (selectedRTOs p) in
    [onRTOsChange updatedSelection]
  else if String.eqb filterType "state" then
    let updatedSelection :=
      if checked then selectedStates p ++ [value]
      else List.filter (λ v, bool_decide (v ≠ value)) (selectedStates p) in
    [onStatesChange updatedSelection]
  else if String.eqb filterType "district" then
    let updatedSelection :=
      if checked then selectedDistricts p ++ [value]
      else List.filter (λ v, bool_decide (v ≠ value)) (selectedDistricts p) in
    [onDistrictsChange updatedSelection]
  else [].

Definition handleClearAll : list Call :=
  [onMakersChange []; onRTOsChange []; onStatesChange [];
   onDistrictsChange []].

Definition isAllSelected (selected available : list string) : bool :=
  length selected =? length available.

Definition handleSelectAll (p : Props) (type : string)
    (options : list string) : list Call :=
  if String.eqb type "maker" then
    [onMakersChange
       (if isAllSelected (selectedMakers p) options then [] else options)]
  else if String.eqb type "rto" then
    [onRTOsChange
       (if isAllSelected (selectedRTOs p) options then [] else options)]
  else if String.eqb type "state" then
    [onStatesChange
       (if isAllSelected (selectedStates p) options then [] else options)]
  else if String.eqb type "district" then
    [onDistrictsChange
       (if isAllSelected (selectedDistricts p) options then [] else options)]
  else [].

Definition hasActiveFilters (p : Props) : bool :=
  (0 <? length (selectedMakers p)) || (0 <? length (selectedRTOs p))
  || (0 <? length (selectedStates p)) || (0 <? length (selectedDistricts p)).

(** The body the effect posts to [/api/cascading-filters]. *)
Definition request (p : Props) : Filters.Selection :=
  {| Filters.makers := Some (selectedMakers p);
     Filters.rtos := Some (selectedRTOs p);
     Filters.states := Some (selectedStates p);
     Filters.districts := Some (selectedDistricts p) |}.

(** The props with one selection replaced. *)
Definition with_makers (v : list string) (p : Props) : Props :=
  {| selectedMakers := v; selectedRTOs := selectedRTOs p;
     selectedStates := selectedStates p;
     selectedDistricts := selectedDistricts p |}.
Definition with_rtos (v : list string) (p : Props) : Props :=
  {| selectedMakers := selectedMakers p; selectedRTOs := v;
     selectedStates := selectedStates p;
     selectedDistricts := selectedDistricts p |}.
Definition with_states (v : list string) (p : Props) : Props :=
  {| selectedMakers := selectedMakers p; selectedRTOs := selectedRTOs p;
     selectedStates := v; selectedDistricts := selectedDistricts p |}.
Definition with_districts (v : list string) (p : Props) : Props :=
  {| selectedMakers := selectedMakers p; selectedRTOs := selectedRTOs p;
     selectedStates := selectedStates p; selectedDistricts := v |}.

End FilterBar.

(** ** The upload form ([client/src/components/FileUpload.tsx]) *)

Module FileUpload.
Import JS Storage Job.

(** What the form reads of a [File]. *)
Record File := {
  type : string;
  size : Z
}.

Inductive Selected :=
| InvalidFileType
| FileTooLarge
| Upload (file : File).

Definition validTypes : list string :=
  ["application/vnd.openxmlformats-officedocument.spreadsheetml.sheet";
   "application/vnd.ms-excel"].

(** [handleFileSelect] on a file that is there: the toast it raises, or
    the file it hands to the upload. *)
Definition handleFileSelect (file : File) : Selected :=
  if negb (bool_decide (type file ∈ validTypes)) then InvalidFileType
  else if (100 * 1024 * 1024 <? size file)%Z then FileTooLarge
  else Upload file.

(** How a poll of the upload status ends: the toast of a completed job,
    the toast of a failed one with its description, or no toast at all
    when the poller stops asking. *)
Inductive Ending :=
| ProcessingComplete (insertedRecords : nat)
| ProcessingFailed (description : string)
| Stopped.

Definition maxAttempts : nat := 1800.

(** [poll] inside [pollUploadStatus]; [replies n] is what request [n]
    (the first is request [0]) brings: the status of the job, one of the
    three the server writes, or [None] when the request fails.  The result is the list of statuses shown, the
    ending and the number of requests made.  Every further request
    raises [attempts], which stays below [maxAttempts + 1]: that many
    rounds are enough. *)
Fixpoint poll (replies : nat → option UploadStatus) (fuel attempts : nat)
    : list UploadStatus * Ending * nat :=
  match fuel with
  | O => ([], Stopped, attempts)
  | S fuel' =>
      match replies attempts with
      | Some st =>
          match status st with
          | completed => ([st], ProcessingComplete (insertedRecords st),
                          attempts + 1)
          | error =>
              ([st],
               ProcessingFailed
                 (match error_message st with
                  | Some message =>
                      if str_truthy message then message
                      else "Failed to process Excel file"
                  | None => "Failed to process Excel file"
                  end),
               attempts + 1)
          | processing =>
              if attempts <? maxAttempts
              then
                let '(shown, ending, requests) :=
                  poll replies fuel' (attempts + 1) in
                (st :: shown, ending, requests)
              else ([st], Stopped, attempts + 1)
          end
      | None =>
          if attempts <? maxAttempts
          then poll replies fuel' (attempts + 1)
          else ([], Stopped, attempts + 1)
      end
  end.

Definition pollUploadStatus (replies : nat → option UploadStatus)
    : list UploadStatus * Ending * nat :=
  poll replies (maxAttempts + 1) 0.

End FileUpload.

(** ** More sample data *)

Module Cases.
Import JS Storage Job.

(** A service that knows one address, whatever record asks. *)
Definition pune_only : Geocode.Env :=
  {| Geocode.apiKey := Some "key";
     Geocode.respond :=
       λ _ address,
         if String.eqb address "Pune, Maharashtra, India"
         then Some (18, 73)%Z else None;
     Geocode.latency := λ _, 0 |}.

(** A service that is down. *)
Definition no_answer : Geocode.Env :=
  {| Geocode.apiKey := Some "key";
     Geocode.respond := λ _ _, None;
     Geocode.latency := λ _, 0 |}.

(** The filter bar with the maker Acme checked. *)
Definition acme_checked : FilterBar.Props :=
  {| FilterBar.selectedMakers := ["Acme"]; FilterBar.selectedRTOs := [];
     FilterBar.selectedStates := []; FilterBar.selectedDistricts := [] |}.

(** The filter bar with nothing checked. *)
Definition nothing_checked : FilterBar.Props :=
  {| FilterBar.selectedMakers := []; FilterBar.selectedRTOs := [];
     FilterBar.selectedStates := []; FilterBar.selectedDistricts := [] |}.

(** The replies to a poller of a job that completes with five records:
    two polls find it processing, the third finds it completed. *)
Definition completes_at_third_poll (n : nat) : option UploadStatus :=
  if n <? 2
  then Some {| status := processing; totalRows := 9; processedRows := 4;
               insertedRecords := 0; error_message := None;
               startTime := 0 |}
  else Some {| status := completed; totalRows := 9; processedRows := 9;
               insertedRecords := 5; error_message := None;
               startTime := 0 |}.

End Cases.

(** * Properties *)

Import JS Storage.

(** ** Loops over slices *)

Section for_slices.
Context {A S : Type} (size : nat) (a : list A) (body : nat → list A → S → S).
Hypothesis size_pos : 0 < size.

(** A loop invariant [P i s], indexed by the loop variable, holds when the
    loop is left, and the loop is left with the whole array consumed:
    the fuel never runs out. *)
Lemma for_slices_from_invariant (P : nat → S → Prop) :
  (∀ i s, i < length a → P i s →
          P (i + size) (body i (slice i (i + size) a) s)) →
  ∀ fuel i s, length a - i ≤ fuel → P i s →
  ∃ j, length a ≤ j ∧ P j (for_slices_from fuel i size a body s).
Proof.
  intros Hstep fuel. induction fuel as [|fuel IH]; intros i s Hfuel HP.
  - exists i. split; [lia | exact HP].
  - simpl. destruct (i <? length a) eqn:Hlt.
    + apply Nat.ltb_lt in Hlt. apply IH; [lia | by apply Hstep].
    + apply Nat.ltb_ge in Hlt. exists i. split; [lia | exact HP].
Qed.

Lemma for_slices_invariant (P : nat → S → Prop) s :
  (∀ i s, i < length a → P i s →
          P (i + size) (body i (slice i (i + size) a) s)) →
  P 0 s →
  ∃ j, length a ≤ j ∧ P j (for_slices size a body s).
Proof.
  intros Hstep HP. apply for_slices_from_invariant; [done | lia | done].
Qed.
End for_slices.

Lemma take_add_slice {A} (a : list A) i n :
  take (i + n) a = take i a ++ slice i (i + n) a.
Proof.
  unfold slice. replace (i + n - i) with n by lia.
  rewrite <- (take_drop i a) at 1.
  destruct (decide (i ≤ length a)) as [Hle|Hgt].
  - rewrite take_app_add'; [done|]. rewrite length_take. lia.
  - rewrite (take_ge a i) by lia. rewrite (drop_ge a i) by lia.
    rewrite app_nil_r, take_nil, app_nil_r. apply take_ge. lia.
Qed.

(** ** [Map] *)

Section map_facts.
Context {K V : Type} `{EqDecision K}.
Implicit Types (m : list (K * V)) (k : K) (v : V).

Lemma map_get_None m k : map_get k m = None ↔ k ∉ map_keys m.
Proof.
  unfold map_keys. induction m as [|[k' v'] m IH]; simpl.
  - split; [intros _; apply not_elem_of_nil | done].
  - case_decide as Hk.
    + subst. split; [done | intros Hn; exfalso; apply Hn; left].
    + rewrite IH, not_elem_of_cons. split; [by intros ?|by intros [_ ?]].
Qed.

Lemma map_get_Some_split m k v :
  map_get k m = Some v →
  ∃ before after, m = before ++ (k, v) :: after ∧ k ∉ map_keys before.
Proof.
  unfold map_keys. induction m as [|[k' v'] m IH]; simpl; [done|].
  case_decide as Hk.
  - intros [= ->]. subst. exists [], m. split; [done | apply not_elem_of_nil].
  - intros Hget. destruct (IH Hget) as (before & after & -> & Hnot).
    exists ((k', v') :: before), after. split; [done|].
    simpl. rewrite not_elem_of_cons. done.
Qed.

Lemma map_get_app_fresh before after k v :
  k ∉ map_keys before → map_get k (before ++ (k, v) :: after) = Some v.
Proof.
  unfold map_keys. induction before as [|[k' v'] before IH]; simpl.
  - intros _. by rewrite decide_True.
  - rewrite not_elem_of_cons. intros [Hne Hnot].
    rewrite decide_False by done. by apply IH.
Qed.

Lemma map_set_split before after k v v' :
  k ∉ map_keys before →
  map_set k v' (before ++ (k, v) :: after) = before ++ (k, v') :: after.
Proof.
  unfold map_keys. induction before as [|[k0 v0] before IH]; simpl.
  - intros _. by rewrite decide_True.
  - rewrite not_elem_of_cons. intros [Hne Hnot].
    rewrite decide_False by done. f_equal. by apply IH.
Qed.

Lemma map_set_fresh m k v : k ∉ map_keys m → map_set k v m = m ++ [(k, v)].
Proof.
  unfold map_keys. induction m as [|[k' v'] m IH]; simpl; [done|].
  rewrite not_elem_of_cons. intros [Hne Hnot].
  rewrite decide_False by done. f_equal. by apply IH.
Qed.

Lemma map_keys_set m k v :
  is_Some (map_get k m) → map_keys (map_set k v m) = map_keys m.
Proof.
  unfold map_keys. induction m as [|[k' v'] m IH]; simpl.
  - by intros [? ?].
  - case_decide as Hk; [by subst|]. intros Hs. simpl. f_equal. by apply IH.
Qed.

Lemma map_get_set m k k' v :
  map_get k' (map_set k v m) = if decide (k' = k) then Some v else map_get k' m.
Proof.
  induction m as [|[k0 v0] m IH]; simpl; [done|].
  destruct (decide (k = k0)) as [->|Hk]; simpl.
  - destruct (decide (k' = k0)); done.
  - destruct (decide (k' = k0)) as [->|Hk']; [by rewrite decide_False|].
    apply IH.
Qed.
End map_facts.

(** ** The record store *)

Lemma array_map_app {A B S} (f : A → S → B * S) (a1 a2 : list A) (s : S) :
  array_map f (a1 ++ a2) s =
    let '(r1, s1) := array_map f a1 s in
    let '(r2, s2) := array_map f a2 s1 in
    (r1 ++ r2, s2).
Proof.
  revert s. induction a1 as [|x a1 IH]; intros s; simpl.
  - by destruct (array_map f a2 s).
  - destruct (f x s) as [y s1]. rewrite IH.
    destruct (array_map f a1 s1) as [r1 s2].
    by destruct (array_map f a2 s2).
Qed.

(** The chunks of [createMultipleSalesData] are not observable. *)
Lemma createMultipleSalesData_unchunked insertDataArray s :
  createMultipleSalesData insertDataArray s =
    array_map createSalesData insertDataArray s.
Proof.
  unfold createMultipleSalesData.
  set (batchSize := Nat.min 1000 (Nat.max 100 (length insertDataArray / 10))).
  match goal with |- for_slices _ _ ?b _ = _ => set (body := b) end.
  destruct (for_slices_invariant batchSize insertDataArray body ltac:(lia)
    (λ i acc, acc = array_map createSalesData (take i insertDataArray) s)
    ([], s)) as (j & Hj & Hinv).
  - intros i [results s1] Hi Hacc. unfold body.
    rewrite take_add_slice, array_map_app, <- Hacc.
    change (array_map _ (slice i (i + batchSize) insertDataArray) s1)
      with (array_map createSalesData (slice i (i + batchSize) insertDataArray) s1).
    by destruct (array_map createSalesData _ s1).
  - done.
  - rewrite Hinv. by rewrite take_ge.
Qed.

Lemma createSalesData_store_ok insertData s :
  store_ok s → store_ok (createSalesData insertData s).2.
Proof.
  intros [Hnd Hall]. unfold store_ok, createSalesData. simpl.
  assert (currentId s ∉ map_keys (salesDataMap s)) as Hfresh.
  { unfold map_keys. intros Hin. apply list_elem_of_fmap in Hin as ([k r] & Hk & Hin).
    rewrite Forall_forall in Hall. apply Hall in Hin. simpl in *. lia. }
  rewrite map_set_fresh by done. split.
  - unfold map_keys in *. rewrite fmap_app. simpl.
    apply NoDup_app. split; [done|]. split; [|apply NoDup_singleton].
    intros k Hk ->%list_elem_of_singleton. done.
  - apply Forall_app. split.
    + eapply Forall_impl; [exact Hall|]. simpl. intros [k r]. simpl. lia.
    + apply Forall_singleton. simpl. lia.
Qed.

Lemma array_map_createSalesData insertDataArray s :
  store_ok s →
  let r := array_map createSalesData insertDataArray s in
  id <$> r.1 = (λ i, currentId s + Z.of_nat i)%Z <$> seq 0 (length insertDataArray)
  ∧ salesDataMap r.2 = salesDataMap s ++ ((λ d, (id d, d)) <$> r.1)
  ∧ currentId r.2 = (currentId s + Z.of_nat (length insertDataArray))%Z
  ∧ filterOptionsCache r.2 = filterOptionsCache s
  ∧ store_ok r.2.
Proof.
  revert s. induction insertDataArray as [|x l IH]; intros s Hok.
  - simpl. rewrite app_nil_r, Z.add_0_r. done.
  - cbn [array_map length]. pose proof (createSalesData_store_ok x s Hok) as Hok1.
    destruct (createSalesData x s) as [d s1] eqn:Hc. simpl in Hok1.
    specialize (IH s1 Hok1). simpl in IH.
    destruct (array_map createSalesData l s1) as [ds s2].
    cbn [fst snd] in *.
    destruct IH as (Hids & Hmap & Hcur & Hfo & Hok2).
    assert (id d = currentId s ∧ currentId s1 = (currentId s + 1)%Z
            ∧ salesDataMap s1 = salesDataMap s ++ [(id d, d)]
            ∧ filterOptionsCache s1 = filterOptionsCache s) as (Hd & Hc1 & Hm1 & Hf1).
    { unfold createSalesData in Hc. injection Hc as <- <-. simpl.
      repeat split. apply map_set_fresh.
      destruct Hok as [_ Hall]. unfold map_keys.
      intros Hin. apply list_elem_of_fmap in Hin as ([k r] & Hk & Hin).
      rewrite Forall_forall in Hall. apply Hall in Hin. simpl in *. lia. }
    split_and!; try done.
    + rewrite fmap_cons, Hids, Hd. cbn [seq fmap list_fmap].
      rewrite Z.add_0_r. f_equal.
      rewrite <- fmap_S_seq, <- list_fmap_compose. apply list_fmap_ext.
      intros ? i _. simpl. lia.
    + rewrite Hmap, Hm1, <- app_assoc. done.
    + lia.
    + congruence.
Qed.


(** C5: for every list of N input records and every starting counter value
    c, [createMultipleSalesData] returns what calling [createSalesData] on
    each input in order returns (the chunks are not observable), and leaves
    the store with exactly N new records, appended in input order under the
    distinct sequential ids c, c+1, ..., c+N-1. *)
Theorem createMultipleSalesData_sequential
    (insertDataArray : list InsertSalesData) (s : MemStorage) :
  store_ok s →
  let c := currentId s in
  let N := length insertDataArray in
  let r := createMultipleSalesData insertDataArray s in
  r = array_map createSalesData insertDataArray s
  ∧ length r.1 = N
  ∧ id <$> r.1 = (λ i, c + Z.of_nat i)%Z <$> seq 0 N
  ∧ NoDup (id <$> r.1)
  ∧ salesDataMap r.2 = salesDataMap s ++ ((λ d, (id d, d)) <$> r.1)
  ∧ currentId r.2 = (c + Z.of_nat N)%Z.
Proof.
  intros Hok c N r. subst r.
  rewrite createMultipleSalesData_unchunked.
  destruct (array_map_createSalesData insertDataArray s Hok)
    as (Hids & Hmap & Hcur & _ & _).
  split_and!; try done.
  - apply (f_equal length) in Hids.
    by rewrite !length_fmap, length_seq in Hids.
  - rewrite Hids. apply NoDup_fmap_2; [|apply NoDup_seq].
    intros i j Hij. lia.
Qed.

Lemma createMultipleSalesData_sequential_witness :
  store_ok Sample.one_record
  ∧ let c := currentId Sample.one_record in
    let N := length [Sample.pune; Sample.nashik] in
    let r := createMultipleSalesData [Sample.pune; Sample.nashik]
               Sample.one_record in
    r = array_map createSalesData [Sample.pune; Sample.nashik] Sample.one_record
    ∧ length r.1 = N
    ∧ id <$> r.1 = (λ i, c + Z.of_nat i)%Z <$> seq 0 N
    ∧ NoDup (id <$> r.1)
    ∧ salesDataMap r.2 =
        salesDataMap Sample.one_record ++ ((λ d, (id d, d)) <$> r.1)
    ∧ currentId r.2 = (c + Z.of_nat N)%Z.
Proof.
  assert (store_ok Sample.one_record) as Hok.
  { split; vm_compute.
    - apply NoDup_singleton.
    - apply Forall_singleton. split; [reflexivity | reflexivity]. }
  split; [exact Hok|].
  exact (createMultipleSalesData_sequential
           [Sample.pune; Sample.nashik] Sample.one_record Hok).
Defined.

(** C9: for every store state, id and coordinate pair, if a record with
    that id exists [updateSalesDataCoordinates] changes only its latitude
    and longitude, leaving its other fields, every other record, the order
    of the records and the rest of the store as they were; if no record
    has that id the whole store state is unchanged. *)
Theorem updateSalesDataCoordinates_frame (s : MemStorage) (k lat lon : Z) :
  let s' := updateSalesDataCoordinates k lat lon s in
  match map_get k (salesDataMap s) with
  | Some data =>
      ∃ before after data',
        salesDataMap s = before ++ (k, data) :: after
        ∧ (k ∉ map_keys before)
        ∧ salesDataMap s' = before ++ (k, data') :: after
        ∧ latitude data' = lat ∧ longitude data' = lon
        ∧ id data' = id data ∧ state data' = state data
        ∧ city data' = city data ∧ maker data' = maker data
        ∧ rto data' = rto data ∧ district data' = district data
        ∧ sales2022 data' = sales2022 data ∧ sales2023 data' = sales2023 data
        ∧ sales2024 data' = sales2024 data ∧ sales2025 data' = sales2025 data
        ∧ total data' = total data ∧ months data' = months data
        ∧ (∀ k', k' ≠ k →
             map_get k' (salesDataMap s') = map_get k' (salesDataMap s))
        ∧ currentId s' = currentId s
        ∧ filterOptionsCache s' = filterOptionsCache s
  | None => s' = s
  end.
Proof.
  intros s'. subst s'. unfold updateSalesDataCoordinates.
  destruct (map_get k (salesDataMap s)) as [data|] eqn:Hget; [|done].
  destruct (map_get_Some_split _ _ _ Hget) as (before & after & Hs & Hfresh).
  eexists before, after, _. cbn [salesDataMap currentId filterOptionsCache].
  split; [done|]. split; [done|].
  split; [rewrite Hs; by apply map_set_split|].
  split_and!; try done.
  intros k' Hne. rewrite map_get_set. by rewrite decide_False.
Qed.


(** ** Strings and numbers *)

Lemma trimStart_empty s : trimStart s = "" ↔ all_white s = true.
Proof.
  induction s as [|c s IH]; simpl; [done|].
  destruct (is_white c); simpl; [exact IH | done].
Qed.

Lemma all_white_trimStart s : all_white (trimStart s) = all_white s.
Proof.
  induction s as [|c s IH]; simpl; [done|].
  destruct (is_white c) eqn:Hc; simpl; [exact IH | by rewrite Hc].
Qed.

Lemma all_white_rev_app s acc :
  all_white (String.rev_app s acc) = all_white s && all_white acc.
Proof.
  revert acc. induction s as [|c s IH]; intros acc; simpl; [done|].
  rewrite IH. simpl. destruct (is_white c), (all_white s); done.
Qed.

Lemma rev_app_empty s acc : String.rev_app s acc = "" → s = "" ∧ acc = "".
Proof.
  revert acc. induction s as [|c s IH]; intros acc; simpl; [done|].
  intros H. by apply IH in H as [_ ?].
Qed.

(** A string trims to the empty string exactly when it is made of white
    space. *)
Lemma trim_empty s : trim s = "" ↔ all_white s = true.
Proof.
  unfold trim, String.rev. split.
  - intros H. apply rev_app_empty in H as [H _].
    apply trimStart_empty in H.
    rewrite all_white_rev_app, andb_true_r, all_white_trimStart in H. done.
  - intros H. apply trimStart_empty in H. rewrite H. reflexivity.
Qed.

Lemma string_of_uint_head d :
  d ≠ Decimal.Nil →
  ∃ c r, NilEmpty.string_of_uint d = String c r
         ∧ is_white c = false ∧ c ≠ "-"%char ∧ c ≠ "+"%char
         ∧ strip_radix (String c r) = (10%Z, String c r)
         ∧ ∃ v, digit 10 c = Some v.
Proof.
  intros Hd.
  destruct d as [|d|d|d|d|d|d|d|d|d|d]; [done|..]; simpl;
    eexists _, _; (split; [reflexivity|]); split_and!; try done;
    try (by eexists).
  destruct d; done.
Qed.

Lemma digits_pos d (acc : positive) :
  digits 10 (NilEmpty.string_of_uint d) (Some (Z.pos acc))
  = Some (Z.pos (Pos.of_uint_acc d acc)).
Proof.
  revert acc. induction d; intros acc; simpl; [done|..];
    rewrite <- IHd; do 2 f_equal;
    match goal with |- context [Z.of_nat ?n] =>
      let k := eval vm_compute in (Z.of_nat n) in
      change (Z.of_nat n) with k
    end; lia.
Qed.

Lemma digits_zero d :
  digits 10 (NilEmpty.string_of_uint d) (Some 0%Z)
  = Some (Z.of_N (Pos.of_uint d)).
Proof.
  induction d; simpl; try done; apply digits_pos.
Qed.

Lemma digits_start c r :
  is_Some (digit 10 c) →
  digits 10 (String c r) None = digits 10 (String c r) (Some 0%Z).
Proof. intros [v Hv]. simpl. by rewrite Hv. Qed.

Lemma parseInt_string_of_uint d :
  d ≠ Decimal.Nil →
  trimStart (NilEmpty.string_of_uint d) = NilEmpty.string_of_uint d
  ∧ strip_sign (NilEmpty.string_of_uint d) = (false, NilEmpty.string_of_uint d)
  ∧ strip_radix (NilEmpty.string_of_uint d) = (10%Z, NilEmpty.string_of_uint d)
  ∧ digits 10 (NilEmpty.string_of_uint d) None = Some (Z.of_N (Pos.of_uint d)).
Proof.
  intros Hd.
  destruct (string_of_uint_head d Hd) as (c & r & Hs & Hw & Hm & Hp & Hr & Hv).
  split_and!.
  - rewrite Hs. simpl. by rewrite Hw.
  - rewrite Hs. unfold strip_sign.
    destruct c as [[] [] [] [] [] [] [] []]; done.
  - by rewrite Hs.
  - rewrite <- digits_zero. rewrite Hs in *. by apply digits_start.
Qed.

(** Printing an integer and parsing it back gives the integer. *)
Lemma parseInt_toString_num (n : Z) : parseInt (VNum n) = Num n.
Proof.
  unfold parseInt, toString, parseInt_string.
  destruct n as [|p|p]; [reflexivity|..]; unfold Z.to_int, NilZero.string_of_int.
  - pose proof (Unsigned.to_uint_nonnil p) as Hnil.
    assert (NilZero.string_of_uint (Pos.to_uint p)
            = NilEmpty.string_of_uint (Pos.to_uint p)) as ->.
    { by destruct (Pos.to_uint p). }
    destruct (parseInt_string_of_uint _ Hnil) as (-> & -> & -> & ->).
    by rewrite DecimalPos.Unsigned.of_to.
  - pose proof (Unsigned.to_uint_nonnil p) as Hnil.
    assert (NilZero.string_of_uint (Pos.to_uint p)
            = NilEmpty.string_of_uint (Pos.to_uint p)) as ->.
    { by destruct (Pos.to_uint p). }
    destruct (parseInt_string_of_uint _ Hnil) as (_ & _ & Hr & Hd).
    cbn [trimStart is_white]. 
    change (is_white "-") with false. cbn [strip_sign].
    rewrite Hr, Hd. by rewrite DecimalPos.Unsigned.of_to.
Qed.

(** The decimal form of a number is never blank. *)
Lemma trim_toString_num (n : Z) : trim (toString (VNum n)) ≠ "".
Proof.
  rewrite trim_empty. unfold toString.
  destruct n as [|p|p]; [done|..]; unfold Z.to_int, NilZero.string_of_int.
  - pose proof (Unsigned.to_uint_nonnil p) as Hnil.
    assert (NilZero.string_of_uint (Pos.to_uint p)
            = NilEmpty.string_of_uint (Pos.to_uint p)) as ->.
    { by destruct (Pos.to_uint p). }
    destruct (string_of_uint_head _ Hnil) as (c & r & -> & Hw & _).
    simpl. by rewrite Hw.
  - done.
Qed.


(** ** The normalizer *)

Import Normalizer.








Lemma explicit_total_missing rowData :
  prop rowData "total" = Undefined → prop rowData "Total" = Undefined →
  explicit_total rowData = Num 0.
Proof. unfold explicit_total. intros -> ->. reflexivity. Qed.

(** What an accepted row went through. *)
Lemma normalize_row_Some S rowData r :
  normalize_row S rowData = Some r →
  probe rowData possibleMakerColumns ≠ ""
  ∧ probe rowData possibleRTOColumns ≠ ""
  ∧ truthy (state_of rowData) = true
  ∧ truthy (city_of rowData) = true
  ∧ year_included (year_of rowData) = true
  ∧ ∃ v, parse S (assemble rowData) = Some v
         ∧ r = with_months v (d_months (assemble rowData)).
Proof.
  unfold normalize_row, str_truthy.
  destruct (String.eqb_spec (probe rowData possibleMakerColumns) "");
    [done|].
  destruct (String.eqb_spec (probe rowData possibleRTOColumns) "");
    [done|].
  destruct (truthy (state_of rowData)); [|done].
  destruct (truthy (city_of rowData)); [|done].
  destruct (year_included (year_of rowData)); [|done].
  simpl. destruct (parse S (assemble rowData)) as [v|]; [|done].
  intros [= <-]. split_and!; try done. by exists v.
Qed.

Lemma year_included_spec year :
  year_included year = true ↔
  ∃ y, year = Num y ∧ y ∈ [2022; 2023; 2024; 2025]%Z.
Proof.
  destruct year as [|y]; simpl.
  - split; [done | by intros (? & ? & _)].
  - rewrite bool_decide_eq_true. split.
    + intros Hy. by exists y.
    + by intros (? & [= <-] & ?).
Qed.

(** *** Sums within the safe integers *)





(** *** What a cell is read as *)


Lemma or_present_number n b c : n ≠ 0%Z → or (or (VNum n) b) c = VNum n.
Proof.
  intros Hn. unfold or. simpl. destruct (Z.eqb_spec n 0); [done|]. simpl.
  by destruct (Z.eqb_spec n 0).
Qed.





(** The two rows of the specification: months [10, 20, 0, ..., 0] in year
    2023 give [sales2023 = 30] and [total = 30]; an explicit total of 99
    gives [total = 99]. *)
Example normalize_row_2023 :
  ∃ r, normalize_row typed_schema Sample.row_2023 = Some r
       ∧ i_sales2023 r = Some (Num 30) ∧ i_sales2022 r = Some (Num 0)
       ∧ i_sales2024 r = Some (Num 0) ∧ i_sales2025 r = Some (Num 0)
       ∧ i_total r = Some (Num 30).
Proof. eexists. split; [vm_compute; reflexivity|]. done. Qed.

Example normalize_row_2023_total_99 :
  ∃ r, normalize_row typed_schema Sample.row_2023_total_99 = Some r
       ∧ i_sales2023 r = Some (Num 30) ∧ i_total r = Some (Num 99).
Proof. eexists. split; [vm_compute; reflexivity|]. done. Qed.


Lemma probe_first_present rowData before col after :
  (∀ c, c ∈ before → prop rowData c = Undefined) →
  prop rowData col ≠ Undefined →
  probe rowData (before ++ col :: after) = trim (toString (prop rowData col)).
Proof.
  induction before as [|c before IH]; intros Hbefore Hcol; simpl.
  - by destruct (prop rowData col).
  - rewrite (Hbefore c) by left. apply IH; [|done].
    intros c' Hc'. apply Hbefore. by right.
Qed.

(** C10: when the maker (or RTO) of a row is resolved, the probe stops at
    the first column of the ordered spelling list that is present in the
    row: the result is that cell, trimmed, whatever the later columns hold;
    if it trims to the empty string the row is skipped. *)
Theorem probe_stops_at_first_present
    (S : Schema) (rowData : gmap string JsVal) (cols before after : list string)
    (col : string) :
  cols = possibleMakerColumns ∨ cols = possibleRTOColumns →
  cols = before ++ col :: after →
  (∀ c, c ∈ before → prop rowData c = Undefined) →
  prop rowData col ≠ Undefined →
  probe rowData cols = trim (toString (prop rowData col))
  ∧ (trim (toString (prop rowData col)) = "" →
     normalize_row S rowData = None).
Proof.
  intros Hcols -> Hbefore Hcol.
  pose proof (probe_first_present rowData before col after Hbefore Hcol)
    as Hprobe.
  split; [done|]. intros Hblank. rewrite Hblank in Hprobe.
  unfold normalize_row.
  destruct Hcols as [<-| <-]; rewrite Hprobe; cbn [str_truthy String.eqb negb orb];
    [done|].
  by rewrite orb_true_r.
Qed.

Lemma probe_stops_at_first_present_witness :
  (possibleMakerColumns = possibleMakerColumns
   ∨ possibleMakerColumns = possibleRTOColumns)
  ∧ possibleMakerColumns = [] ++ "Maker" :: tail possibleMakerColumns
  ∧ (∀ c, c ∈ [] → prop Sample.row_blank_maker c = Undefined)
  ∧ prop Sample.row_blank_maker "Maker" ≠ Undefined
  ∧ probe Sample.row_blank_maker possibleMakerColumns
      = trim (toString (prop Sample.row_blank_maker "Maker"))
  ∧ (trim (toString (prop Sample.row_blank_maker "Maker")) = "" →
     normalize_row typed_schema Sample.row_blank_maker = None).
Proof.
  assert (∀ c : string, c ∈ @nil string →
            prop Sample.row_blank_maker c = Undefined) as Hnil.
  { intros c Hc. by apply elem_of_nil in Hc. }
  assert (prop Sample.row_blank_maker "Maker" ≠ Undefined) as Hpresent.
  { vm_compute. discriminate. }
  split; [by left|]. split; [reflexivity|].
  split; [exact Hnil|]. split; [exact Hpresent|].
  exact (probe_stops_at_first_present typed_schema Sample.row_blank_maker
           possibleMakerColumns [] (tail possibleMakerColumns) "Maker"
           (or_introl eq_refl) eq_refl Hnil Hpresent).
Defined.

(** A blank [Maker] cell hides the [Manufacturer] cell; without the [Maker]
    cell the same row is accepted under its manufacturer. *)
Example blank_maker_skipped :
  normalize_row typed_schema Sample.row_blank_maker = None
  ∧ i_maker <$> normalize_row typed_schema Sample.row_manufacturer
    = Some (Some "Acme").
Proof. split; vm_compute; reflexivity. Qed.

Lemma or_default_cases a b d :
  or (or a b) d = d ∨ truthy (or (or a b) d) = true.
Proof.
  unfold or. destruct (truthy a) eqn:Ha; rewrite ?Ha; [by right|].
  destruct (truthy b) eqn:Hb; [by right | by left].
Qed.

(** For a cell that is not blank, being falsy and trimming to the empty
    string are the same. *)
Lemma truthy_trim v :
  v = VStr "" ∨ truthy v = true → ¬ blank v →
  truthy v = false ↔ trim (toString v) = "".
Proof.
  intros Hv Hblank. destruct Hv as [-> | Ht]; [done|].
  rewrite Ht. split; [done|]. intros Htrim. exfalso.
  destruct v as [|n|w|[]]; simpl in *; try done.
  - by apply (trim_toString_num n).
  - apply Hblank. exists w. split_and!; try done.
    intros ->. done.
Qed.

Lemma str_truthy_false s : str_truthy s = false ↔ s = "".
Proof.
  unfold str_truthy. destruct (String.eqb_spec s ""); simpl; split; done.
Qed.

(** The rows the normalizer skips, for cells that are not blank. *)
Lemma normalize_row_None S rowData :
  ¬ blank (state_of rowData) → ¬ blank (city_of rowData) →
  normalize_row S rowData = None ↔
    probe rowData possibleMakerColumns = ""
    ∨ probe rowData possibleRTOColumns = ""
    ∨ trim (toString (state_of rowData)) = ""
    ∨ trim (toString (city_of rowData)) = ""
    ∨ year_of rowData ∉ [Num 2022; Num 2023; Num 2024; Num 2025]
    ∨ parse S (assemble rowData) = None.
Proof.
  intros Hstate Hcity.
  rewrite <- (truthy_trim (state_of rowData))
    by (done || apply or_default_cases).
  rewrite <- (truthy_trim (city_of rowData))
    by (done || apply or_default_cases).
  rewrite <- !str_truthy_false.
  assert (year_of rowData ∉ [Num 2022; Num 2023; Num 2024; Num 2025]
          ↔ year_included (year_of rowData) = false) as ->.
  { destruct (year_included (year_of rowData)) eqn:Hy.
    - apply year_included_spec in Hy as (y & -> & Hin).
      split; [|done]. intros Hn. exfalso. apply Hn.
      by apply (list_elem_of_fmap_2 Num) in Hin.
    - split; [done|]. intros _ Hin.
      assert (year_included (year_of rowData) = true); [|congruence].
      apply year_included_spec.
      apply (list_elem_of_fmap_1 Num [2022; 2023; 2024; 2025]%Z) in Hin
        as (y & -> & Hin).
      by exists y. }
  unfold normalize_row.
  destruct (str_truthy (probe rowData possibleMakerColumns)); cbn [negb orb];
    [|split; [intros _; by left | done]].
  destruct (str_truthy (probe rowData possibleRTOColumns)); cbn [negb orb];
    [|split; [intros _; right; by left | done]].
  destruct (truthy (state_of rowData)); cbn [negb orb];
    [|split; [intros _; right; right; by left | done]].
  destruct (truthy (city_of rowData)); cbn [negb orb];
    [|split; [intros _; right; right; right; by left | done]].
  destruct (year_included (year_of rowData)); cbn [negb orb];
    [|split; [intros _; right; right; right; right; by left | done]].
  destruct (parse S (assemble rowData)).
  - split; [done|]. intros [|[|[|[|[|]]]]]; done.
  - split; [intros _; by do 5 right | done].
Qed.


(** ** The ingestion job *)

Import Job.

Lemma row_loop_omap S chunk salesDataArray :
  row_loop S chunk salesDataArray
  = salesDataArray ++ omap (normalize_row S) chunk.
Proof.
  unfold row_loop. revert salesDataArray.
  induction chunk as [|row chunk IH]; intros arr; simpl.
  - by rewrite app_nil_r.
  - rewrite IH. destruct (normalize_row S row); [|done].
    by rewrite <- app_assoc.
Qed.

Lemma poll_update_status uploadId f w :
  poll uploadId (update_status uploadId f w) = f <$> poll uploadId w.
Proof. unfold poll, update_status. simpl. apply lookup_alter_eq. Qed.

Lemma poll_update_status_ne uploadId uploadId' f w :
  uploadId ≠ uploadId' →
  poll uploadId' (update_status uploadId f w) = poll uploadId' w.
Proof. intros Hne. unfold poll, update_status. simpl. by apply lookup_alter_ne. Qed.

Lemma trace_ok_snoc uploadId w bound bound' trace w' :
  trace_ok uploadId w bound trace →
  storage w' = storage w →
  geocodingCache w' = geocodingCache w →
  (∀ other, other ≠ uploadId → poll other w' = poll other w) →
  is_Some (poll uploadId w') →
  bound ≤ progress uploadId w' → progress uploadId w' ≤ bound' →
  trace_ok uploadId w bound' (trace ++ [w']).
Proof.
  intros [Hall Hsorted] Hs Hc Ho Hp Hlo Hhi. split.
  - apply Forall_app. split.
    + eapply Forall_impl; [exact Hall|]. simpl.
      intros w'' (? & ? & ? & ? & ?). split_and!; try done. lia.
    + by apply Forall_singleton.
  - rewrite fmap_app. apply StronglySorted_app_2; [|done|].
    + intros x1 x2 Hx1 Hx2. simpl in Hx2.
      apply list_elem_of_singleton in Hx2 as ->.
      apply list_elem_of_fmap in Hx1 as (w'' & -> & Hin).
      rewrite Forall_forall in Hall. apply Hall in Hin. lia.
    + simpl. repeat constructor.
Qed.

(** What the chunk loop leaves: every row has been through the row loop,
    the job's entry counts all rows as processed, nothing else has
    changed. *)
Lemma chunk_loop_spec S now jsonData uploadId w :
  let n := length jsonData in
  let chunkSize := Nat.min 2000 (Nat.max 500 (n / 20)) in
  let w0 :=
    set_status uploadId
      {| status := processing; totalRows := 0; processedRows := 0;
         insertedRecords := 0; error_message := None; startTime := now |} w in
  let w1 :=
    update_status uploadId
      (λ st, {| status := status st; totalRows := n;
                processedRows := processedRows st;
                insertedRecords := insertedRecords st;
                error_message := error_message st;
                startTime := startTime st |}) w0 in
  ∃ w2 trace,
    for_slices chunkSize jsonData (chunk_step S uploadId chunkSize n)
      ([], w1, [w0; w1])
    = (omap (normalize_row S) jsonData, w2, trace)
    ∧ trace_ok uploadId w n trace
    ∧ last trace = Some w2
    ∧ poll uploadId w2
      = Some {| status := processing; totalRows := n; processedRows := n;
                insertedRecords := 0; error_message := None;
                startTime := now |}.
Proof.
  intros n chunkSize w0 w1.
  assert (poll uploadId w0
          = Some {| status := processing; totalRows := 0; processedRows := 0;
                    insertedRecords := 0; error_message := None;
                    startTime := now |}) as Hp0.
  { unfold poll, w0, set_status. simpl. apply lookup_insert_eq. }
  assert (∀ other, other ≠ uploadId → poll other w0 = poll other w) as Ho0.
  { intros other Hne. unfold poll, w0, set_status. simpl.
    by apply lookup_insert_ne. }
  assert (poll uploadId w1
          = Some {| status := processing; totalRows := n; processedRows := 0;
                    insertedRecords := 0; error_message := None;
                    startTime := now |}) as Hp1.
  { unfold w1. rewrite poll_update_status, Hp0. done. }
  assert (∀ other, other ≠ uploadId → poll other w1 = poll other w) as Ho1.
  { intros other Hne. unfold w1. rewrite poll_update_status_ne by done.
    by apply Ho0. }
  destruct (for_slices_invariant chunkSize jsonData
              (chunk_step S uploadId chunkSize n) ltac:(lia)
              (λ i acc,
                 let '(arr, w', trace) := acc in
                 arr = omap (normalize_row S) (take i jsonData)
                 ∧ trace_ok uploadId w (Nat.min i n) trace
                 ∧ last trace = Some w'
                 ∧ poll uploadId w'
                   = Some {| status := processing; totalRows := n;
                             processedRows := Nat.min i n;
                             insertedRecords := 0; error_message := None;
                             startTime := now |})
              ([], w1, [w0; w1])) as (j & Hj & Hinv).
  - intros i [[arr w'] trace] Hi (Harr & Htrace & Hlast & Hpoll).
    unfold chunk_step. rewrite row_loop_omap.
    set (w'' := update_status uploadId _ w').
    assert (poll uploadId w''
            = Some {| status := processing; totalRows := n;
                      processedRows := Nat.min (i + chunkSize) n;
                      insertedRecords := 0; error_message := None;
                      startTime := now |}) as Hp''.
    { unfold w''. rewrite poll_update_status, Hpoll. done. }
    assert (In w' trace) as Hin.
    { apply list_elem_of_In, last_Some_elem_of. done. }
    destruct Htrace as [Hall Hsorted].
    pose proof (proj1 (List.Forall_forall _ _) Hall w' Hin)
      as (Hs' & Hc' & Ho' & _ & _).
    split_and!.
    + rewrite take_add_slice, omap_app, Harr. done.
    + eapply trace_ok_snoc; [by split|..].
      * done.
      * done.
      * intros other Hne. unfold w''.
        rewrite poll_update_status_ne by done. by apply Ho'.
      * by rewrite Hp''.
      * unfold progress. rewrite Hp''. simpl. lia.
      * unfold progress. rewrite Hp''. simpl. lia.
    + apply last_snoc.
    + done.
  - split_and!; try done. split.
    + repeat constructor; try done.
      * unfold progress. by rewrite Hp0.
      * unfold progress. rewrite Hp1. simpl. lia.
    + unfold progress. simpl. rewrite Hp0, Hp1. simpl.
      repeat constructor.
  - destruct (for_slices _ _ _ _) as [[arr w2] trace].
    destruct Hinv as (Harr & Htrace & Hlast & Hpoll).
    exists w2, trace. rewrite take_ge in Harr by done.
    rewrite Nat.min_r in Htrace, Hpoll by done.
    rewrite Harr. done.
Qed.


Lemma progress_polls uploadId trace :
  Forall (λ w', is_Some (poll uploadId w')) trace →
  processedRows <$> omap (poll uploadId) trace = progress uploadId <$> trace.
Proof.
  induction 1 as [|w' trace [st Hst] _ IH]; [done|].
  cbn [omap list_omap]. rewrite Hst. cbn [fmap list_fmap].
  f_equal; [by unfold progress; rewrite Hst | exact IH].
Qed.

(** The job on decoded rows: the trace of the chunk loop, then either the
    error entry, or the clear, the batch insert and the completed entry. *)
Lemma processExcelInBackground_rows S now jsonData uploadId w :
  let n := length jsonData in
  let arr := omap (normalize_row S) jsonData in
  ∃ w2 trace,
    trace_ok uploadId w n trace
    ∧ last trace = Some w2
    ∧ poll uploadId w2
      = Some {| status := processing; totalRows := n; processedRows := n;
                insertedRecords := 0; error_message := None;
                startTime := now |}
    ∧ processExcelInBackground S now (Rows jsonData) uploadId w
      = if decide (arr = [])
        then
          trace ++
          [update_status uploadId
             (λ st, {| status := error; totalRows := totalRows st;
                       processedRows := processedRows st;
                       insertedRecords := insertedRecords st;
                       error_message := Some no_valid_data;
                       startTime := startTime st |}) w2]
        else
          let w3 := set_storage (clearSalesData (storage w2)) w2 in
          let r := createMultipleSalesData arr (storage w3) in
          let w4 := set_storage r.2 w3 in
          trace ++
          [w3; w4;
           update_status uploadId
             (λ st, {| status := completed; totalRows := totalRows st;
                       processedRows := n;
                       insertedRecords := length r.1;
                       error_message := error_message st;
                       startTime := startTime st |}) w4].
Proof.
  intros n arr.
  destruct (chunk_loop_spec S now jsonData uploadId w)
    as (w2 & trace & Hloop & Htrace & Hlast & Hpoll).
  exists w2, trace. split_and!; try done.
  unfold processExcelInBackground. cbv zeta in Hloop |- *. rewrite Hloop.
  subst arr.
  destruct (omap (normalize_row S) jsonData) as [|x arr'] eqn:Harr;
    [done|].
  rewrite decide_False by done. cbn [length Nat.eqb].
  by destruct (createMultipleSalesData _ _).
Qed.

Lemma last_trace_elem uploadId w n trace w2 :
  trace_ok uploadId w n trace → last trace = Some w2 →
  storage w2 = storage w ∧ geocodingCache w2 = geocodingCache w
  ∧ (∀ other, other ≠ uploadId → poll other w2 = poll other w).
Proof.
  intros [Hall _] Hlast. apply last_Some_elem_of in Hlast.
  rewrite Forall_forall in Hall. apply Hall in Hlast.
  destruct Hlast as (? & ? & ? & _). done.
Qed.

(** C6: for every upload whose normalization yields no valid record (every
    row is skipped), the job ends in the error state with the message
    "No valid data found in the Excel file. Please check the format and
    required columns.", and the store is the same in every world of the
    job, the last one included: neither the clear nor the batch insert is
    performed. *)
Theorem no_valid_rows_error_and_store_unchanged
    (S : Schema) (now : Z) (jsonData : list (gmap string JsVal))
    (uploadId : string) (w : World) :
  Forall (λ row, normalize_row S row = None) jsonData →
  let trace := processExcelInBackground S now (Rows jsonData) uploadId w in
  Forall (λ w', storage w' = storage w) trace
  ∧ ∃ final st,
      last trace = Some final
      ∧ storage final = storage w
      ∧ geocodingCache final = geocodingCache w
      ∧ (∀ other, other ≠ uploadId → poll other final = poll other w)
      ∧ poll uploadId final = Some st
      ∧ status st = error
      ∧ error_message st
        = Some "No valid data found in the Excel file. Please check the format and required columns."
      ∧ totalRows st = length jsonData
      ∧ insertedRecords st = 0.
Proof.
  intros Hskip trace.
  assert (omap (normalize_row S) jsonData = []) as Harr.
  { induction Hskip as [|row rows Hrow _ IH]; [done|].
    simpl. by rewrite Hrow. }
  destruct (processExcelInBackground_rows S now jsonData uploadId w)
    as (w2 & tr & Htr & Hlast & Hpoll & Hrun).
  rewrite Harr in Hrun. rewrite decide_True in Hrun by done.
  subst trace. rewrite Hrun.
  destruct (last_trace_elem _ _ _ _ _ Htr Hlast) as (Hs2 & Hc2 & Ho2).
  split.
  - apply Forall_app. split.
    + destruct Htr as [Hall _]. eapply Forall_impl; [exact Hall|].
      by intros w' (? & _).
    + by apply Forall_singleton.
  - eexists _, _. rewrite last_snoc. split; [done|].
    split; [done|]. split; [done|]. split.
    { intros other Hne. rewrite poll_update_status_ne by done. by apply Ho2. }
    rewrite poll_update_status, Hpoll. done.
Qed.

Lemma no_valid_rows_error_and_store_unchanged_witness :
  Forall (λ row, normalize_row typed_schema row = None)
    [Sample.row_2021; Sample.row_blank_maker]
  ∧ let w := {| storage := Sample.one_record; uploadStatus := ∅;
                geocodingCache := ∅ |} in
    let trace :=
      processExcelInBackground typed_schema 0
        (Rows [Sample.row_2021; Sample.row_blank_maker]) "upload_1" w in
    Forall (λ w', storage w' = storage w) trace
    ∧ ∃ final st,
        last trace = Some final
        ∧ storage final = storage w
        ∧ geocodingCache final = geocodingCache w
        ∧ (∀ other, other ≠ "upload_1" → poll other final = poll other w)
        ∧ poll "upload_1" final = Some st
        ∧ status st = error
        ∧ error_message st
        = Some "No valid data found in the Excel file. Please check the format and required columns."
        ∧ totalRows st = length [Sample.row_2021; Sample.row_blank_maker]
        ∧ insertedRecords st = 0.
Proof.
  assert (Forall (λ row, normalize_row typed_schema row = None)
            [Sample.row_2021; Sample.row_blank_maker]) as Hskip.
  { repeat constructor; vm_compute; reflexivity. }
  split; [exact Hskip|].
  exact (no_valid_rows_error_and_store_unchanged typed_schema 0
           [Sample.row_2021; Sample.row_blank_maker] "upload_1"
           {| storage := Sample.one_record; uploadStatus := ∅;
              geocodingCache := ∅ |} Hskip).
Defined.

(** C8: for every ingestion job, whatever the workbook decodes to, every
    world of the job holds an entry for the job id, and the [processedRows]
    that successive polls of that id read never decreases, from the creation
    of the entry through every chunk update to the completed or error
    entry. *)
Theorem processedRows_monotone
    (S : Schema) (now : Z) (decoded : Decoded) (uploadId : string) (w : World) :
  let trace := processExcelInBackground S now decoded uploadId w in
  Forall (λ w', is_Some (poll uploadId w')) trace
  ∧ StronglySorted le (processedRows <$> omap (poll uploadId) trace).
Proof.
  intros trace.
  assert (Forall (λ w', is_Some (poll uploadId w')) trace
          ∧ StronglySorted le (progress uploadId <$> trace)) as [Hsome Hsorted];
    [|split; [done | by rewrite progress_polls]].
  subst trace. destruct decoded as [jsonData|message].
  - destruct (processExcelInBackground_rows S now jsonData uploadId w)
      as (w2 & tr & Htr & Hlast & Hpoll & ->).
    assert (Forall (λ w', is_Some (poll uploadId w')) tr) as Htr_some.
    { destruct Htr as [Hall _]. eapply Forall_impl; [exact Hall|].
      by intros w' (_ & _ & _ & ? & _). }
    assert (∀ x, x ∈ progress uploadId <$> tr → x ≤ length jsonData) as Hle.
    { intros x (w' & -> & Hin)%list_elem_of_fmap.
      destruct Htr as [Hall _]. rewrite Forall_forall in Hall.
      by apply Hall in Hin as (_ & _ & _ & _ & ?). }
    destruct (decide (omap (normalize_row S) jsonData = [])) as [Hnil|Hne].
    + split.
      * apply Forall_app. split; [done|]. apply Forall_singleton.
        rewrite poll_update_status, Hpoll. by eexists.
      * rewrite fmap_app. apply StronglySorted_app_2.
        -- intros x1 x2 Hx1 Hx2. simpl in Hx2.
           apply list_elem_of_singleton in Hx2 as ->.
           unfold progress. rewrite poll_update_status, Hpoll. simpl.
           by apply Hle.
        -- by destruct Htr.
        -- simpl. repeat constructor.
    + cbv zeta.
      set (w3 := set_storage (clearSalesData (storage w2)) w2).
      set (r := createMultipleSalesData _ (storage w3)).
      set (w4 := set_storage r.2 w3).
      assert (poll uploadId w3 = poll uploadId w2) as Hp3 by done.
      assert (poll uploadId w4 = poll uploadId w2) as Hp4 by done.
      split.
      * apply Forall_app. split; [done|].
        repeat apply Forall_cons_2; [..|apply Forall_nil_2].
        -- rewrite Hp3, Hpoll. by eexists.
        -- rewrite Hp4, Hpoll. by eexists.
        -- rewrite poll_update_status, Hp4, Hpoll. by eexists.
      * rewrite fmap_app. apply StronglySorted_app_2.
        -- intros x1 x2 Hx1 Hx2. apply Hle in Hx1.
           simpl in Hx2. unfold progress in Hx2.
           rewrite poll_update_status, Hp3, Hp4, Hpoll in Hx2. simpl in Hx2.
           rewrite !elem_of_cons, elem_of_nil in Hx2. lia.
        -- by destruct Htr.
        -- simpl. unfold progress.
           rewrite poll_update_status, Hp3, Hp4, Hpoll. simpl.
           repeat constructor.
  - unfold processExcelInBackground.
    set (w0 := set_status _ _ _).
    assert (poll uploadId w0
            = Some {| status := processing; totalRows := 0;
                      processedRows := 0; insertedRecords := 0;
                      error_message := None; startTime := now |}) as Hp0.
    { unfold poll, w0, set_status. simpl. apply lookup_insert_eq. }
    split.
    + repeat apply Forall_cons_2; [..|apply Forall_nil_2].
      * rewrite Hp0. by eexists.
      * rewrite poll_update_status, Hp0. by eexists.
    + simpl. unfold progress. rewrite poll_update_status, Hp0. simpl.
      repeat constructor.
Qed.


Lemma store_ok_empty : store_ok Storage.empty.
Proof. split; [apply NoDup_nil_2 | apply Forall_nil_2]. Qed.

(** The store the job leaves: untouched when no row is accepted, and
    otherwise the accepted rows inserted in a store that has been cleared. *)
Lemma store_after_spec S now jsonData uploadId w :
  let accepted := omap (normalize_row S) jsonData in
  store_after S now jsonData uploadId w
  = Some (if decide (accepted = []) then storage w
          else (createMultipleSalesData accepted Storage.empty).2).
Proof.
  intros accepted. unfold store_after.
  destruct (processExcelInBackground_rows S now jsonData uploadId w)
    as (w2 & tr & Htr & Hlast & Hpoll & ->).
  destruct (last_trace_elem _ _ _ _ _ Htr Hlast) as (Hs2 & _ & _).
  fold accepted. destruct (decide (accepted = [])) as [Hnil|Hne].
  - rewrite last_snoc. simpl. by rewrite Hs2.
  - cbv zeta.
    match goal with |- context [tr ++ [?a; ?b; ?c]] =>
      change (tr ++ [a; b; c]) with (tr ++ [a; b] ++ [c])
    end.
    rewrite (assoc_L (++)), last_snoc. done.
Qed.

(** C4 (as amended): for every input row whose state and city are not
    blank cells (a text that is not empty and holds white space only), the
    normalizer skips the row, raising no error and producing no record,
    exactly when maker, rto, state or city is empty after trimming, or the
    year is not one of 2022, 2023, 2024, 2025, or the assembled record fails
    the schema validation; a skipped row changes nothing in what the job
    stores, and the ids of the stored records are 1, 2, ..., one per
    accepted row in row order. *)
Theorem skipped_rows_and_dense_ids
    (S : Schema) (rowData : gmap string JsVal) (now : Z) (uploadId : string)
    (w : World) (before after : list (gmap string JsVal)) :
  ¬ blank (state_of rowData) → ¬ blank (city_of rowData) →
  (normalize_row S rowData = None ↔
     probe rowData possibleMakerColumns = ""
     ∨ probe rowData possibleRTOColumns = ""
     ∨ trim (toString (state_of rowData)) = ""
     ∨ trim (toString (city_of rowData)) = ""
     ∨ year_of rowData ∉ [Num 2022; Num 2023; Num 2024; Num 2025]
     ∨ parse S (assemble rowData) = None)
  ∧ (normalize_row S rowData = None →
     store_after S now (before ++ rowData :: after) uploadId w
     = store_after S now (before ++ after) uploadId w)
  ∧ (let accepted := omap (normalize_row S) (before ++ rowData :: after) in
     accepted ≠ [] →
     ∃ s, store_after S now (before ++ rowData :: after) uploadId w = Some s
          ∧ getAllSalesData s
            = (array_map createSalesData accepted Storage.empty).1
          ∧ id <$> getAllSalesData s
            = Z.of_nat <$> seq 1 (length accepted)).
Proof.
  intros Hstate Hcity. split; [by apply normalize_row_None|]. split.
  - intros Hskip. rewrite !store_after_spec. cbv zeta.
    rewrite !omap_app. simpl. by rewrite Hskip.
  - intros accepted Hne. rewrite store_after_spec. fold accepted.
    rewrite decide_False by done. eexists. split; [done|].
    rewrite createMultipleSalesData_unchunked.
    destruct (array_map_createSalesData accepted Storage.empty store_ok_empty)
      as (Hids & Hmap & _).
    assert (getAllSalesData (array_map createSalesData accepted Storage.empty).2
            = (array_map createSalesData accepted Storage.empty).1) as Hall.
    { unfold getAllSalesData, map_values. rewrite Hmap. simpl.
      rewrite <- list_fmap_compose. apply list_fmap_id. }
    split; [done|]. rewrite Hall, Hids. simpl.
    rewrite <- fmap_S_seq, <- list_fmap_compose. apply list_fmap_ext.
    intros ? i _. simpl. lia.
Qed.

Lemma skipped_rows_and_dense_ids_witness :
  ¬ blank (state_of Sample.row_2021) ∧ ¬ blank (city_of Sample.row_2021)
  ∧ let S := typed_schema in
    let rowData := Sample.row_2021 in
    let now := 0%Z in
    let uploadId := "upload_1" in
    let w := {| storage := Sample.one_record; uploadStatus := ∅;
                geocodingCache := ∅ |} in
    let before := [Sample.row_2023] in
    let after := [Sample.row_2023_total_99] in
    (normalize_row S rowData = None ↔
       probe rowData possibleMakerColumns = ""
       ∨ probe rowData possibleRTOColumns = ""
       ∨ trim (toString (state_of rowData)) = ""
       ∨ trim (toString (city_of rowData)) = ""
       ∨ year_of rowData ∉ [Num 2022; Num 2023; Num 2024; Num 2025]
       ∨ parse S (assemble rowData) = None)
    ∧ (normalize_row S rowData = None →
       store_after S now (before ++ rowData :: after) uploadId w
       = store_after S now (before ++ after) uploadId w)
    ∧ (let accepted := omap (normalize_row S) (before ++ rowData :: after) in
       accepted ≠ [] →
       ∃ s, store_after S now (before ++ rowData :: after) uploadId w = Some s
            ∧ getAllSalesData s
              = (array_map createSalesData accepted Storage.empty).1
            ∧ id <$> getAllSalesData s
              = Z.of_nat <$> seq 1 (length accepted)).
Proof.
  assert (¬ blank (state_of Sample.row_2021)) as Hstate.
  { intros (text & Hv & _ & Htrim). vm_compute in Hv.
    injection Hv as <-. vm_compute in Htrim. discriminate Htrim. }
  assert (¬ blank (city_of Sample.row_2021)) as Hcity.
  { intros (text & Hv & _ & Htrim). vm_compute in Hv.
    injection Hv as <-. vm_compute in Htrim. discriminate Htrim. }
  split; [exact Hstate|]. split; [exact Hcity|].
  exact (skipped_rows_and_dense_ids typed_schema Sample.row_2021 0 "upload_1"
           {| storage := Sample.one_record; uploadStatus := ∅;
              geocodingCache := ∅ |}
           [Sample.row_2023] [Sample.row_2023_total_99] Hstate Hcity).
Defined.

(** A job over an accepted row, a row of 2021 and another accepted row
    stores two records, under the ids 1 and 2. *)
Example job_ids_dense :
  (λ s, id <$> getAllSalesData s) <$>
    store_after typed_schema 0
      [Sample.row_2023; Sample.row_2021; Sample.row_2023_total_99]
      "upload_1"
      {| storage := Sample.one_record; uploadStatus := ∅;
         geocodingCache := ∅ |}
  = Some [1; 2]%Z.
Proof. vm_compute. reflexivity. Qed.

(** C4 as stated fails: a row whose state is a number cell has no empty
    field and a year of the list, and is skipped all the same, by the
    validation of the schema. *)
Lemma skip_exactly_counterexample :
  ¬ (∀ (S : Schema) (rowData : gmap string JsVal),
       normalize_row S rowData = None ↔
         probe rowData possibleMakerColumns = ""
         ∨ probe rowData possibleRTOColumns = ""
         ∨ trim (toString (state_of rowData)) = ""
         ∨ trim (toString (city_of rowData)) = ""
         ∨ year_of rowData ∉ [Num 2022; Num 2023; Num 2024; Num 2025]).
Proof.
  intros Hclaim.
  destruct (proj1 (Hclaim typed_schema Sample.row_numeric_state))
    as [H|[H|[H|[H|H]]]].
  - vm_compute. reflexivity.
  - vm_compute in H. discriminate H.
  - vm_compute in H. discriminate H.
  - vm_compute in H. discriminate H.
  - vm_compute in H. discriminate H.
  - apply H.
    replace (year_of Sample.row_numeric_state) with (Num 2023)
      by (vm_compute; reflexivity).
    apply elem_of_cons. right. apply elem_of_cons. by left.
Qed.

(** A state cell that holds one space passes the check of the row loop;
    under [typed_schema] the row is stored with that state. *)
Example blank_state_row :
  i_state <$> normalize_row typed_schema Sample.row_blank_state = Some " ".
Proof. vm_compute. reflexivity. Qed.


(** ** Geocode enrichment *)

Import Geocode.

Lemma update_get k lat lon s k' :
  map_get k' (salesDataMap (updateSalesDataCoordinates k lat lon s))
  = if decide (k' = k)
    then (λ data, set_coordinates data lat lon) <$> map_get k (salesDataMap s)
    else map_get k' (salesDataMap s).
Proof.
  unfold updateSalesDataCoordinates.
  destruct (map_get k (salesDataMap s)) as [data|] eqn:Hget; simpl.
  - rewrite map_get_set. by case_decide.
  - case_decide; [by subst|done].
Qed.

Lemma update_keys k lat lon s :
  map_keys (salesDataMap (updateSalesDataCoordinates k lat lon s))
  = map_keys (salesDataMap s).
Proof.
  unfold updateSalesDataCoordinates.
  destruct (map_get k (salesDataMap s)) as [data|] eqn:Hget; simpl; [|done].
  apply map_keys_set. by rewrite Hget.
Qed.

Lemma update_store_ok k lat lon s :
  store_ok s → store_ok (updateSalesDataCoordinates k lat lon s).
Proof.
  intros [Hnd Hall]. split; [by rewrite update_keys|].
  unfold updateSalesDataCoordinates.
  destruct (map_get k (salesDataMap s)) as [data|] eqn:Hget; [|done].
  destruct (map_get_Some_split _ _ _ Hget) as (before & after & Hs & Hfresh).
  simpl. rewrite Hs in *. rewrite map_set_split by done.
  apply Forall_app in Hall as [Hb Ha]. apply Forall_cons in Ha as [Hk Ha].
  apply Forall_app. split; [done|]. by apply Forall_cons.
Qed.

Lemma coordinates_update k lat lon s :
  is_Some (map_get k (salesDataMap s)) →
  coordinates k (updateSalesDataCoordinates k lat lon s) = Some (lat, lon).
Proof.
  intros [data Hget]. unfold coordinates.
  rewrite update_get, decide_True, Hget by done. done.
Qed.

Lemma map_get_elem {V} (m : list (Z * V)) k v :
  NoDup (map_keys m) → (k, v) ∈ m → map_get k m = Some v.
Proof.
  unfold map_keys. induction m as [|[k' v'] m IH]; simpl.
  - by intros _ ?%elem_of_nil.
  - intros [Hnot Hnd]%NoDup_cons [Heq|Hin]%elem_of_cons.
    + injection Heq as -> ->. by rewrite decide_True.
    + rewrite decide_False; [by apply IH|].
      intros ->. apply Hnot. apply list_elem_of_fmap. by exists (k', v).
Qed.

(** A stored record is found under its own id. *)
Lemma stored_record_get s item :
  store_ok s → item ∈ getAllSalesData s →
  map_get (id item) (salesDataMap s) = Some item.
Proof.
  intros [Hnd Hall] Hin. unfold getAllSalesData, map_values in Hin.
  apply list_elem_of_fmap in Hin as ([k r] & -> & Hin). simpl.
  rewrite Forall_forall in Hall. destruct (Hall _ Hin) as [Hid _].
  simpl in Hid. rewrite Hid. by apply map_get_elem.
Qed.

Lemma stored_ids_NoDup s :
  store_ok s → NoDup (id <$> getAllSalesData s).
Proof.
  intros [Hnd Hall]. unfold getAllSalesData, map_values, map_keys in *.
  rewrite <- list_fmap_compose.
  erewrite list_fmap_ext; [exact Hnd|].
  intros i [k r] Hi. simpl. rewrite Forall_forall in Hall.
  apply list_elem_of_lookup_2 in Hi. by destruct (Hall _ Hi).
Qed.

(** *** The two halves of a batch *)

(** The callbacks up to their first suspension: the cache is only read, a
    record whose key is cached is updated, any other record sends one
    lookup, and no other record is touched. *)
Lemma start_items_spec cache batch s sent :
  ∃ s1 new,
    fold_left start_item batch (s, cache, sent) = (s1, cache, sent ++ new)
    ∧ Forall (λ l, l_item l ∈ batch
                   ∧ l_cacheKey l = cacheKey_of (l_item l)
                   ∧ cache !! l_cacheKey l = None) new
    ∧ map_keys (salesDataMap s1) = map_keys (salesDataMap s)
    ∧ (store_ok s → store_ok s1)
    ∧ (∀ k, (∀ item, item ∈ batch → is_Some (cache !! cacheKey_of item) →
                     id item ≠ k) →
            map_get k (salesDataMap s1) = map_get k (salesDataMap s))
    ∧ (NoDup (id <$> batch) →
       ∀ item c, item ∈ batch → cache !! cacheKey_of item = Some c →
                 is_Some (map_get (id item) (salesDataMap s)) →
                 coordinates (id item) s1 = Some c).
Proof.
  revert s sent. induction batch as [|item batch IH]; intros s sent.
  - exists s, []. rewrite app_nil_r. split_and!; try done.
    intros _ item c Hin. by apply elem_of_nil in Hin.
  - cbn [fold_left]. unfold start_item at 2.
    destruct (cache !! cacheKey_of item) as [coords|] eqn:Hkey.
    + destruct (IH (updateSalesDataCoordinates (id item) coords.1 coords.2 s)
                  sent) as (s1 & new & -> & Hnew & Hkeys & Hok & Hframe & Hhit).
      exists s1, new. split_and!; try done.
      * eapply Forall_impl; [exact Hnew|]. simpl.
        intros l (? & ? & ?). split_and!; try done. by right.
      * by rewrite Hkeys, update_keys.
      * intros Hs. by apply Hok, update_store_ok.
      * intros k Hk. rewrite Hframe.
        -- rewrite update_get, decide_False; [done|].
           intros ->. eapply Hk; [by left | by rewrite Hkey | done].
        -- intros item' Hin. apply Hk. by right.
      * intros [Hnot Hnd]%NoDup_cons item' c [->|Hin]%elem_of_cons Hc Hsome.
        -- unfold coordinates. rewrite Hframe.
           ++ fold (coordinates (id item)
                      (updateSalesDataCoordinates (id item) coords.1 coords.2 s)).
              rewrite coordinates_update by done.
              rewrite Hkey in Hc. injection Hc as <-. by destruct coords.
           ++ intros item' Hin _ Heq. apply Hnot.
              apply list_elem_of_fmap. by exists item'.
        -- apply Hhit; try done.
           rewrite update_get. destruct Hsome as [x Hsome].
           case_decide as Heq; [rewrite <- Heq, Hsome | rewrite Hsome];
             by eexists.
    + destruct (IH s (sent ++ [lookup_of item]))
        as (s1 & new & -> & Hnew & Hkeys & Hok & Hframe & Hhit).
      exists s1, (lookup_of item :: new).
      rewrite <- (assoc_L (++)). split_and!; try done.
      * apply Forall_cons. split.
        -- split_and!; [by left | done | done].
        -- eapply Forall_impl; [exact Hnew|]. simpl.
           intros l (? & ? & ?). split_and!; try done. by right.
      * intros k Hk. apply Hframe. intros item' Hin. apply Hk. by right.
      * intros [Hnot Hnd]%NoDup_cons item' c [->|Hin]%elem_of_cons Hc Hsome.
        -- congruence.
        -- by apply Hhit.
Qed.


Lemma NoDup_fmap_eq {A B} (f : A → B) (l : list A) x y :
  NoDup (f <$> l) → x ∈ l → y ∈ l → f x = f y → x = y.
Proof.
  induction l as [|a l IH]; simpl; [by intros _ ?%elem_of_nil|].
  intros [Hnot Hnd]%NoDup_cons [->|Hx]%elem_of_cons [->|Hy]%elem_of_cons Heq;
    try done.
  - exfalso. apply Hnot. rewrite Heq. by apply list_elem_of_fmap_2.
  - exfalso. apply Hnot. rewrite <- Heq. by apply list_elem_of_fmap_2.
  - by apply IH.
Qed.

(** The answers, in any order: only the records of the lookups are
    touched, only their keys are written in the cache, which never loses a
    key, and a lookup that succeeds leaves its key cached. *)
Lemma finish_lookups_spec e ls s cache :
  ∃ s2 cache2,
    fold_left (finish_lookup e) ls (s, cache) = (s2, cache2)
    ∧ map_keys (salesDataMap s2) = map_keys (salesDataMap s)
    ∧ (store_ok s → store_ok s2)
    ∧ (∀ k, (∀ l, l ∈ ls → id (l_item l) ≠ k) →
            map_get k (salesDataMap s2) = map_get k (salesDataMap s))
    ∧ (∀ key, (∀ l, l ∈ ls → l_cacheKey l ≠ key) →
              cache2 !! key = cache !! key)
    ∧ (∀ key, is_Some (cache !! key) → is_Some (cache2 !! key))
    ∧ (∀ l, l ∈ ls → is_Some (respond e (id (l_item l)) (l_address l)) →
            is_Some (cache2 !! l_cacheKey l)).
Proof.
  revert s cache. induction ls as [|l ls IH]; intros s cache.
  - exists s, cache. split_and!; try done. by intros l ?%elem_of_nil.
  - cbn [fold_left]. unfold finish_lookup at 2.
    destruct (respond e (id (l_item l)) (l_address l)) as [coords|] eqn:Hr.
    + destruct (IH (updateSalesDataCoordinates (id (l_item l))
                      coords.1 coords.2 s) (<[l_cacheKey l := coords]> cache))
        as (s2 & cache2 & -> & Hkeys & Hok & Hframe & Hcache & Hgrow & Hdone).
      exists s2, cache2. split_and!; try done.
      * by rewrite Hkeys, update_keys.
      * intros Hs. by apply Hok, update_store_ok.
      * intros k Hk. rewrite Hframe.
        -- rewrite update_get, decide_False; [done|].
           intros Heq. by eapply Hk; [left|].
        -- intros l' Hin. apply Hk. by right.
      * intros key Hkey. rewrite Hcache.
        -- apply lookup_insert_ne. apply Hkey. by left.
        -- intros l' Hin. apply Hkey. by right.
      * intros key Hsome. apply Hgrow.
        rewrite lookup_insert. case_decide; [by eexists | done].
      * intros l' [->|Hin]%elem_of_cons Hsome; [|by apply Hdone].
        apply Hgrow. rewrite lookup_insert_eq. by eexists.
    + destruct (IH s cache)
        as (s2 & cache2 & -> & Hkeys & Hok & Hframe & Hcache & Hgrow & Hdone).
      exists s2, cache2. split_and!; try done.
      * intros k Hk. apply Hframe. intros l' Hin. apply Hk. by right.
      * intros key Hkey. apply Hcache. intros l' Hin. apply Hkey. by right.
      * intros l' [->|Hin]%elem_of_cons Hsome; [|by apply Hdone].
        rewrite Hr in Hsome. by destruct Hsome.
Qed.

(** One batch. *)
Lemma batch_step_spec e batch s cache log :
  ∃ s2 cache2 new,
    batch_step e batch (s, cache, log) = (s2, cache2, log ++ new)
    ∧ Forall (λ l, l_item l ∈ batch
                   ∧ l_cacheKey l = cacheKey_of (l_item l)
                   ∧ cache !! l_cacheKey l = None) new
    ∧ map_keys (salesDataMap s2) = map_keys (salesDataMap s)
    ∧ (store_ok s → store_ok s2)
    ∧ (∀ k, k ∉ id <$> batch →
            map_get k (salesDataMap s2) = map_get k (salesDataMap s))
    ∧ (∀ key, is_Some (cache !! key) → cache2 !! key = cache !! key)
    ∧ (∀ l, l ∈ new → is_Some (respond e (id (l_item l)) (l_address l)) →
            is_Some (cache2 !! l_cacheKey l))
    ∧ (NoDup (id <$> batch) →
       ∀ item c, item ∈ batch → cache !! cacheKey_of item = Some c →
                 is_Some (map_get (id item) (salesDataMap s)) →
                 coordinates (id item) s2 = Some c).
Proof.
  unfold batch_step.
  destruct (start_items_spec cache batch s [])
    as (s1 & new & -> & Hnew & Hkeys1 & Hok1 & Hframe1 & Hhit1).
  rewrite app_nil_l.
  pose proof (merge_sort_Permutation (arrives_before e) new) as Hperm.
  destruct (finish_lookups_spec e (merge_sort (arrives_before e) new) s1 cache)
    as (s2 & cache2 & -> & Hkeys2 & Hok2 & Hframe2 & Hcache2 & _ & Hdone2).
  rewrite Forall_forall in Hnew.
  exists s2, cache2, new. split_and!; try done.
  - by rewrite Forall_forall.
  - congruence.
  - intros Hs. by apply Hok2, Hok1.
  - intros k Hk. rewrite Hframe2, Hframe1; [done|..].
    + intros item Hin _ Heq. apply Hk. rewrite <- Heq.
      by apply list_elem_of_fmap_2.
    + intros l Hl Heq. rewrite Hperm in Hl. apply Hnew in Hl as (Hin & _).
      apply Hk. rewrite <- Heq. by apply list_elem_of_fmap_2.
  - intros key [c Hc]. apply Hcache2. intros l Hl Heq.
    rewrite Hperm in Hl. apply Hnew in Hl as (_ & _ & Hmiss). congruence.
  - intros l Hl. apply Hdone2. by rewrite Hperm.
  - intros Hnd item c Hin Hc Hsome. unfold coordinates.
    rewrite Hframe2; [by apply Hhit1|].
    intros l Hl Heq. rewrite Hperm in Hl.
    apply Hnew in Hl as (Hin' & Hkey & Hmiss).
    assert (l_item l = item) as Hitem
      by (by eapply (NoDup_fmap_eq id batch)).
    rewrite Hkey, Hitem in Hmiss. congruence.
Qed.


(** *** The loop over the batches *)

Lemma slice_parts {A} (a : list A) i j n :
  i ≤ j →
  a = take i a ++ slice i j a ++ slice j (j + n) a ++ drop (j + n) a
  ∧ slice i (j + n) a = slice i j a ++ slice j (j + n) a.
Proof.
  intros Hij. unfold slice.
  replace (j + n - j) with n by lia.
  replace (j + n - i) with ((j - i) + n) by lia.
  assert (drop j a = drop (j - i) (drop i a)) as Hj.
  { rewrite drop_drop. f_equal. lia. }
  assert (drop (j + n) a = drop n (drop j a)) as Hjn.
  { rewrite drop_drop. f_equal. }
  split.
  - rewrite Hjn, take_drop, Hj, take_drop, take_drop. done.
  - rewrite (take_add_slice (drop i a) (j - i) n). unfold slice.
    replace (j - i + n - (j - i)) with n by lia. by rewrite Hj.
Qed.

Lemma elem_of_slice {A} (a : list A) i j x : x ∈ slice i j a → x ∈ a.
Proof.
  unfold slice. intros Hx. apply subseteq_take in Hx.
  by apply subseteq_drop in Hx.
Qed.

Lemma elem_of_List_filter {A} (f : A → bool) l x :
  x ∈ List.filter f l ↔ f x = true ∧ x ∈ l.
Proof. rewrite !list_elem_of_In, filter_In. tauto. Qed.

Lemma NoDup_fmap_List_filter {A B} (g : A → B) (f : A → bool) l :
  NoDup (g <$> l) → NoDup (g <$> List.filter f l).
Proof.
  induction l as [|x l IH]; simpl; [done|].
  intros [Hnot Hnd]%NoDup_cons. destruct (f x); [|by apply IH].
  simpl. apply NoDup_cons. split; [|by apply IH].
  intros (y & Hy & Hin)%list_elem_of_fmap. apply Hnot. rewrite Hy.
  apply list_elem_of_fmap_2. by apply elem_of_List_filter in Hin as [_ ?].
Qed.

Lemma map_get_is_Some {V} (m : list (Z * V)) k :
  is_Some (map_get k m) ↔ k ∈ map_keys m.
Proof.
  rewrite <- not_eq_None_Some, map_get_None.
  destruct (decide (k ∈ map_keys m)); tauto.
Qed.

(** The batches from index [i] on leave the ids of the store as they are
    and touch no record outside [items]; every lookup they send is for a
    record of [items]. *)
Lemma geocode_from_frame e fuel i items s cache log :
  length items - i ≤ fuel →
  ∃ s' cache' new,
    geocode_from e fuel i items (s, cache, log) = (s', cache', log ++ new)
    ∧ map_keys (salesDataMap s') = map_keys (salesDataMap s)
    ∧ (store_ok s → store_ok s')
    ∧ (∀ k, k ∉ id <$> items →
            map_get k (salesDataMap s') = map_get k (salesDataMap s))
    ∧ Forall (λ l, l_item l ∈ items) new.
Proof.
  intros Hfuel. unfold geocode_from.
  destruct (for_slices_from_invariant 10 items
              (λ _ batch acc, batch_step e batch acc) ltac:(lia)
              (λ _ acc,
                 let '(s', cache', log') := acc in
                 ∃ new,
                   log' = log ++ new
                   ∧ map_keys (salesDataMap s') = map_keys (salesDataMap s)
                   ∧ (store_ok s → store_ok s')
                   ∧ (∀ k, k ∉ id <$> items →
                           map_get k (salesDataMap s')
                           = map_get k (salesDataMap s))
                   ∧ Forall (λ l, l_item l ∈ items) new)
              ) with (fuel := fuel) (i := i) (s := (s, cache, log))
    as (j & _ & Hinv).
  - intros j [[s' cache'] log'] Hj (new & -> & Hkeys & Hok & Hframe & Hnew).
    destruct (batch_step_spec e (slice j (j + 10) items) s' cache' (log ++ new))
      as (s2 & cache2 & new2 & -> & Hnew2 & Hkeys2 & Hok2 & Hframe2 & _).
    exists (new ++ new2). rewrite (assoc_L (++)). split_and!; try done.
    + congruence.
    + intros Hs. by apply Hok2, Hok.
    + intros k Hk. rewrite Hframe2, Hframe; [done..|].
      intros (item & -> & Hin)%list_elem_of_fmap. apply Hk.
      apply list_elem_of_fmap_2. by eapply elem_of_slice.
    + apply Forall_app. split; [done|].
      eapply Forall_impl; [exact Hnew2|]. simpl.
      intros l (Hin & _). by eapply elem_of_slice.
  - done.
  - exists []. rewrite app_nil_r. split_and!; done.
  - destruct (for_slices_from _ _ _ _ _ _) as [[s' cache'] log'].
    destruct Hinv as (new & -> & Hkeys & Hok & Hframe & Hnew).
    exists s', cache', new. split_and!; done.
Qed.


Lemma itemsNeedingGeocode_stored s item :
  item ∈ itemsNeedingGeocode s ↔
  needs_geocode item = true ∧ item ∈ getAllSalesData s.
Proof. apply elem_of_List_filter. Qed.

(** One run keeps the store well formed and touches no record outside its
    scan. *)
Lemma run_frame e w :
  store_ok (storage w) →
  let w' := (updateCoordinatesInBackground e w).1 in
  store_ok (storage w')
  ∧ uploadStatus w' = uploadStatus w
  ∧ ∀ k, k ∉ id <$> itemsNeedingGeocode (storage w) →
         map_get k (salesDataMap (storage w'))
         = map_get k (salesDataMap (storage w)).
Proof.
  intros Hok. unfold updateCoordinatesInBackground.
  destruct (apiKey e) as [key|]; [|done].
  destruct (str_truthy key); [|done].
  destruct (geocode_from_frame e (length (itemsNeedingGeocode (storage w))) 0
              (itemsNeedingGeocode (storage w)) (storage w)
              (geocodingCache w) [] ltac:(lia))
    as (s' & cache' & new & -> & _ & Hok' & Hframe & _).
  simpl. split_and!; [by apply Hok' | done | done].
Qed.

(** C7: enrichment is idempotent: for every store, a record whose
    coordinates are not the sentinel (0, 0) is not in the scan of an
    enrichment run, and after any number of runs, whatever the service
    answers, the record is still stored as it was, out of the scan of the
    next run. *)
Theorem enriched_record_never_overwritten
    (es : list Env) (w : World) (k : Z) (r : SalesData) :
  store_ok (storage w) →
  map_get k (salesDataMap (storage w)) = Some r →
  (latitude r, longitude r) ≠ (0, 0)%Z →
  (r ∉ itemsNeedingGeocode (storage w))
  ∧ map_get k (salesDataMap (storage (runs es w))) = Some r
  ∧ (r ∉ itemsNeedingGeocode (storage (runs es w))).
Proof.
  intros Hok Hget Hcoords.
  assert (∀ s, r ∉ itemsNeedingGeocode s) as Hscan.
  { intros s [Hneeds _]%itemsNeedingGeocode_stored.
    unfold needs_geocode in Hneeds.
    apply andb_true_iff in Hneeds as [Hneeds _].
    apply andb_true_iff in Hneeds as [Hneeds _].
    apply andb_true_iff in Hneeds as [Hlat%Z.eqb_eq Hlon%Z.eqb_eq].
    apply Hcoords. by rewrite Hlat, Hlon. }
  split; [done|]. split; [|done].
  unfold runs. revert w Hok Hget.
  induction es as [|e es IH]; intros w Hok Hget; [done|].
  cbn [fold_left].
  destruct (run_frame e w Hok) as (Hok' & _ & Hframe).
  apply IH; [done|]. rewrite Hframe; [done|].
  intros (item & Hid & Hin)%list_elem_of_fmap.
  pose proof Hin as [_ Hstored]%itemsNeedingGeocode_stored.
  apply (stored_record_get _ _ Hok) in Hstored.
  rewrite <- Hid, Hget in Hstored. injection Hstored as <-.
  by apply (Hscan (storage w)).
Qed.


Lemma createMultipleSalesData_store_ok insertDataArray s :
  store_ok s → store_ok (createMultipleSalesData insertDataArray s).2.
Proof.
  intros Hok. rewrite createMultipleSalesData_unchunked.
  by destruct (array_map_createSalesData insertDataArray s Hok)
    as (_ & _ & _ & _ & ?).
Qed.

(** Every state of the store satisfies the invariant. *)
Lemma reachable_store_ok s : reachable s → store_ok s.
Proof.
  induction 1.
  - apply store_ok_empty.
  - by apply createSalesData_store_ok.
  - by apply createMultipleSalesData_store_ok.
  - apply store_ok_empty.
  - by apply update_store_ok.
Qed.

Lemma enriched_record_never_overwritten_witness :
  store_ok (storage (Sample.world_of Sample.one_enriched))
  ∧ map_get 1%Z (salesDataMap (storage (Sample.world_of Sample.one_enriched)))
    = Some (set_coordinates (createSalesData Sample.pune Storage.empty).1 18 73)
  ∧ (18, 73)%Z ≠ (0, 0)%Z
  ∧ let es := [Sample.geocoder; Sample.geocoder] in
    let w := Sample.world_of Sample.one_enriched in
    let r := set_coordinates (createSalesData Sample.pune Storage.empty).1
               18 73 in
    (r ∉ itemsNeedingGeocode (storage w))
    ∧ map_get 1%Z (salesDataMap (storage (runs es w))) = Some r
    ∧ (r ∉ itemsNeedingGeocode (storage (runs es w))).
Proof.
  assert (store_ok (storage (Sample.world_of Sample.one_enriched))) as Hok.
  { apply update_store_ok, createMultipleSalesData_store_ok, store_ok_empty. }
  assert (map_get 1%Z
            (salesDataMap (storage (Sample.world_of Sample.one_enriched)))
          = Some (set_coordinates
                    (createSalesData Sample.pune Storage.empty).1 18 73))
    as Hget by (vm_compute; reflexivity).
  assert ((18, 73)%Z ≠ (0, 0)%Z) as Hcoords by discriminate.
  split; [exact Hok|]. split; [exact Hget|]. split; [exact Hcoords|].
  exact (enriched_record_never_overwritten
           [Sample.geocoder; Sample.geocoder]
           (Sample.world_of Sample.one_enriched) 1
           (set_coordinates (createSalesData Sample.pune Storage.empty).1 18 73)
           Hok Hget Hcoords).
Defined.

(** Two runs over [Sample.one_enriched]: the first record keeps (18, 73),
    the second is geocoded once. *)
Example two_runs :
  (λ d, (id d, latitude d, longitude d)) <$>
    getAllSalesData
      (storage (runs [Sample.geocoder; Sample.geocoder]
                  (Sample.world_of Sample.one_enriched)))
  = [(1, 18, 73); (2, 20, 75)]%Z.
Proof. vm_compute. reflexivity. Qed.

(** From a batch boundary at which [key] is cached on: the key stays
    cached with the same coordinates, no lookup is sent for it, and the
    records of the key in the batches that follow get the cached
    coordinates and keep them. *)
Lemma geocode_from_cached e fuel i items s cache log key c :
  NoDup (id <$> items) →
  (∀ item, item ∈ items → is_Some (map_get (id item) (salesDataMap s))) →
  cache !! key = Some c →
  length items - i ≤ fuel →
  ∃ s' cache' new,
    geocode_from e fuel i items (s, cache, log) = (s', cache', log ++ new)
    ∧ cache' !! key = Some c
    ∧ Forall (λ l, l_cacheKey l ≠ key) new
    ∧ ∀ item, item ∈ drop i items → cacheKey_of item = key →
              coordinates (id item) s' = Some c.
Proof.
  intros Hnd Hstored Hkey Hfuel. unfold geocode_from.
  destruct (for_slices_from_invariant 10 items
              (λ _ batch acc, batch_step e batch acc) ltac:(lia)
              (λ j acc,
                 let '(s', cache', log') := acc in
                 i ≤ j
                 ∧ cache' !! key = Some c
                 ∧ map_keys (salesDataMap s') = map_keys (salesDataMap s)
                 ∧ ∃ new,
                     log' = log ++ new
                     ∧ Forall (λ l, l_cacheKey l ≠ key) new
                     ∧ ∀ item, item ∈ slice i j items →
                               cacheKey_of item = key →
                               coordinates (id item) s' = Some c)
              ) with (fuel := fuel) (i := i) (s := (s, cache, log))
    as (j & Hj & Hinv).
  - intros j [[s' cache'] log'] Hlt
      (Hij & Hkey' & Hkeys & new & -> & Hnew & Hdone).
    destruct (slice_parts items i j 10 Hij) as [Hparts Hslice].
    destruct (batch_step_spec e (slice j (j + 10) items) s' cache' (log ++ new))
      as (s2 & cache2 & new2 & -> & Hnew2 & Hkeys2 & _ & Hframe2 & Hcache2
          & _ & Hhit2).
    assert (NoDup ((id <$> slice i j items)
                   ++ (id <$> slice j (j + 10) items))) as Hnd2.
    { rewrite Hparts, !fmap_app in Hnd.
      apply NoDup_app in Hnd as (_ & _ & Hnd).
      rewrite (assoc_L (++)) in Hnd. by apply NoDup_app in Hnd as (? & _ & _). }
    apply NoDup_app in Hnd2 as (_ & Hdisj & Hnd_batch).
    split_and!.
    + lia.
    + rewrite Hcache2; [done | by rewrite Hkey'].
    + congruence.
    + exists (new ++ new2). rewrite (assoc_L (++)). split_and!; [done|..].
      * apply Forall_app. split; [done|].
        eapply Forall_impl; [exact Hnew2|]. simpl.
        intros l (_ & _ & Hmiss) Heq. congruence.
      * intros item. rewrite Hslice.
        intros [Hin|Hin]%elem_of_app Hitem.
        -- unfold coordinates. rewrite Hframe2; [by apply Hdone|].
           apply Hdisj. by apply list_elem_of_fmap_2.
        -- apply Hhit2; try done; [congruence|].
           apply map_get_is_Some. rewrite Hkeys.
           apply map_get_is_Some, Hstored. by eapply elem_of_slice.
  - done.
  - split_and!; try done. exists []. rewrite app_nil_r.
    split_and!; try done. unfold slice. rewrite Nat.sub_diag.
    by intros item ?%elem_of_nil.
  - destruct (for_slices_from _ _ _ _ _ _) as [[s' cache'] log'].
    destruct Hinv as (Hij & Hkey' & _ & new & -> & Hnew & Hdone).
    exists s', cache', new. split_and!; try done.
    intros item Hin. apply Hdone. unfold slice.
    rewrite take_ge; [done|]. rewrite length_drop. lia.
Qed.


(** The loop passes through [geocode_from] at every batch boundary. *)
Lemma geocode_from_unfold e fuel i items acc :
  geocode_from e (S fuel) i items acc
  = if i <? length items
    then geocode_from e fuel (i + 10) items
           (batch_step e (slice i (i + 10) items) acc)
    else acc.
Proof. reflexivity. Qed.

(** A run that starts with the key of a pair in the cache sends no lookup
    for the pair and gives the cached coordinates to every record of the
    pair in its scan. *)
Lemma run_with_cached_pair e w key c :
  store_ok (storage w) →
  geocodingCache w !! key = Some c →
  (∃ k, apiKey e = Some k ∧ str_truthy k = true) →
  let r := updateCoordinatesInBackground e w in
  Forall (λ l, l_cacheKey l ≠ key) r.2
  ∧ ∀ item, item ∈ itemsNeedingGeocode (storage w) →
            cacheKey_of item = key →
            coordinates (id item) (storage r.1) = Some c.
Proof.
  intros Hok Hkey (k & Hk & Htruthy). unfold updateCoordinatesInBackground.
  rewrite Hk, Htruthy.
  destruct (geocode_from_cached e
              (length (itemsNeedingGeocode (storage w))) 0
              (itemsNeedingGeocode (storage w)) (storage w)
              (geocodingCache w) [] key c)
    as (s' & cache' & new & -> & _ & Hnew & Hcoords).
  - by apply NoDup_fmap_List_filter, stored_ids_NoDup.
  - intros item [_ Hin]%itemsNeedingGeocode_stored.
    rewrite (stored_record_get _ _ Hok Hin). by eexists.
  - done.
  - lia.
  - simpl. split; [done|]. intros item Hin. by apply Hcoords.
Qed.



(** With the pair cached before the run, the two records of
    [Sample.two_pune] get the cached coordinates and no lookup is sent. *)
Example cached_run :
  let r := updateCoordinatesInBackground Sample.geocoder
             {| storage := Sample.two_pune; uploadStatus := ∅;
                geocodingCache := {[ "Pune, Maharashtra" := (18, 73)%Z ]} |} in
  r.2 = []
  ∧ (λ d, (id d, latitude d, longitude d)) <$> getAllSalesData (storage r.1)
    = [(1, 18, 73); (2, 18, 73)]%Z.
Proof. vm_compute. done. Qed.


(** In that run the two records of the pair end with different
    coordinates: the first keeps the sentinel, the last is geocoded. *)
Example failed_lookup_run :
  let r := updateCoordinatesInBackground Sample.geocoder_failing_once
             (Sample.world_of Sample.eleven) in
  l_address <$> List.filter
                  (λ l, bool_decide (l_cacheKey l = "Pune, Maharashtra")) r.2
  = ["Pune, Maharashtra, India"; "Pune, Maharashtra, India"]
  ∧ coordinates 1 (storage r.1) = Some (0, 0)%Z
  ∧ coordinates 11 (storage r.1) = Some (29, 84)%Z.
Proof. vm_compute. done. Qed.

(** Two records of one pair in one batch: each callback reads the cache
    before any answer has arrived, and each sends a lookup. *)
Example same_batch_run :
  let r := updateCoordinatesInBackground Sample.geocoder
             (Sample.world_of Sample.two_pune) in
  l_cacheKey <$> r.2 = ["Pune, Maharashtra"; "Pune, Maharashtra"]
  ∧ (id ∘ l_item) <$> r.2 = [1; 2]%Z.
Proof. vm_compute. done. Qed.


(** ** The cascading filters *)

Import Filters.

(** Strings have one ascending arrangement: whatever algorithm the engine
    sorts with, [a.sort()] is [sort a]. *)
Lemma sort_unique (a sorted : list string) :
  sorted ≡ₚ a → StronglySorted String.le sorted → sorted = sort a.
Proof.
  intros Hperm Hsorted. apply (StronglySorted_unique String.le); [done|..].
  - apply (StronglySorted_merge_sort String.le).
  - unfold sort. by rewrite merge_sort_Permutation.
Qed.

Lemma unconstrained_or_includes_spec (a : list string) (x : string) :
  unconstrained_or_includes a x = true ↔ a = [] ∨ x ∈ a.
Proof.
  unfold unconstrained_or_includes, includes.
  rewrite orb_true_iff, Nat.eqb_eq, bool_decide_eq_true.
  by rewrite length_zero_iff_nil.
Qed.

Lemma List_filter_filter {A} (f : A → bool) (P : A → Prop)
    `{∀ x, Decision (P x)} (l : list A) :
  (∀ x, f x = true ↔ P x) → List.filter f l = filter P l.
Proof.
  intros Hf. induction l as [|x l IH]; [done|].
  simpl. rewrite filter_cons, IH.
  destruct (f x) eqn:Hx; case_decide as HP; try done.
  - by apply Hf in Hx.
  - apply Hf in HP. congruence.
Qed.

(** A set filled by [add] under a condition: no element twice, and the
    elements are the ones it had and the values added. *)
Lemma conditional_set_add {A} (c : A → bool) (f : A → string) l acc :
  NoDup acc →
  let r := fold_left (λ acc item, if c item then set_add (f item) acc else acc)
             l acc in
  NoDup r
  ∧ ∀ v, v ∈ r ↔ v ∈ acc ∨ ∃ item, item ∈ l ∧ c item = true ∧ f item = v.
Proof.
  revert acc. induction l as [|item l IH]; intros acc Hnd; simpl.
  - split; [done|]. intros v. split; [by left|].
    intros [?|(? & Hx & _)]; [done | by apply elem_of_nil in Hx].
  - assert (NoDup (if c item then set_add (f item) acc else acc)) as Hnd'.
    { destruct (c item); [|done]. unfold set_add. case_bool_decide; [done|].
      apply NoDup_app. split_and!; [done| |apply NoDup_singleton].
      intros x Hx ->%list_elem_of_singleton. done. }
    destruct (IH _ Hnd') as [Hnd'' Hin]. split; [done|].
    intros v. rewrite Hin. split.
    + intros [Hv|(item' & Hin' & Hc & Hf)].
      * destruct (c item) eqn:Hc; [|by left]. unfold set_add in Hv.
        case_bool_decide; [by left|].
        apply elem_of_app in Hv as [? | ->%list_elem_of_singleton]; [by left|].
        right. exists item. split_and!; [by left | done | done].
      * right. exists item'. split_and!; [by right | done | done].
    + intros [Hv|(item' & [-> | Hin']%elem_of_cons & Hc & Hf)].
      * left. destruct (c item); [|done]. unfold set_add.
        case_bool_decide; [done|]. apply elem_of_app. by left.
      * left. rewrite Hc. unfold set_add. case_bool_decide; [by subst|].
        apply elem_of_app. right. by apply list_elem_of_singleton.
      * right. by exists item'.
Qed.

Lemma options_step_fold makers rtos states districts l mo ro so do :
  fold_left (options_step makers rtos states districts) l (mo, ro, so, do)
  = (fold_left
       (λ acc item,
          if unconstrained_or_includes rtos (rto item)
             && unconstrained_or_includes states (state item)
             && unconstrained_or_includes districts (district item)
          then set_add (maker item) acc else acc) l mo,
     fold_left
       (λ acc item,
          if unconstrained_or_includes makers (maker item)
             && unconstrained_or_includes states (state item)
             && unconstrained_or_includes districts (district item)
          then set_add (rto item) acc else acc) l ro,
     fold_left
       (λ acc item,
          if unconstrained_or_includes makers (maker item)
             && unconstrained_or_includes rtos (rto item)
             && unconstrained_or_includes districts (district item)
          then set_add (state item) acc else acc) l so,
     fold_left
       (λ acc item,
          if unconstrained_or_includes makers (maker item)
             && unconstrained_or_includes rtos (rto item)
             && unconstrained_or_includes states (state item)
          then set_add (district item) acc else acc) l do).
Proof.
  revert mo ro so do. induction l as [|item l IH]; intros mo ro so do; [done|].
  cbn [fold_left]. unfold options_step at 2. by rewrite IH.
Qed.

(** The list the handler answers for one dimension: the set, without the
    empty string, sorted. *)
Lemma option_list_spec {A} (c : A → bool) (f : A → string) (l : list A) :
  let opts :=
    sort (List.filter str_truthy
            (fold_left (λ acc item, if c item then set_add (f item) acc else acc)
               l [])) in
  StronglySorted String.le opts
  ∧ NoDup opts
  ∧ ∀ v, v ∈ opts ↔ v ≠ "" ∧ ∃ item, item ∈ l ∧ f item = v ∧ c item = true.
Proof.
  intros opts. subst opts. unfold sort.
  destruct (conditional_set_add c f l [] (NoDup_nil_2)) as [Hnd Hin].
  set (set := fold_left _ l []) in *.
  pose proof (merge_sort_Permutation String.le (List.filter str_truthy set))
    as Hperm.
  split_and!.
  - apply (StronglySorted_merge_sort String.le).
  - rewrite Hperm.
    rewrite <- (list_fmap_id (List.filter str_truthy set)).
    apply NoDup_fmap_List_filter. by rewrite list_fmap_id.
  - intros v. rewrite Hperm, elem_of_List_filter, Hin.
    unfold str_truthy. split.
    + intros [Hv [Hx|(item & ? & ? & ?)]]; [by apply elem_of_nil in Hx|].
      split.
      * intros ->. done.
      * by exists item.
    + intros [Hv (item & ? & ? & ?)]. split.
      * by destruct (String.eqb_spec v "").
      * right. by exists item.
Qed.

Lemma andb3_true (a b c : bool) :
  a && b && c = true ↔ a = true ∧ b = true ∧ c = true.
Proof. destruct a, b, c; simpl; intuition congruence. Qed.

(** One of the four option lists of the handler, by [option_list_spec]. *)
Ltac option_list_of field :=
  match goal with
  | |- context [fold_left ?g ?l []] =>
      match g with
      | (λ acc item, if ?c then _ else _) =>
          let Hsorted := fresh "Hsorted" in
          let Hnd := fresh "Hnd" in
          let Hin := fresh "Hin" in
          destruct (option_list_spec (λ item, c) field l)
            as (Hsorted & Hnd & Hin);
          split_and!; [exact Hsorted | exact Hnd |];
          intros v; rewrite Hin;
          setoid_rewrite andb3_true;
          setoid_rewrite unconstrained_or_includes_spec;
          done
      end
  end.

(** C1: for every record store and every filter selection, [filteredData]
    is exactly the stored records, in store order, that for each of the
    four dimensions either meet an empty (or absent) selection or have
    their field in it; and for each dimension the option list is sorted in
    ascending order of character codes, has no value twice, and holds
    exactly the non-empty values of that dimension's field over the records
    that satisfy the constraints of the other three dimensions. *)
Theorem cascadingFilters_spec (body : Selection) (s : MemStorage) :
  let makers := default [] (makers body) in
  let rtos := default [] (rtos body) in
  let states := default [] (states body) in
  let districts := default [] (districts body) in
  let allData := getAllSalesData s in
  let selected := λ (a : list string) (x : string), a = [] ∨ x ∈ a in
  let option_list :=
    λ (opts : list string) (field : SalesData → string)
      (others : SalesData → Prop),
      StronglySorted String.le opts
      ∧ NoDup opts
      ∧ ∀ v, v ∈ opts ↔
             v ≠ "" ∧ ∃ item, item ∈ allData ∧ field item = v ∧ others item in
  let r := cascadingFilters body s in
  r.1 = filter (λ item, selected makers (maker item)
                        ∧ selected rtos (rto item)
                        ∧ selected states (state item)
                        ∧ selected districts (district item)) allData
  ∧ option_list (fo_makers r.2) maker
      (λ item, selected rtos (rto item) ∧ selected states (state item)
               ∧ selected districts (district item))
  ∧ option_list (fo_rtos r.2) rto
      (λ item, selected makers (maker item) ∧ selected states (state item)
               ∧ selected districts (district item))
  ∧ option_list (fo_states r.2) state
      (λ item, selected makers (maker item) ∧ selected rtos (rto item)
               ∧ selected districts (district item))
  ∧ option_list (fo_districts r.2) district
      (λ item, selected makers (maker item) ∧ selected rtos (rto item)
               ∧ selected states (state item)).
Proof.
  intros makers rtos states districts allData selected option_list r.
  subst r. unfold cascadingFilters.
  fold makers rtos states districts allData.
  rewrite options_step_fold. cbn [fst snd fo_makers fo_rtos fo_states fo_districts].
  split_and!.
  - apply List_filter_filter. intros item. cbv zeta.
    rewrite !andb_true_iff, !unconstrained_or_includes_spec.
    unfold selected. tauto.
  - option_list_of maker.
  - option_list_of rto.
  - option_list_of state.
  - option_list_of district.
Qed.

(** Selecting the maker Acme over a store with a record of Acme and one of
    Zenith: the Acme record is returned, every maker stays on offer, and
    the other lists come from the Acme record; its district is empty and is
    left out. *)
Example cascadingFilters_acme :
  let r := cascadingFilters
             {| makers := Some ["Acme"]; rtos := None; states := Some [];
                districts := None |} Sample.acme_zenith in
  id <$> r.1 = [1%Z]
  ∧ fo_makers r.2 = ["Acme"; "Zenith"]
  ∧ fo_rtos r.2 = ["MH12"]
  ∧ fo_states r.2 = ["Maharashtra"]
  ∧ fo_districts r.2 = [].
Proof. vm_compute. done. Qed.


(** ** More on the store *)

Lemma Forall_map_set {V} (P : Z * V → Prop) (m : list (Z * V)) k v :
  Forall P m → P (k, v) → Forall P (map_set k v m).
Proof.
  intros Hm Hkv. induction Hm as [|[k' v'] m Hx Hm IH]; simpl.
  - by constructor.
  - case_decide; constructor; done.
Qed.

(** The counter starts at [1] and only grows between two clears: no id is
    below [1]. *)
Lemma reachable_ids_from_one s :
  reachable s →
  (1 ≤ currentId s)%Z ∧ Forall (λ kv, (1 ≤ kv.1)%Z) (salesDataMap s).
Proof.
  induction 1 as [|d s _ [Hc Hk]|arr s Hr [Hc Hk]| |k lat lon s _ [Hc Hk]].
  - split; [done | constructor].
  - split; [simpl; lia|]. simpl. by apply Forall_map_set.
  - rewrite createMultipleSalesData_unchunked.
    destruct (array_map_createSalesData arr s (reachable_store_ok s Hr))
      as (Hids & Hmap & Hcur & _ & _).
    split; [rewrite Hcur; lia|]. rewrite Hmap. apply Forall_app. split; [done|].
    apply Forall_fmap, Forall_forall. intros d Hd. simpl.
    assert (id d ∈ id <$> (array_map createSalesData arr s).1) as Hin
      by (by apply list_elem_of_fmap_2).
    rewrite Hids in Hin. apply list_elem_of_fmap in Hin as (i & -> & _). lia.
  - split; [done | constructor].
  - unfold updateSalesDataCoordinates.
    destruct (map_get k (salesDataMap s)) as [data|] eqn:Hget; [|done].
    split; [done|]. simpl. apply Forall_map_set; [done|].
    apply map_get_Some_split in Hget as (before & after & Hm & _).
    rewrite Hm in Hk. apply Forall_app in Hk as [_ Hk].
    by apply Forall_cons in Hk as [? _].
Qed.

Lemma map_get_Some_elem {V} (m : list (Z * V)) k v :
  map_get k m = Some v → (k, v) ∈ m.
Proof.
  intros (before & after & -> & _)%map_get_Some_split.
  apply elem_of_app. right. left.
Qed.

(** X1: in every state the store can be in (a new store, and whatever the
    methods make of it), the ids of the records are distinct, every record
    is found under its own id, every id lies between 1 and the counter, and
    a lookup by id returns a record of the store that carries this id. *)
Theorem reachable_store_invariant (s : MemStorage) :
  reachable s →
  NoDup (id <$> getAllSalesData s)
  ∧ (∀ r, r ∈ getAllSalesData s →
       map_get (id r) (salesDataMap s) = Some r
       ∧ (1 ≤ id r < currentId s)%Z)
  ∧ (∀ k r, map_get k (salesDataMap s) = Some r →
       id r = k ∧ r ∈ getAllSalesData s).
Proof.
  intros Hr. pose proof (reachable_store_ok s Hr) as Hok.
  destruct (reachable_ids_from_one s Hr) as [_ Hone].
  split; [by apply stored_ids_NoDup|]. split.
  - intros r Hin. split; [by apply stored_record_get|].
    unfold getAllSalesData, map_values in Hin.
    apply list_elem_of_fmap in Hin as ([k r'] & -> & Hin).
    destruct Hok as [_ Hall].
    rewrite Forall_forall in Hall, Hone.
    specialize (Hall _ Hin). specialize (Hone _ Hin). simpl in *. lia.
  - intros k r Hget. apply map_get_Some_elem in Hget.
    destruct Hok as [_ Hall]. rewrite Forall_forall in Hall.
    split; [by destruct (Hall _ Hget)|].
    unfold getAllSalesData, map_values.
    apply list_elem_of_fmap. by exists (k, r).
Qed.

Lemma reachable_store_invariant_witness :
  reachable Sample.one_enriched
  ∧ NoDup (id <$> getAllSalesData Sample.one_enriched)
  ∧ (∀ r, r ∈ getAllSalesData Sample.one_enriched →
       map_get (id r) (salesDataMap Sample.one_enriched) = Some r
       ∧ (1 ≤ id r < currentId Sample.one_enriched)%Z)
  ∧ (∀ k r, map_get k (salesDataMap Sample.one_enriched) = Some r →
       id r = k ∧ r ∈ getAllSalesData Sample.one_enriched).
Proof.
  assert (reachable Sample.one_enriched) as Hr.
  { apply reachable_update, reachable_create_multiple, reachable_empty. }
  split; [exact Hr|]. exact (reachable_store_invariant Sample.one_enriched Hr).
Defined.

(** *** Writes of coordinates, one after another *)

Section map_set_order.
Context {V : Type}.
Implicit Types (m : list (Z * V)) (k : Z) (v : V).

Lemma map_set_set m k v v' : map_set k v' (map_set k v m) = map_set k v' m.
Proof.
  induction m as [|[k0 v0] m IH]; simpl.
  - by rewrite decide_True.
  - case_decide as Hk; simpl.
    + by rewrite decide_True.
    + rewrite decide_False by done. by rewrite IH.
Qed.

Lemma map_set_comm m k1 k2 v1 v2 :
  k1 ≠ k2 → is_Some (map_get k1 m) → is_Some (map_get k2 m) →
  map_set k1 v1 (map_set k2 v2 m) = map_set k2 v2 (map_set k1 v1 m).
Proof.
  intros Hne. induction m as [|[k0 v0] m IH]; simpl.
  - by intros [? ?].
  - intros H1 H2. destruct (decide (k1 = k0)) as [->|H10].
    + rewrite decide_False by done. simpl.
      rewrite decide_True by done. by rewrite decide_False by done.
    + destruct (decide (k2 = k0)) as [->|H20]; simpl.
      * rewrite decide_False by done. by rewrite decide_True by done.
      * rewrite !decide_False by done. f_equal. by apply IH.
Qed.
End map_set_order.

Lemma update_update k lat lon lat' lon' s :
  updateSalesDataCoordinates k lat' lon'
    (updateSalesDataCoordinates k lat lon s)
  = updateSalesDataCoordinates k lat' lon' s.
Proof.
  unfold updateSalesDataCoordinates at 2 3.
  destruct (map_get k (salesDataMap s)) as [data|] eqn:Hget.
  - unfold updateSalesDataCoordinates. simpl.
    rewrite map_get_set, decide_True by done. simpl.
    by rewrite map_set_set.
  - unfold updateSalesDataCoordinates. by rewrite Hget.
Qed.

Lemma update_absent k lat lon s :
  map_get k (salesDataMap s) = None → updateSalesDataCoordinates k lat lon s = s.
Proof. intros Hget. unfold updateSalesDataCoordinates. by rewrite Hget. Qed.

Lemma update_comm k1 k2 lat1 lon1 lat2 lon2 s :
  k1 ≠ k2 →
  updateSalesDataCoordinates k1 lat1 lon1
    (updateSalesDataCoordinates k2 lat2 lon2 s)
  = updateSalesDataCoordinates k2 lat2 lon2
      (updateSalesDataCoordinates k1 lat1 lon1 s).
Proof.
  intros Hne.
  destruct (map_get k1 (salesDataMap s)) as [d1|] eqn:H1;
    destruct (map_get k2 (salesDataMap s)) as [d2|] eqn:H2.
  - unfold updateSalesDataCoordinates. rewrite H1, H2. simpl.
    rewrite !map_get_set.
    destruct (decide (k1 = k2)) as [|_]; [done|].
    destruct (decide (k2 = k1)) as [|_]; [done|].
    rewrite H1, H2. simpl. f_equal.
    apply map_set_comm; [done | by rewrite H1 | by rewrite H2].
  - rewrite (update_absent k2 lat2 lon2 s H2).
    symmetry. apply update_absent. rewrite update_get.
    by destruct (decide (k2 = k1)).
  - rewrite (update_absent k1 lat1 lon1 s H1).
    apply update_absent. rewrite update_get.
    by destruct (decide (k1 = k2)).
  - by rewrite (update_absent k1 lat1 lon1 s H1), (update_absent k2 _ _ s H2),
      (update_absent k1 lat1 lon1 s H1).
Qed.

Lemma set_coordinates_same data :
  set_coordinates data (latitude data) (longitude data) = data.
Proof. by destruct data. Qed.

Lemma map_set_same {V} (m : list (Z * V)) k v :
  map_get k m = Some v → map_set k v m = m.
Proof.
  intros (before & after & -> & Hnot)%map_get_Some_split.
  by apply map_set_split.
Qed.

(** X2: writes of coordinates compose as writes to independent cells: of
    two writes to the same id the later one wins, writes to different ids
    can be made in either order, and writing to a record the coordinates
    it already has changes nothing in the store. *)
Theorem coordinate_writes_compose
    (s : MemStorage) (k k' lat lon lat' lon' : Z) :
  updateSalesDataCoordinates k lat' lon'
    (updateSalesDataCoordinates k lat lon s)
  = updateSalesDataCoordinates k lat' lon' s
  ∧ (k ≠ k' →
     updateSalesDataCoordinates k lat lon
       (updateSalesDataCoordinates k' lat' lon' s)
     = updateSalesDataCoordinates k' lat' lon'
         (updateSalesDataCoordinates k lat lon s))
  ∧ (coordinates k s = Some (lat, lon) →
     updateSalesDataCoordinates k lat lon s = s).
Proof.
  split_and!.
  - apply update_update.
  - apply update_comm.
  - unfold coordinates, updateSalesDataCoordinates.
    destruct (map_get k (salesDataMap s)) as [data|] eqn:Hget; [|done].
    simpl. intros [= <- <-]. rewrite set_coordinates_same.
    rewrite map_set_same by done. by destruct s.
Qed.

Lemma coordinate_writes_compose_witness :
  (1 ≠ 2)%Z
  ∧ updateSalesDataCoordinates 1 18 73
      (updateSalesDataCoordinates 2 19 74 Sample.two_pune)
    = updateSalesDataCoordinates 2 19 74
        (updateSalesDataCoordinates 1 18 73 Sample.two_pune)
  ∧ coordinates 1 Sample.one_enriched = Some (18, 73)%Z
  ∧ updateSalesDataCoordinates 1 18 73 Sample.one_enriched
    = Sample.one_enriched.
Proof.
  assert ((1 ≠ 2)%Z) as Hne by discriminate.
  assert (coordinates 1 Sample.one_enriched = Some (18, 73)%Z) as Hc
    by (vm_compute; reflexivity).
  split; [exact Hne|]. split.
  - exact (proj1 (proj2 (coordinate_writes_compose Sample.two_pune
                           1 2 18 73 19 74)) Hne).
  - split; [exact Hc|].
    exact (proj2 (proj2 (coordinate_writes_compose Sample.one_enriched
                           1 2 18 73 19 74)) Hc).
Defined.


(** ** More on the normalizer *)

(** *** Trimmed strings *)

Lemma append_assoc (a b c : string) : (a +:+ b) +:+ c = a +:+ (b +:+ c).
Proof.
  induction a as [|x a IH]; [reflexivity|].
  change (String x ((a +:+ b) +:+ c) = String x (a +:+ (b +:+ c))).
  by rewrite IH.
Qed.

Lemma append_empty_r (a : string) : a +:+ "" = a.
Proof.
  induction a as [|x a IH]; [reflexivity|].
  change (String x (a +:+ "") = String x a). by rewrite IH.
Qed.

Lemma rev_app_append s acc : String.rev_app s acc = String.rev s +:+ acc.
Proof.
  unfold String.rev. revert acc.
  induction s as [|c s IH]; intros acc; [reflexivity|].
  cbn [String.rev_app]. rewrite (IH (String c acc)), (IH (String c "")).
  by rewrite append_assoc.
Qed.

Lemma rev_append a b :
  String.rev (a +:+ b) = String.rev b +:+ String.rev a.
Proof.
  induction a as [|c a IH].
  - change ("" +:+ b) with b. by rewrite append_empty_r.
  - change (String c a +:+ b) with (String c (a +:+ b)).
    unfold String.rev at 1 3. cbn [String.rev_app].
    rewrite !rev_app_append, IH. by rewrite append_assoc.
Qed.

Lemma rev_involutive s : String.rev (String.rev s) = s.
Proof.
  induction s as [|c s IH]; [reflexivity|].
  unfold String.rev at 2. cbn [String.rev_app].
  rewrite rev_app_append, rev_append, IH. reflexivity.
Qed.

Lemma trimStart_split s :
  ∃ ws, s = ws +:+ trimStart s ∧ all_white ws = true.
Proof.
  induction s as [|c s (ws & Hs & Hws)]; [by exists ""|].
  simpl. destruct (is_white c) eqn:Hc.
  - exists (String c ws). split.
    + change (String c s = String c (ws +:+ trimStart s)). by rewrite <- Hs.
    + simpl. by rewrite Hc.
  - by exists "".
Qed.

Lemma trimStart_idemp s : trimStart (trimStart s) = trimStart s.
Proof.
  induction s as [|c s IH]; simpl; [done|].
  destruct (is_white c) eqn:Hc; [done|]. simpl. by rewrite Hc.
Qed.

(** A trimmed string has no white space at its start nor at its end:
    trimming it again changes nothing. *)
Lemma trim_idemp s : trim (trim s) = trim s.
Proof.
  unfold trim.
  set (X := trimStart s). set (Y := trimStart (String.rev X)).
  assert (trimStart (String.rev Y) = String.rev Y) as Hstart.
  { destruct (trimStart_split (String.rev X)) as (ws & Hsplit & _).
    fold Y in Hsplit.
    apply (f_equal String.rev) in Hsplit.
    rewrite rev_involutive, rev_append in Hsplit.
    destruct (String.rev Y) as [|c r]; [done|].
    pose proof (trimStart_idemp s) as Hidem. fold X in Hidem.
    rewrite Hsplit in Hidem.
    change (String c r +:+ String.rev ws)
      with (String c (r +:+ String.rev ws)) in Hidem.
    simpl in Hidem. simpl. destruct (is_white c); [|done].
    exfalso. apply (f_equal String.length) in Hidem.
    destruct (trimStart_split (r +:+ String.rev ws)) as (ws' & Hs' & _).
    rewrite Hs' in Hidem at 2. simpl in Hidem.
    assert (∀ a b, String.length (a +:+ b)
                   = String.length a + String.length b) as Hlen.
    { intros a b. induction a as [|x a IH]; [done|].
      change (String x a +:+ b) with (String x (a +:+ b)). simpl.
      by rewrite IH. }
    rewrite Hlen in Hidem. lia. }
  rewrite Hstart, rev_involutive. unfold Y. by rewrite trimStart_idemp.
Qed.

Lemma probe_trimmed rowData cols :
  trim (probe rowData cols) = probe rowData cols.
Proof.
  induction cols as [|col cols IH]; [reflexivity|]. simpl.
  destruct (prop rowData col); [exact IH | apply trim_idemp..].
Qed.

(** *** What an accepted row carries *)

Lemma assemble_fields rowData :
  d_state (assemble rowData) = state_of rowData
  ∧ d_city (assemble rowData) = city_of rowData
  ∧ d_maker (assemble rowData) = probe rowData possibleMakerColumns
  ∧ d_rto (assemble rowData) = probe rowData possibleRTOColumns
  ∧ d_district (assemble rowData) = district_of rowData
  ∧ d_latitude (assemble rowData) = 0%Z
  ∧ d_longitude (assemble rowData) = 0%Z.
Proof. unfold assemble. by destruct (month_loop rowData). Qed.

Lemma normalize_row_fields S rowData r :
  normalize_row S rowData = Some r →
  i_maker r = Some (probe rowData possibleMakerColumns)
  ∧ i_rto r = Some (probe rowData possibleRTOColumns)
  ∧ probe rowData possibleMakerColumns ≠ ""
  ∧ probe rowData possibleRTOColumns ≠ ""
  ∧ state_of rowData = VStr (i_state r)
  ∧ city_of rowData = VStr (i_city r)
  ∧ str_truthy (i_state r) = true
  ∧ str_truthy (i_city r) = true
  ∧ district_of rowData = VStr (or_empty (i_district r))
  ∧ i_latitude r = 0%Z ∧ i_longitude r = 0%Z.
Proof.
  intros (Hmaker & Hrto & Hstate & Hcity & _ & v & Hparse & ->)
    %normalize_row_Some.
  apply parse_agrees in Hparse
    as (Hs & Hc & Hm & Hr & Hd & Hlat & Hlon & _).
  destruct (assemble_fields rowData)
    as (Es & Ec & Em & Er & Ed & Elat & Elon).
  rewrite Es in Hs. rewrite Ec in Hc. rewrite Em in Hm. rewrite Er in Hr.
  rewrite Ed in Hd. rewrite Elat in Hlat. rewrite Elon in Hlon.
  rewrite Hs in Hstate. rewrite Hc in Hcity. simpl in *.
  split_and!; done.
Qed.

(** X3: every record the normalizer accepts carries a maker and an rto
    that are not empty and have no white space at either end (trimming
    them again changes nothing), the state and the city of its text cells,
    both not empty, and the sentinel coordinates (0, 0). *)
Theorem accepted_row_is_clean
    (S : Schema) (rowData : gmap string JsVal) (r : InsertSalesData) :
  normalize_row S rowData = Some r →
  ∃ maker rto,
    i_maker r = Some maker ∧ i_rto r = Some rto
    ∧ maker ≠ "" ∧ rto ≠ ""
    ∧ trim maker = maker ∧ trim rto = rto
    ∧ state_of rowData = VStr (i_state r)
    ∧ city_of rowData = VStr (i_city r)
    ∧ i_state r ≠ "" ∧ i_city r ≠ ""
    ∧ i_latitude r = 0%Z ∧ i_longitude r = 0%Z.
Proof.
  intros (Hm & Hr & Hmne & Hrne & Hs & Hc & Hst & Hct & _ & Hlat & Hlon)
    %normalize_row_fields.
  exists (probe rowData possibleMakerColumns),
    (probe rowData possibleRTOColumns).
  split_and!; try done; try apply probe_trimmed.
  - intros Heq. by rewrite Heq in Hst.
  - intros Heq. by rewrite Heq in Hct.
Qed.

Lemma accepted_row_is_clean_witness :
  ∃ r maker rto,
    normalize_row typed_schema Sample.row_manufacturer = Some r
    ∧ i_maker r = Some maker ∧ i_rto r = Some rto
    ∧ maker ≠ "" ∧ rto ≠ ""
    ∧ trim maker = maker ∧ trim rto = rto
    ∧ state_of Sample.row_manufacturer = VStr (i_state r)
    ∧ city_of Sample.row_manufacturer = VStr (i_city r)
    ∧ i_state r ≠ "" ∧ i_city r ≠ ""
    ∧ i_latitude r = 0%Z ∧ i_longitude r = 0%Z.
Proof.
  destruct (normalize_row typed_schema Sample.row_manufacturer) as [r|] eqn:Hr;
    [|vm_compute in Hr; discriminate].
  destruct (accepted_row_is_clean typed_schema Sample.row_manufacturer r Hr)
    as (maker & rto & H).
  exists r, maker, rto. split; [reflexivity | exact H].
Defined.

(** *** Cells stored as text *)

Lemma or_text s b : s ≠ "" → or (VStr s) b = VStr s.
Proof.
  intros Hs. unfold or. simpl.
  destruct (str_truthy s) eqn:Ht; [done|]. by apply str_truthy_false in Ht.
Qed.

Lemma toString_num_not_empty n : toString (VNum n) ≠ "".
Proof.
  intros Heq. apply (trim_toString_num n). by rewrite Heq.
Qed.

(** X4: a cell stored as text that holds the decimal writing of an
    integer within 2^53 - 1 in magnitude (the integers a double holds
    exactly) is read as that integer: the year, each month and the
    explicit total parse the text of such a number back to the number,
    negative numbers and zero included. *)
Theorem text_cells_read_as_numbers
    (rowData : gmap string JsVal) (m : string) (n : Z) :
  within MAX_SAFE_INTEGER (Num n) = true →
  (prop rowData "Year" = VStr (toString (VNum n)) → year_of rowData = Num n)
  ∧ (prop rowData m = VStr (toString (VNum n)) →
     month_value rowData m = Num n)
  ∧ (prop rowData "total" = VStr (toString (VNum n)) →
     explicit_total rowData = Num n).
Proof.
  intros _.
  pose proof (toString_num_not_empty n) as Hne.
  assert (parseInt (VStr (toString (VNum n))) = Num n) as Hparse
    by apply (parseInt_toString_num n).
  unfold year_of, month_value, explicit_total.
  split_and!; intros ->; by rewrite !or_text.
Qed.

Lemma text_cells_read_as_numbers_witness :
  let rowData : gmap string JsVal :=
    <["Year" := VStr "2023"]> (<["JAN" := VStr "-7"]>
      (<["total" := VStr "0"]> Sample.row_2023)) in
  within MAX_SAFE_INTEGER (Num 2023) = true
  ∧ within MAX_SAFE_INTEGER (Num (-7)) = true
  ∧ within MAX_SAFE_INTEGER (Num 0) = true
  ∧ prop rowData "Year" = VStr (toString (VNum 2023))
  ∧ prop rowData "JAN" = VStr (toString (VNum (-7)))
  ∧ prop rowData "total" = VStr (toString (VNum 0))
  ∧ year_of rowData = Num 2023
  ∧ month_value rowData "JAN" = Num (-7)
  ∧ explicit_total rowData = Num 0.
Proof.
  intros rowData.
  assert (within MAX_SAFE_INTEGER (Num 2023) = true) as By by reflexivity.
  assert (within MAX_SAFE_INTEGER (Num (-7)) = true) as Bm by reflexivity.
  assert (within MAX_SAFE_INTEGER (Num 0) = true) as Bt by reflexivity.
  assert (prop rowData "Year" = VStr (toString (VNum 2023))) as Hy
    by (vm_compute; reflexivity).
  assert (prop rowData "JAN" = VStr (toString (VNum (-7)))) as Hm
    by (vm_compute; reflexivity).
  assert (prop rowData "total" = VStr (toString (VNum 0))) as Ht
    by (vm_compute; reflexivity).
  split; [exact By|]. split; [exact Bm|]. split; [exact Bt|].
  split; [exact Hy|]. split; [exact Hm|]. split; [exact Ht|].
  split;
    [exact (proj1 (text_cells_read_as_numbers rowData "JAN" 2023 By) Hy)|].
  split.
  - exact (proj1 (proj2 (text_cells_read_as_numbers rowData "JAN" (-7) Bm))
             Hm).
  - exact (proj2 (proj2 (text_cells_read_as_numbers rowData "JAN" 0 Bt)) Ht).
Defined.


(** ** More on the enrichment run *)

Import Routes.

Lemma fmap_map_set_same {V W} (g : Z * V → W) (m : list (Z * V)) k v v' :
  map_get k m = Some v → g (k, v') = g (k, v) →
  g <$> map_set k v' m = g <$> m.
Proof.
  intros Hget Hg.
  apply map_get_Some_split in Hget as (before & after & -> & Hnot).
  rewrite map_set_split by done. rewrite !fmap_app, !fmap_cons.
  by rewrite Hg.
Qed.

Lemma without_coordinates_update k lat lon s :
  without_coordinates (updateSalesDataCoordinates k lat lon s)
  = without_coordinates s.
Proof.
  unfold updateSalesDataCoordinates.
  destruct (map_get k (salesDataMap s)) as [data|] eqn:Hget; [|done].
  unfold without_coordinates. simpl. f_equal.
  by apply fmap_map_set_same with (v := data).
Qed.

Lemma List_filter_sublist {A} (f : A → bool) l : List.filter f l `sublist_of` l.
Proof.
  induction l as [|x l IH]; simpl; [constructor|].
  destruct (f x); by constructor.
Qed.

(** The first half of a batch, spelled out: the records with a cached key
    are written one after another, a lookup is sent for each of the
    others, in the order of the batch. *)
Lemma start_items_eq (cache : gmap string (Z * Z)) batch s sent :
  fold_left start_item batch (s, cache, sent)
  = (fold_left
       (λ s item,
          match cache !! cacheKey_of item with
          | Some coords =>
              updateSalesDataCoordinates (id item) coords.1 coords.2 s
          | None => s
          end) batch s,
     cache,
     sent ++ (lookup_of <$>
                List.filter
                  (λ item, bool_decide (cache !! cacheKey_of item = None))
                  batch)).
Proof.
  revert s sent. induction batch as [|item batch IH]; intros s sent.
  - simpl. by rewrite app_nil_r.
  - cbn [fold_left List.filter]. unfold start_item at 2.
    destruct (cache !! cacheKey_of item) as [coords|] eqn:Hkey.
    + rewrite IH. by rewrite bool_decide_eq_false_2.
    + rewrite IH. rewrite bool_decide_eq_true_2 by done.
      by rewrite fmap_cons, <- (assoc_L (++)).
Qed.

(** What the answers add to the cache. *)
Lemma finish_lookups_cache e ls s cache :
  ∀ key c,
    (fold_left (finish_lookup e) ls (s, cache)).2 !! key = Some c →
    cache !! key = Some c
    ∨ ∃ l, l ∈ ls ∧ l_cacheKey l = key
           ∧ respond e (id (l_item l)) (l_address l) = Some c.
Proof.
  revert s cache. induction ls as [|l ls IH]; intros s cache key c.
  - simpl. by left.
  - cbn [fold_left]. unfold finish_lookup at 2.
    destruct (respond e (id (l_item l)) (l_address l)) as [coords|] eqn:Hr.
    + intros [Hc|(l' & Hin & Hkey & Hl')]%IH.
      * destruct (decide (l_cacheKey l = key)) as [Heq|Hne].
        -- rewrite <- Heq, lookup_insert_eq in Hc. injection Hc as ->.
           right. exists l. split_and!; [by left | done | done].
        -- rewrite lookup_insert_ne in Hc by done. by left.
      * right. exists l'. split_and!; [by right | done | done].
    + intros [Hc|(l' & Hin & Hkey & Hl')]%IH; [by left|].
      right. exists l'. split_and!; [by right | done | done].
Qed.

Lemma finish_lookups_without_coordinates e ls s cache :
  without_coordinates (fold_left (finish_lookup e) ls (s, cache)).1
  = without_coordinates s.
Proof.
  revert s cache. induction ls as [|l ls IH]; intros s cache; [done|].
  cbn [fold_left]. unfold finish_lookup at 2.
  destruct (respond e (id (l_item l)) (l_address l)) as [coords|].
  - by rewrite IH, without_coordinates_update.
  - by rewrite IH.
Qed.

Lemma serve_cached_without_coordinates (cache : gmap string (Z * Z)) batch s :
  without_coordinates
    (fold_left
       (λ s item,
          match cache !! cacheKey_of item with
          | Some coords =>
              updateSalesDataCoordinates (id item) coords.1 coords.2 s
          | None => s
          end) batch s)
  = without_coordinates s.
Proof.
  revert s. induction batch as [|item batch IH]; intros s; [done|].
  cbn [fold_left]. rewrite IH.
  destruct (cache !! cacheKey_of item); [|done].
  apply without_coordinates_update.
Qed.

(** One batch, once more: what it sends, what it keeps, and where the
    entries of the cache come from. *)
Lemma batch_step_more e batch s (cache : gmap string (Z * Z)) log :
  ∃ s2 cache2,
    batch_step e batch (s, cache, log)
    = (s2, cache2,
       log ++ (lookup_of <$>
                 List.filter
                   (λ item, bool_decide (cache !! cacheKey_of item = None))
                   batch))
    ∧ without_coordinates s2 = without_coordinates s
    ∧ cache ⊆ cache2
    ∧ ∀ key c, cache2 !! key = Some c →
        cache !! key = Some c
        ∨ ∃ item, item ∈ batch ∧ cacheKey_of item = key
                  ∧ respond e (id item) (l_address (lookup_of item)) = Some c.
Proof.
  destruct (batch_step_spec e batch s cache log)
    as (s2' & cache2' & new' & Hstep' & _ & _ & _ & _ & Hkeep & _).
  unfold batch_step in *. rewrite start_items_eq in *. rewrite app_nil_l in *.
  set (s1 := fold_left _ batch s) in *.
  set (sent := lookup_of <$> List.filter _ batch) in *.
  pose proof (finish_lookups_without_coordinates e
                (merge_sort (arrives_before e) sent) s1 cache) as Hwc.
  pose proof (finish_lookups_cache e
                (merge_sort (arrives_before e) sent) s1 cache) as Hnew.
  destruct (fold_left (finish_lookup e) _ (s1, cache)) as [s2 cache2].
  injection Hstep' as <- <- _.
  exists s2, cache2. split_and!; [done | | |].
  - simpl in Hwc. rewrite Hwc. apply serve_cached_without_coordinates.
  - apply map_subseteq_spec. intros key c Hc. rewrite Hkeep; [done|by eexists].
  - intros key c [Hc|(l & Hin & Hkey & Hl)]%Hnew; [by left|].
    rewrite merge_sort_Permutation in Hin.
    apply list_elem_of_fmap in Hin as (item & -> & Hin).
    apply elem_of_List_filter in Hin as [_ Hin].
    right. by exists item.
Qed.

(** The whole loop. *)
Lemma geocode_from_more e items s (cache : gmap string (Z * Z)) :
  ∃ s' cache' log,
    geocode_from e (length items) 0 items (s, cache, []) = (s', cache', log)
    ∧ without_coordinates s' = without_coordinates s
    ∧ cache ⊆ cache'
    ∧ log `sublist_of` (lookup_of <$> items)
    ∧ ∀ key c, cache' !! key = Some c →
        cache !! key = Some c
        ∨ ∃ item, item ∈ items ∧ cacheKey_of item = key
                  ∧ respond e (id item) (l_address (lookup_of item)) = Some c.
Proof.
  unfold geocode_from.
  destruct (for_slices_from_invariant 10 items
              (λ _ batch acc, batch_step e batch acc) ltac:(lia)
              (λ i acc,
                 let '(s', cache', log) := acc in
                 without_coordinates s' = without_coordinates s
                 ∧ cache ⊆ cache'
                 ∧ log `sublist_of` (lookup_of <$> take i items)
                 ∧ ∀ key c, cache' !! key = Some c →
                     cache !! key = Some c
                     ∨ ∃ item, item ∈ items ∧ cacheKey_of item = key
                         ∧ respond e (id item) (l_address (lookup_of item))
                           = Some c))
      with (fuel := length items) (i := 0) (s := (s, cache, @nil Lookup))
    as (j & Hj & Hinv).
  - intros i [[s1 cache1] log1] Hi (Hwc & Hsub & Hlog & Hnew).
    destruct (batch_step_more e (slice i (i + 10) items) s1 cache1 log1)
      as (s2 & cache2 & -> & Hwc2 & Hsub2 & Hnew2).
    split_and!.
    + congruence.
    + by etrans.
    + rewrite take_add_slice, fmap_app. apply sublist_app; [done|].
      apply fmap_sublist, List_filter_sublist.
    + intros key c [Hc|(item & Hin & Hkey & Hr)]%Hnew2; [by apply Hnew|].
      right. exists item. split_and!; [by eapply elem_of_slice | done | done].
  - lia.
  - split_and!; [done | done | constructor | by left].
  - destruct (for_slices_from _ _ _ _ _ _) as [[s' cache'] log].
    destruct Hinv as (Hwc & Hsub & Hlog & Hnew).
    exists s', cache', log. split_and!; try done.
    by rewrite take_ge in Hlog by lia.
Qed.

(** One run. *)
Lemma run_more e w :
  let r := updateCoordinatesInBackground e w in
  without_coordinates (storage r.1) = without_coordinates (storage w)
  ∧ uploadStatus r.1 = uploadStatus w
  ∧ geocodingCache w ⊆ geocodingCache r.1
  ∧ r.2 `sublist_of` (lookup_of <$> itemsNeedingGeocode (storage w))
  ∧ ∀ key c, geocodingCache r.1 !! key = Some c →
      geocodingCache w !! key = Some c
      ∨ ∃ item, item ∈ itemsNeedingGeocode (storage w)
                ∧ cacheKey_of item = key
                ∧ respond e (id item) (l_address (lookup_of item)) = Some c.
Proof.
  unfold updateCoordinatesInBackground.
  assert (let r := (w, @nil Geocode.Lookup) in
          without_coordinates (storage r.1) = without_coordinates (storage w)
          ∧ uploadStatus r.1 = uploadStatus w
          ∧ geocodingCache w ⊆ geocodingCache r.1
          ∧ r.2 `sublist_of` (lookup_of <$> itemsNeedingGeocode (storage w))
          ∧ ∀ key c, geocodingCache r.1 !! key = Some c →
              geocodingCache w !! key = Some c
              ∨ ∃ item, item ∈ itemsNeedingGeocode (storage w)
                        ∧ cacheKey_of item = key
                        ∧ respond e (id item) (l_address (lookup_of item))
                          = Some c) as Hidle.
  { simpl. split_and!; [done | done | done | apply sublist_nil_l | by left]. }
  destruct (apiKey e) as [key|]; [|exact Hidle].
  destruct (str_truthy key); [|exact Hidle].
  destruct (geocode_from_more e (itemsNeedingGeocode (storage w)) (storage w)
              (geocodingCache w))
    as (s' & cache' & log & -> & Hwc & Hsub & Hlog & Hnew).
  simpl. split_and!; done.
Qed.

(** Any number of runs. *)
Lemma runs_more es w :
  without_coordinates (storage (runs es w)) = without_coordinates (storage w)
  ∧ uploadStatus (runs es w) = uploadStatus w
  ∧ geocodingCache w ⊆ geocodingCache (runs es w).
Proof.
  unfold runs. revert w. induction es as [|e es IH]; intros w; [done|].
  cbn [fold_left]. destruct (run_more e w) as (Hwc & Hup & Hsub & _).
  destruct (IH (updateCoordinatesInBackground e w).1) as (-> & -> & Hsub').
  split_and!; [done | done | by etrans].
Qed.

(** X5: enrichment runs change nothing but coordinates: after any number
    of runs, whatever the service answers, the store holds the same
    records in the same order under the same ids, with every field other
    than latitude and longitude as it was, the id counter is the same, and
    the table of upload jobs is untouched. *)
Theorem runs_change_coordinates_only (es : list Env) (w : World) :
  without_coordinates (storage (runs es w)) = without_coordinates (storage w)
  ∧ id <$> getAllSalesData (storage (runs es w))
    = id <$> getAllSalesData (storage w)
  ∧ uploadStatus (runs es w) = uploadStatus w.
Proof.
  destruct (runs_more es w) as (Hwc & Hup & _).
  split_and!; [done | | done].
  apply (f_equal (λ s, (λ kv, id kv.2) <$> salesDataMap s)) in Hwc.
  unfold without_coordinates in Hwc. simpl in Hwc.
  rewrite <- !list_fmap_compose in Hwc.
  unfold getAllSalesData, map_values. rewrite <- !list_fmap_compose.
  exact Hwc.
Qed.

(** X6: the geocoding cache only grows: an entry is never dropped and
    never changed by a run, and every entry a run adds is the answer of
    the service to the lookup of a scanned record with this "city, state"
    key. *)
Theorem cache_entries_are_kept (es : list Env) (e : Env) (w : World) :
  geocodingCache w ⊆ geocodingCache (runs es w)
  ∧ ∀ key c,
      geocodingCache (updateCoordinatesInBackground e w).1 !! key = Some c →
      geocodingCache w !! key = Some c
      ∨ ∃ item, item ∈ itemsNeedingGeocode (storage w)
                ∧ city item +:+ ", " +:+ state item = key
                ∧ respond e (id item)
                    (city item +:+ ", " +:+ state item +:+ ", India")
                  = Some c.
Proof.
  split.
  - by destruct (runs_more es w) as (_ & _ & ?).
  - destruct (run_more e w) as (_ & _ & _ & _ & Hnew). exact Hnew.
Qed.

Lemma cache_entries_are_kept_witness :
  let e := Sample.geocoder in
  let w := Sample.world_of Sample.two_pune in
  geocodingCache (updateCoordinatesInBackground e w).1 !! "Pune, Maharashtra"
  = Some (20, 75)%Z
  ∧ (geocodingCache w !! "Pune, Maharashtra" = Some (20, 75)%Z
     ∨ ∃ item, item ∈ itemsNeedingGeocode (storage w)
               ∧ city item +:+ ", " +:+ state item = "Pune, Maharashtra"
               ∧ respond e (id item)
                   (city item +:+ ", " +:+ state item +:+ ", India")
                 = Some (20, 75)%Z).
Proof.
  intros e w.
  assert (geocodingCache (updateCoordinatesInBackground e w).1
            !! "Pune, Maharashtra" = Some (20, 75)%Z) as Hc
    by (vm_compute; reflexivity).
  split; [exact Hc|].
  exact (proj2 (cache_entries_are_kept [] e w) "Pune, Maharashtra" _ Hc).
Defined.

(** X7: every lookup of a run is the lookup of a record of its scan (a
    stored record with coordinates (0, 0) and a non-empty state and city),
    sent for the address "city, state, India"; the lookups go out in the
    order of the scan, at most one for each scanned record. *)
Theorem lookups_follow_the_scan (e : Env) (w : World) :
  let log := (updateCoordinatesInBackground e w).2 in
  log `sublist_of` (lookup_of <$> itemsNeedingGeocode (storage w))
  ∧ length log ≤ length (itemsNeedingGeocode (storage w))
  ∧ Forall (λ l, needs_geocode (l_item l) = true
                 ∧ l_item l ∈ getAllSalesData (storage w)
                 ∧ l_address l
                   = city (l_item l) +:+ ", " +:+ state (l_item l)
                     +:+ ", India") log.
Proof.
  destruct (run_more e w) as (_ & _ & _ & Hlog & _).
  intros log. fold log in Hlog. split_and!; [done | |].
  - apply sublist_length in Hlog. by rewrite length_fmap in Hlog.
  - apply Forall_forall. intros l Hl.
    assert (l ∈ lookup_of <$> itemsNeedingGeocode (storage w)) as Hin.
    { clear -Hlog Hl. induction Hlog as [|x l1 l2 _ IH|x l1 l2 _ IH].
      - done.
      - apply elem_of_cons in Hl as [->|Hl]; [left | right; by apply IH].
      - right. by apply IH. }
    apply list_elem_of_fmap in Hin as (item & -> & Hin).
    apply itemsNeedingGeocode_stored in Hin as [Hneeds Hin]. done.
Qed.


(** *** A run against a service that does not answer *)

Lemma List_filter_all {A} (f : A → bool) l :
  (∀ x, x ∈ l → f x = true) → List.filter f l = l.
Proof.
  induction l as [|x l IH]; simpl; [done|]. intros Hall.
  rewrite (Hall x) by left. f_equal. apply IH. intros y Hy. apply Hall. by right.
Qed.

Lemma finish_lookups_unanswered e ls acc :
  (∀ l, l ∈ ls → respond e (id (l_item l)) (l_address l) = None) →
  fold_left (finish_lookup e) ls acc = acc.
Proof.
  revert acc. induction ls as [|l ls IH]; intros [s cache] Hall; [done|].
  cbn [fold_left]. unfold finish_lookup at 2. rewrite (Hall l) by left.
  apply IH. intros l' Hl'. apply Hall. by right.
Qed.

Lemma serve_cached_none (cache : gmap string (Z * Z)) batch s :
  (∀ item, item ∈ batch → cache !! cacheKey_of item = None) →
  fold_left
    (λ s item,
       match cache !! cacheKey_of item with
       | Some coords =>
           updateSalesDataCoordinates (id item) coords.1 coords.2 s
       | None => s
       end) batch s
  = s.
Proof.
  revert s. induction batch as [|item batch IH]; intros s Hall; [done|].
  cbn [fold_left]. rewrite (Hall item) by left.
  apply IH. intros item' Hin. apply Hall. by right.
Qed.

(** X8: a run against a geocoding service that answers none of its
    lookups, on a cache that holds the key of no scanned record, leaves
    the store, the cache and the job table exactly as they were, and has
    sent one lookup for every scanned record, in the order of the scan:
    a failed lookup writes nothing, and the record stays in the scan of the
    next run. *)
Theorem unanswered_run_changes_nothing (e : Env) (w : World) (key : string) :
  apiKey e = Some key → str_truthy key = true →
  (∀ item, item ∈ itemsNeedingGeocode (storage w) →
           respond e (id item)
             (city item +:+ ", " +:+ state item +:+ ", India") = None) →
  (∀ item, item ∈ itemsNeedingGeocode (storage w) →
           geocodingCache w !! (city item +:+ ", " +:+ state item) = None) →
  updateCoordinatesInBackground e w
  = (w, lookup_of <$> itemsNeedingGeocode (storage w))
  ∧ itemsNeedingGeocode (storage (updateCoordinatesInBackground e w).1)
    = itemsNeedingGeocode (storage w).
Proof.
  intros Hkey Htruthy Hdown Hmiss.
  assert (updateCoordinatesInBackground e w
          = (w, lookup_of <$> itemsNeedingGeocode (storage w))) as Hrun.
  { unfold updateCoordinatesInBackground. rewrite Hkey, Htruthy.
    set (items := itemsNeedingGeocode (storage w)) in *.
    unfold geocode_from.
    destruct (for_slices_from_invariant 10 items
                (λ _ batch acc, batch_step e batch acc) ltac:(lia)
                (λ i acc,
                   acc = (storage w, geocodingCache w,
                          lookup_of <$> take i items)))
        with (fuel := length items) (i := 0)
             (s := (storage w, geocodingCache w, @nil Geocode.Lookup))
      as (j & Hj & ->).
    - intros i acc Hi ->. unfold batch_step.
      assert (∀ item, item ∈ slice i (i + 10) items → item ∈ items) as Hin
        by (intros item; apply elem_of_slice).
      rewrite start_items_eq, app_nil_l.
      rewrite serve_cached_none
        by (intros item Hitem; by apply Hmiss, Hin).
      rewrite List_filter_all.
      2:{ intros item Hitem. apply bool_decide_eq_true_2. by apply Hmiss, Hin. }
      rewrite finish_lookups_unanswered.
      2:{ intros l Hl. rewrite merge_sort_Permutation in Hl.
          apply list_elem_of_fmap in Hl as (item & -> & Hitem).
          by apply Hdown, Hin. }
      by rewrite take_add_slice, fmap_app.
    - lia.
    - done.
    - rewrite take_ge by lia. by destruct w. }
  split; [exact Hrun|]. by rewrite Hrun.
Qed.

Lemma unanswered_run_changes_nothing_witness :
  let e := Cases.no_answer in
  let w := Sample.world_of Sample.two_pune in
  apiKey e = Some "key" ∧ str_truthy "key" = true
  ∧ (∀ item, item ∈ itemsNeedingGeocode (storage w) →
             respond e (id item)
               (city item +:+ ", " +:+ state item +:+ ", India") = None)
  ∧ (∀ item, item ∈ itemsNeedingGeocode (storage w) →
             geocodingCache w !! (city item +:+ ", " +:+ state item) = None)
  ∧ updateCoordinatesInBackground e w
    = (w, lookup_of <$> itemsNeedingGeocode (storage w))
  ∧ itemsNeedingGeocode (storage (updateCoordinatesInBackground e w).1)
    = itemsNeedingGeocode (storage w).
Proof.
  intros e w.
  assert (apiKey e = Some "key") as Hkey by reflexivity.
  assert (str_truthy "key" = true) as Htruthy by reflexivity.
  assert (∀ item, item ∈ itemsNeedingGeocode (storage w) →
            respond e (id item)
              (city item +:+ ", " +:+ state item +:+ ", India") = None)
    as Hdown by reflexivity.
  assert (∀ item, item ∈ itemsNeedingGeocode (storage w) →
            geocodingCache w !! (city item +:+ ", " +:+ state item) = None)
    as Hmiss by (intros item _; apply lookup_empty).
  split; [exact Hkey|]. split; [exact Htruthy|].
  split; [exact Hdown|]. split; [exact Hmiss|].
  exact (unanswered_run_changes_nothing e w "key" Hkey Htruthy Hdown Hmiss).
Defined.


(** *** A run against a service that answers *)

(** The coordinates the answers leave: those of the answer for a lookup
    that succeeds, the former ones for a lookup that fails. *)
Lemma finish_lookups_coordinates e ls s cache l :
  NoDup ((λ l, id (l_item l)) <$> ls) → l ∈ ls →
  is_Some (map_get (id (l_item l)) (salesDataMap s)) →
  coordinates (id (l_item l)) (fold_left (finish_lookup e) ls (s, cache)).1
  = match respond e (id (l_item l)) (l_address l) with
    | Some c => Some c
    | None => coordinates (id (l_item l)) s
    end.
Proof.
  revert s cache. induction ls as [|l0 ls IH]; intros s cache Hnd Hin Hsome.
  { by apply elem_of_nil in Hin. }
  rewrite fmap_cons in Hnd. apply NoDup_cons in Hnd as [Hnot Hnd].
  cbn [fold_left].
  apply elem_of_cons in Hin as [->|Hin].
  - destruct (finish_lookups_spec e ls (finish_lookup e (s, cache) l0).1
                (finish_lookup e (s, cache) l0).2)
      as (s2 & cache2 & Hfold & _ & _ & Hframe & _).
    rewrite <- surjective_pairing in Hfold. rewrite Hfold. simpl.
    unfold coordinates. rewrite Hframe.
    2:{ intros l' Hl' Heq. apply Hnot. rewrite <- Heq.
        by apply (list_elem_of_fmap_2 (λ l, id (l_item l))). }
    unfold finish_lookup.
    destruct (respond e (id (l_item l0)) (l_address l0)) as [c|]; [|done].
    simpl. fold (coordinates (id (l_item l0))
                   (updateSalesDataCoordinates (id (l_item l0)) c.1 c.2 s)).
    rewrite coordinates_update by done. by destruct c.
  - assert (id (l_item l0) ≠ id (l_item l)) as Hne.
    { intros Heq. apply Hnot. rewrite Heq.
      by apply (list_elem_of_fmap_2 (λ l, id (l_item l))). }
    unfold finish_lookup at 2.
    destruct (respond e (id (l_item l0)) (l_address l0)) as [c0|].
    + rewrite IH; [|done|done|].
      * unfold coordinates. rewrite update_get.
        by destruct (decide (id (l_item l) = id (l_item l0))).
      * rewrite update_get.
        by destruct (decide (id (l_item l) = id (l_item l0))).
    + by apply IH.
Qed.

(** The coordinates a batch leaves to each of its records: the cached
    pair when the key is cached as the batch starts, otherwise the answer
    to its lookup, or what it had when the lookup fails. *)
Lemma batch_step_coordinates e batch s (cache : gmap string (Z * Z)) log item :
  NoDup (id <$> batch) →
  (∀ item, item ∈ batch → is_Some (map_get (id item) (salesDataMap s))) →
  item ∈ batch →
  coordinates (id item) (batch_step e batch (s, cache, log)).1.1
  = match cache !! cacheKey_of item with
    | Some c => Some c
    | None =>
        match respond e (id item) (l_address (lookup_of item)) with
        | Some c => Some c
        | None => coordinates (id item) s
        end
    end.
Proof.
  intros Hnd Hstored Hin.
  destruct (batch_step_spec e batch s cache log)
    as (s2' & cache2' & new' & Hstep' & _ & _ & _ & _ & _ & _ & Hhit).
  destruct (cache !! cacheKey_of item) as [c|] eqn:Hkey.
  { rewrite Hstep'. simpl. by apply Hhit; [|exact Hin| |apply Hstored]. }
  clear Hstep' Hhit.
  destruct (start_items_spec cache batch s [])
    as (s1' & new1 & Hstart & _ & Hkeys1 & _ & Hframe1 & _).
  unfold batch_step. rewrite start_items_eq in *. rewrite app_nil_l in *.
  injection Hstart as Hs1 _.
  set (sent := lookup_of <$> List.filter _ batch) in *.
  assert (NoDup ((λ l, id (l_item l)) <$> merge_sort (arrives_before e) sent))
    as Hnd'.
  { rewrite merge_sort_Permutation. unfold sent.
    rewrite <- list_fmap_compose. by apply NoDup_fmap_List_filter. }
  assert (lookup_of item ∈ merge_sort (arrives_before e) sent) as Hsent.
  { rewrite merge_sort_Permutation. apply list_elem_of_fmap_2.
    apply elem_of_List_filter. split; [|done].
    by apply bool_decide_eq_true_2. }
  assert (map_get (id item) (salesDataMap s1')
          = map_get (id item) (salesDataMap s)) as Hsame.
  { apply Hframe1. intros item' Hin' [c' Hc'] Heq.
    assert (item' = item) as -> by (by eapply (NoDup_fmap_eq id batch)).
    congruence. }
  rewrite Hs1.
  pose proof (finish_lookups_coordinates e _ s1' cache (lookup_of item)
                Hnd' Hsent) as Hfin.
  simpl in Hfin. rewrite Hsame in Hfin. specialize (Hfin (Hstored _ Hin)).
  destruct (fold_left (finish_lookup e) _ (s1', cache)) as [s2 cache2].
  simpl in *. rewrite Hfin.
  destruct (respond e (id item) _); [done|].
  unfold coordinates. by rewrite Hsame.
Qed.

Lemma needs_geocode_sentinel item :
  needs_geocode item = true → (latitude item, longitude item) = (0, 0)%Z.
Proof.
  unfold needs_geocode. rewrite !andb_true_iff.
  intros [[[Hlat Hlon] _] _]. apply Z.eqb_eq in Hlat, Hlon. congruence.
Qed.

(** The loop against a service whose answers are never the sentinel. *)
Lemma geocode_from_enriches e items s (cache : gmap string (Z * Z)) :
  store_ok s → NoDup (id <$> items) →
  (∀ item, item ∈ items → is_Some (map_get (id item) (salesDataMap s))) →
  (∀ item, item ∈ items →
     ∃ c, respond e (id item) (l_address (lookup_of item)) = Some c
          ∧ c ≠ (0, 0)%Z) →
  (∀ key c, cache !! key = Some c → c ≠ (0, 0)%Z) →
  ∀ item, item ∈ items →
    ∃ c, coordinates (id item)
           (geocode_from e (length items) 0 items (s, cache, [])).1.1 = Some c
         ∧ c ≠ (0, 0)%Z.
Proof.
  intros Hok Hnd Hstored Hanswers Hcache.
  unfold geocode_from.
  destruct (for_slices_from_invariant 10 items
              (λ _ batch acc, batch_step e batch acc) ltac:(lia)
              (λ i acc,
                 map_keys (salesDataMap acc.1.1) = map_keys (salesDataMap s)
                 ∧ (∀ key c, acc.1.2 !! key = Some c → c ≠ (0, 0)%Z)
                 ∧ ∀ item, item ∈ take i items →
                     ∃ c, coordinates (id item) acc.1.1 = Some c
                          ∧ c ≠ (0, 0)%Z))
      with (fuel := length items) (i := 0)
           (s := (s, cache, @nil Geocode.Lookup))
    as (j & Hj & _ & _ & Hall).
  - intros i [[s1 cache1] log1] Hi (Hkeys & Hcache1 & Hdone).
    simpl in Hkeys, Hcache1, Hdone.
    set (batch := slice i (i + 10) items).
    destruct (slice_parts items 0 i 10 ltac:(lia)) as [Hparts _].
    assert (NoDup (id <$> batch)) as Hndb.
    { rewrite Hparts, !fmap_app in Hnd. simpl in Hnd.
      apply NoDup_app in Hnd as (_ & _ & Hnd).
      by apply NoDup_app in Hnd as (Hnd & _ & _). }
    assert (∀ item, item ∈ batch → item ∈ items) as Hsub
      by (intros item; apply elem_of_slice).
    assert (∀ item, item ∈ batch →
              is_Some (map_get (id item) (salesDataMap s1))) as Hstored1.
    { intros item Hin. apply map_get_is_Some. rewrite Hkeys.
      by apply map_get_is_Some, Hstored, Hsub. }
    destruct (batch_step_spec e batch s1 cache1 log1)
      as (s2 & cache2 & new & Hstep & _ & Hkeys2 & _ & Hframe & _).
    destruct (batch_step_more e batch s1 cache1 log1)
      as (s2' & cache2' & Hstep' & _ & _ & Hnew).
    pose proof (batch_step_coordinates e batch s1 cache1 log1) as Hcoords.
    rewrite Hstep in Hstep', Hcoords. injection Hstep' as <- <- _.
    rewrite Hstep. cbn [fst snd]. cbn [fst snd] in Hcoords. split_and!.
    + congruence.
    + intros key c [Hc|(item & Hin & _ & Hr)]%Hnew; [by eapply Hcache1|].
      destruct (Hanswers item (Hsub _ Hin)) as (c' & Hc' & Hne). congruence.
    + rewrite take_add_slice. fold batch.
      intros item [Hin|Hin]%elem_of_app.
      * destruct (Hdone item Hin) as (c & Hc & Hne). exists c. split; [|done].
        unfold coordinates. rewrite Hframe; [done|].
        intros (item' & Heq & Hin')%list_elem_of_fmap.
        rewrite Hparts, !fmap_app in Hnd. simpl in Hnd.
        apply NoDup_app in Hnd as (_ & Hdisj & _).
        apply (Hdisj (id item)).
        -- apply list_elem_of_fmap_2.
           unfold slice. rewrite Nat.sub_0_r, drop_0. exact Hin.
        -- apply elem_of_app. left. rewrite Heq. by apply list_elem_of_fmap_2.
      * rewrite (Hcoords item Hndb Hstored1 Hin).
        destruct (cache1 !! cacheKey_of item) as [c|] eqn:Hkey.
        -- exists c. split; [done | by eapply Hcache1].
        -- destruct (Hanswers item (Hsub _ Hin)) as (c & -> & Hne).
           by exists c.
  - lia.
  - simpl. split_and!; [done | done |]. intros item Hin.
    rewrite take_0 in Hin. by apply elem_of_nil in Hin.
  - intros item Hin. apply Hall. by rewrite take_ge by lia.
Qed.

Lemma List_filter_none {A} (f : A → bool) l :
  (∀ x, x ∈ l → f x = false) → List.filter f l = [].
Proof.
  induction l as [|x l IH]; simpl; [done|]. intros Hall.
  rewrite (Hall x) by left. apply IH. intros y Hy. apply Hall. by right.
Qed.

Lemma run_on_empty_scan e w :
  itemsNeedingGeocode (storage w) = [] →
  updateCoordinatesInBackground e w = (w, []).
Proof.
  intros Hscan. unfold updateCoordinatesInBackground.
  destruct (apiKey e) as [key|]; [|done].
  destruct (str_truthy key); [|done].
  rewrite Hscan. simpl. by destruct w.
Qed.

(** A run against a service that answers every lookup: every scanned
    record is left with coordinates, and the next scan is empty. *)
Lemma run_against_answering_service e w key :
  store_ok (storage w) →
  apiKey e = Some key → str_truthy key = true →
  (∀ id address, ∃ c, respond e id address = Some c ∧ c ≠ (0, 0)%Z) →
  (∀ key c, geocodingCache w !! key = Some c → c ≠ (0, 0)%Z) →
  let w' := (updateCoordinatesInBackground e w).1 in
  (∀ item, item ∈ itemsNeedingGeocode (storage w) →
     ∃ c, coordinates (id item) (storage w') = Some c ∧ c ≠ (0, 0)%Z)
  ∧ itemsNeedingGeocode (storage w') = [].
Proof.
  intros Hok Hkey Htruthy Hanswers Hcache w'.
  set (items := itemsNeedingGeocode (storage w)).
  assert (NoDup (id <$> items)) as Hnd
    by (by apply NoDup_fmap_List_filter, stored_ids_NoDup).
  assert (∀ item, item ∈ items →
            map_get (id item) (salesDataMap (storage w)) = Some item)
    as Hstored.
  { intros item [_ Hin]%itemsNeedingGeocode_stored.
    by apply stored_record_get. }
  destruct (geocode_from_frame e (length items) 0 items (storage w)
              (geocodingCache w) [] ltac:(lia))
    as (s' & cache' & log & Hrun & Hkeys & Hok' & Hframe & _).
  pose proof (geocode_from_enriches e items (storage w) (geocodingCache w)
                Hok Hnd) as Hdone.
  rewrite Hrun in Hdone. cbn [fst] in Hdone.
  assert (storage w' = s') as Hs'.
  { unfold w', updateCoordinatesInBackground. rewrite Hkey, Htruthy.
    fold items. by rewrite Hrun. }
  rewrite Hs'.
  assert (∀ item, item ∈ items →
            ∃ c, coordinates (id item) s' = Some c ∧ c ≠ (0, 0)%Z) as Hall.
  { apply Hdone.
    - intros item Hin. rewrite (Hstored item Hin). by eexists.
    - intros item _. apply Hanswers.
    - exact Hcache. }
  assert (itemsNeedingGeocode s' = []) as Hscan.
  { apply List_filter_none. intros r' Hr'.
    destruct (needs_geocode r') eqn:Hneeds; [exfalso|done].
    pose proof (needs_geocode_sentinel r' Hneeds) as Hzero.
    pose proof (stored_record_get s' r' (Hok' Hok) Hr') as Hget'.
    assert (is_Some (map_get (id r') (salesDataMap (storage w)))) as [r Hget].
    { apply map_get_is_Some. rewrite <- Hkeys. apply map_get_is_Some.
      by eexists. }
    assert (r ∈ getAllSalesData (storage w)) as Hr.
    { apply map_get_Some_elem in Hget. unfold getAllSalesData, map_values.
      apply list_elem_of_fmap. by exists (id r', r). }
    destruct (decide (r ∈ items)) as [Hin|Hout].
    - assert (id r = id r') as Hid.
      { apply map_get_Some_elem in Hget.
        destruct Hok as [_ Hall']. rewrite Forall_forall in Hall'.
        by destruct (Hall' _ Hget). }
      destruct (Hall r Hin) as (c & Hc & Hne).
      unfold coordinates in Hc. rewrite Hid, Hget' in Hc. simpl in Hc.
      congruence.
    - rewrite Hframe in Hget'.
      + assert (r' = r) as -> by congruence.
        apply Hout. by apply itemsNeedingGeocode_stored.
      + intros (item & Heq & Hin)%list_elem_of_fmap.
        pose proof (Hstored item Hin) as Hitem.
        rewrite <- Heq, Hget in Hitem. injection Hitem as ->.
        by apply Hout. }
  split; done.
Qed.

(** X9: a run against a service that answers every lookup with
    coordinates other than (0, 0), on a cache that holds no (0, 0) pair,
    leaves every scanned record with coordinates other than (0, 0); the
    scan of the store it leaves is empty, so that a further run, in any
    environment, sends no lookup and changes nothing. *)
Theorem answered_run_completes_the_enrichment
    (e : Env) (w : World) (key : string) :
  store_ok (storage w) →
  apiKey e = Some key → str_truthy key = true →
  (∀ id address, ∃ c, respond e id address = Some c ∧ c ≠ (0, 0)%Z) →
  (∀ key c, geocodingCache w !! key = Some c → c ≠ (0, 0)%Z) →
  let w' := (updateCoordinatesInBackground e w).1 in
  (∀ item, item ∈ itemsNeedingGeocode (storage w) →
     ∃ c, coordinates (id item) (storage w') = Some c ∧ c ≠ (0, 0)%Z)
  ∧ itemsNeedingGeocode (storage w') = []
  ∧ ∀ e', updateCoordinatesInBackground e' w' = (w', []).
Proof.
  intros Hok Hkey Htruthy Hanswers Hcache w'.
  destruct (run_against_answering_service e w key Hok Hkey Htruthy
              Hanswers Hcache) as [Hall Hscan].
  fold w' in Hall, Hscan. split_and!; [exact Hall | exact Hscan |].
  intros e'. by apply run_on_empty_scan.
Qed.


Lemma answered_run_completes_the_enrichment_witness :
  let e := Sample.geocoder in
  let w := Sample.world_of Sample.eleven in
  store_ok (storage w)
  ∧ apiKey e = Some "key" ∧ str_truthy "key" = true
  ∧ (∀ id address, ∃ c, respond e id address = Some c ∧ c ≠ (0, 0)%Z)
  ∧ (∀ key c, geocodingCache w !! key = Some c → c ≠ (0, 0)%Z)
  ∧ let w' := (updateCoordinatesInBackground e w).1 in
    (∀ item, item ∈ itemsNeedingGeocode (storage w) →
       ∃ c, coordinates (id item) (storage w') = Some c ∧ c ≠ (0, 0)%Z)
    ∧ itemsNeedingGeocode (storage w') = []
    ∧ ∀ e', updateCoordinatesInBackground e' w' = (w', []).
Proof.
  intros e w.
  assert (store_ok (storage w)) as Hok
    by apply createMultipleSalesData_store_ok, store_ok_empty.
  assert (apiKey e = Some "key") as Hkey by reflexivity.
  assert (str_truthy "key" = true) as Htruthy by reflexivity.
  assert (∀ id address, ∃ c, respond e id address = Some c ∧ c ≠ (0, 0)%Z)
    as Hanswers.
  { intros id address. exists (18 + id, 73 + id)%Z.
    split; [reflexivity|]. intros [= H1 H2]. lia. }
  assert (∀ key c, geocodingCache w !! key = Some c → c ≠ (0, 0)%Z) as Hcache.
  { intros key c Hc. simpl in Hc. by rewrite lookup_empty in Hc. }
  split; [exact Hok|]. split; [exact Hkey|]. split; [exact Htruthy|].
  split; [exact Hanswers|]. split; [exact Hcache|].
  exact (answered_run_completes_the_enrichment e w "key"
           Hok Hkey Htruthy Hanswers Hcache).
Defined.


(** *** The order in which the answers arrive *)

(** The address of a lookup is its cache key followed by the country. *)
Lemma lookup_of_address item :
  l_address (lookup_of item) = l_cacheKey (lookup_of item) +:+ ", India".
Proof.
  unfold lookup_of, cacheKey_of. cbn [l_address l_cacheKey].
  by rewrite !append_assoc.
Qed.

Lemma finish_lookup_comm e acc l1 l2 :
  id (l_item l1) ≠ id (l_item l2) →
  (l_cacheKey l1 = l_cacheKey l2 →
   respond e (id (l_item l1)) (l_address l1)
   = respond e (id (l_item l2)) (l_address l2)) →
  finish_lookup e (finish_lookup e acc l1) l2
  = finish_lookup e (finish_lookup e acc l2) l1.
Proof.
  intros Hne Hsame. destruct acc as [s cache]. unfold finish_lookup.
  destruct (respond e (id (l_item l1)) (l_address l1)) as [c1|] eqn:H1;
    destruct (respond e (id (l_item l2)) (l_address l2)) as [c2|] eqn:H2;
    rewrite ?H1, ?H2; try done.
  f_equal.
  - by apply update_comm.
  - destruct (decide (l_cacheKey l1 = l_cacheKey l2)) as [Heq|Hkey].
    + specialize (Hsame Heq). injection Hsame as ->. by rewrite Heq.
    + by apply insert_insert_ne.
Qed.

(** Answers to lookups of different records can be handled in any order. *)
Lemma finish_lookups_permutation e ls ls' acc :
  NoDup ((λ l, id (l_item l)) <$> ls) →
  (∀ l1 l2, l1 ∈ ls → l2 ∈ ls → l_cacheKey l1 = l_cacheKey l2 →
            respond e (id (l_item l1)) (l_address l1)
            = respond e (id (l_item l2)) (l_address l2)) →
  ls ≡ₚ ls' →
  fold_left (finish_lookup e) ls acc = fold_left (finish_lookup e) ls' acc.
Proof.
  intros Hnd Hsame Hperm.
  rewrite <- !(fold_left_rev_right (λ l acc, finish_lookup e acc l)).
  apply (foldr_permutation (=) (λ l acc, finish_lookup e acc l) acc).
  - assert (rev ls ≡ₚ ls) as Hrev by (symmetry; apply Permutation_rev).
    intros j1 l1 j2 l2 b Hj Hl1 Hl2.
    assert (l1 ∈ ls ∧ l2 ∈ ls) as [Hin1 Hin2].
    { split; rewrite <- Hrev; by eapply list_elem_of_lookup_2. }
    symmetry. apply finish_lookup_comm; [|by apply Hsame].
    intros Heq. apply Hj.
    apply (NoDup_lookup ((λ l, id (l_item l)) <$> rev ls) j1 j2
             (id (l_item l1))).
    + by rewrite Hrev.
    + by rewrite list_lookup_fmap, Hl1.
    + by rewrite list_lookup_fmap, Hl2, Heq.
  - by apply Permutation_rev'.
Qed.

Lemma for_slices_from_ext {A S} fuel i size (a : list A)
    (body body' : nat → list A → S → S) s :
  (∀ i s, body i (slice i (i + size) a) s = body' i (slice i (i + size) a) s) →
  for_slices_from fuel i size a body s = for_slices_from fuel i size a body' s.
Proof.
  intros Hext. revert i s. induction fuel as [|fuel IH]; intros i s; [done|].
  simpl. destruct (i <? length a); [|done]. rewrite Hext. apply IH.
Qed.

Lemma finish_lookups_ext e e' ls acc :
  (∀ id address, respond e' id address = respond e id address) →
  fold_left (finish_lookup e') ls acc = fold_left (finish_lookup e) ls acc.
Proof.
  intros Hext. revert acc. induction ls as [|l ls IH]; intros acc; [done|].
  cbn [fold_left]. rewrite IH. f_equal.
  destruct acc as [s cache]. unfold finish_lookup. by rewrite Hext.
Qed.

Lemma batch_step_arrival e e' batch acc :
  (∀ id address, respond e' id address = respond e id address) →
  (∀ id id' address, respond e id address = respond e id' address) →
  NoDup (id <$> batch) →
  batch_step e' batch acc = batch_step e batch acc.
Proof.
  intros Hext Haddr Hnd. destruct acc as [[s cache] log]. unfold batch_step.
  rewrite start_items_eq, app_nil_l.
  set (sent := lookup_of <$> List.filter _ batch).
  rewrite (finish_lookups_ext e e') by done.
  rewrite (finish_lookups_permutation e
             (merge_sort (arrives_before e') sent)
             (merge_sort (arrives_before e) sent)); [done|..].
  - rewrite merge_sort_Permutation. unfold sent.
    rewrite <- list_fmap_compose. by apply NoDup_fmap_List_filter.
  - intros l1 l2 Hl1 Hl2 Hkey. rewrite merge_sort_Permutation in Hl1, Hl2.
    apply list_elem_of_fmap in Hl1 as (item1 & -> & _).
    apply list_elem_of_fmap in Hl2 as (item2 & -> & _).
    rewrite !lookup_of_address, Hkey. apply Haddr.
  - by rewrite !merge_sort_Permutation.
Qed.

(** X10: when the answer of the geocoding service depends on the address
    only, the outcome of a run does not depend on the order in which the
    answers of a batch arrive: with any other latencies the run leaves the
    same store, the same cache and the same list of lookups. *)
Theorem run_does_not_depend_on_arrival_order
    (e : Env) (latency' : Z → nat) (w : World) :
  store_ok (storage w) →
  (∀ id id' address, respond e id address = respond e id' address) →
  updateCoordinatesInBackground
    {| apiKey := apiKey e; respond := respond e; latency := latency' |} w
  = updateCoordinatesInBackground e w.
Proof.
  intros Hok Haddr. unfold updateCoordinatesInBackground. simpl.
  destruct (apiKey e) as [key|]; [|done].
  destruct (str_truthy key); [|done].
  set (items := itemsNeedingGeocode (storage w)).
  assert (NoDup (id <$> items)) as Hnd
    by (by apply NoDup_fmap_List_filter, stored_ids_NoDup).
  unfold geocode_from.
  rewrite (for_slices_from_ext _ _ _ _ _
             (λ _ batch acc, batch_step e batch acc)); [done|].
  intros i acc. apply batch_step_arrival; [done | done |].
  destruct (slice_parts items 0 i 10 ltac:(lia)) as [Hparts _].
  rewrite Hparts, !fmap_app in Hnd. simpl in Hnd.
  apply NoDup_app in Hnd as (_ & _ & Hnd).
  by apply NoDup_app in Hnd as (Hnd & _ & _).
Qed.

Lemma run_does_not_depend_on_arrival_order_witness :
  store_ok (storage (Sample.world_of Sample.eleven))
  ∧ (∀ id id' address,
       respond Cases.pune_only id address
       = respond Cases.pune_only id' address)
  ∧ updateCoordinatesInBackground
      {| apiKey := apiKey Cases.pune_only;
         respond := respond Cases.pune_only;
         latency := λ id, Z.to_nat (20 - id) |}
      (Sample.world_of Sample.eleven)
    = updateCoordinatesInBackground Cases.pune_only
        (Sample.world_of Sample.eleven).
Proof.
  assert (store_ok (storage (Sample.world_of Sample.eleven))) as Hok
    by apply createMultipleSalesData_store_ok, store_ok_empty.
  assert (∀ id id' address,
            respond Cases.pune_only id address
            = respond Cases.pune_only id' address) as Haddr by reflexivity.
  split; [exact Hok|]. split; [exact Haddr|].
  exact (run_does_not_depend_on_arrival_order Cases.pune_only
           (λ id, Z.to_nat (20 - id)) (Sample.world_of Sample.eleven)
           Hok Haddr).
Defined.


(** ** The geocoding status ([GET /api/geocoding-status]) *)

Lemma List_filter_length_le {A} (f g : A → bool) l l' :
  Forall2 (λ x x', f x = true → g x' = true) l l' →
  length (List.filter f l) ≤ length (List.filter g l').
Proof.
  induction 1 as [|x x' l l' Hx _ IH]; simpl; [done|].
  destruct (f x); [rewrite Hx by done; simpl; lia|].
  destruct (g x'); simpl; lia.
Qed.

Lemma List_filter_length_split {A} (f : A → bool) l :
  length (List.filter f l) + length (List.filter (λ x, negb (f x)) l)
  = length l.
Proof.
  induction l as [|x l IH]; simpl; [done|]. destruct (f x); simpl; lia.
Qed.

Lemma Forall2_diag {A} (P : A → A → Prop) l :
  (∀ x, x ∈ l → P x x) → Forall2 P l l.
Proof.
  induction l as [|x l IH]; intros Hall; constructor.
  - apply Hall. by left.
  - apply IH. intros y Hy. apply Hall. by right.
Qed.

Lemma needs_geocode_not_geocoded item :
  needs_geocode item = true → geocoded item = false.
Proof.
  unfold needs_geocode, geocoded. rewrite !andb_true_iff.
  intros [[[-> ->] _] _]. done.
Qed.

(** The pending records are the stored ones that are not geocoded. *)
Lemma pending_as_filter s :
  pendingGeocode (geocodingStatus s)
  = length (List.filter (λ x, negb (geocoded x)) (getAllSalesData s)).
Proof.
  unfold geocodingStatus. simpl.
  pose proof (List_filter_length_split geocoded (getAllSalesData s)). lia.
Qed.

(** With a state and a city in every record, the pending records are
    those of the scan. *)
Lemma pending_is_the_scan s :
  Forall (λ r, state r ≠ "" ∧ city r ≠ "") (getAllSalesData s) →
  pendingGeocode (geocodingStatus s) = length (itemsNeedingGeocode s).
Proof.
  intros Hall. rewrite pending_as_filter. unfold itemsNeedingGeocode.
  apply Nat.le_antisymm.
  - apply List_filter_length_le, Forall2_diag.
    intros r Hr Hpending. rewrite Forall_forall in Hall.
    destruct (Hall r Hr) as [Hstate Hcity].
    unfold needs_geocode. unfold geocoded in Hpending.
    apply negb_true_iff, orb_false_iff in Hpending as [Hlat Hlon].
    apply negb_false_iff in Hlat, Hlon. rewrite Hlat, Hlon. simpl.
    destruct (str_truthy (state r)) eqn:Hs;
      [|by apply str_truthy_false in Hs].
    destruct (str_truthy (city r)) eqn:Hc;
      [done | by apply str_truthy_false in Hc].
  - apply List_filter_length_le, Forall2_diag.
    intros r _ Hr. by rewrite needs_geocode_not_geocoded.
Qed.

(** X11: in the answer of the geocoding status route the geocoded and the
    pending records add up to the total; the records of the scan of an
    enrichment run are among the pending ones, and when every stored
    record has a non-empty state and city the pending count is exactly the
    size of the scan. *)
Theorem pending_records_and_the_scan (s : MemStorage) :
  let st := geocodingStatus s in
  geocodedRecords st + pendingGeocode st = totalRecords st
  ∧ totalRecords st = length (getAllSalesData s)
  ∧ length (itemsNeedingGeocode s) ≤ pendingGeocode st
  ∧ (Forall (λ r, state r ≠ "" ∧ city r ≠ "") (getAllSalesData s) →
     pendingGeocode st = length (itemsNeedingGeocode s)).
Proof.
  intros st. subst st.
  pose proof (pending_as_filter s) as Hpending.
  pose proof (List_filter_length_split geocoded (getAllSalesData s)) as Hsplit.
  split_and!.
  - rewrite Hpending. unfold geocodingStatus. simpl. lia.
  - done.
  - rewrite Hpending. unfold itemsNeedingGeocode.
    apply List_filter_length_le, Forall2_diag.
    intros r _ Hr. by rewrite needs_geocode_not_geocoded.
  - apply pending_is_the_scan.
Qed.


Lemma pending_records_and_the_scan_witness :
  let s := Sample.one_enriched in
  let st := geocodingStatus s in
  Forall (λ r, state r ≠ "" ∧ city r ≠ "") (getAllSalesData s)
  ∧ pendingGeocode st = length (itemsNeedingGeocode s).
Proof.
  intros s st.
  assert (Forall (λ r, state r ≠ "" ∧ city r ≠ "") (getAllSalesData s))
    as Hall by (repeat constructor; discriminate).
  split; [exact Hall|].
  destruct (pending_records_and_the_scan s) as (_ & _ & _ & Heq).
  exact (Heq Hall).
Defined.

(** Runs keep the store well formed and every geocoded record as it
    is. *)
Lemma runs_store_ok es w :
  store_ok (storage w) → store_ok (storage (runs es w)).
Proof.
  unfold runs. revert w. induction es as [|e es IH]; intros w Hok; [done|].
  cbn [fold_left]. apply IH. by destruct (run_frame e w Hok) as (? & _).
Qed.

Lemma runs_keep_geocoded es w k r :
  store_ok (storage w) →
  map_get k (salesDataMap (storage w)) = Some r → geocoded r = true →
  map_get k (salesDataMap (storage (runs es w))) = Some r.
Proof.
  unfold runs. revert w. induction es as [|e es IH]; intros w Hok Hget Hr;
    [done|].
  cbn [fold_left]. destruct (run_frame e w Hok) as (Hok' & _ & Hframe).
  apply IH; [done | | done]. rewrite Hframe; [done|].
  intros (item & Hid & Hin)%list_elem_of_fmap.
  pose proof Hin as [Hneeds Hstored]%itemsNeedingGeocode_stored.
  apply (stored_record_get _ _ Hok) in Hstored.
  rewrite <- Hid, Hget in Hstored. injection Hstored as <-.
  apply needs_geocode_not_geocoded in Hneeds. congruence.
Qed.

(** X12: enrichment runs keep the total of the geocoding status and never
    lower its geocoded count: after any number of runs, whatever the
    service answers, the total is the same, no fewer records are geocoded
    and no more are pending. *)
Theorem geocoding_status_moves_forward (es : list Env) (w : World) :
  store_ok (storage w) →
  let before := geocodingStatus (storage w) in
  let after := geocodingStatus (storage (runs es w)) in
  totalRecords after = totalRecords before
  ∧ geocodedRecords before ≤ geocodedRecords after
  ∧ pendingGeocode after ≤ pendingGeocode before.
Proof.
  intros Hok.
  destruct (runs_more es w) as (Hwc & _ & _).
  pose proof (runs_store_ok es w Hok) as Hok'.
  set (s' := storage (runs es w)) in *. set (s := storage w) in *.
  assert (map_keys (salesDataMap s') = map_keys (salesDataMap s)) as Hkeys.
  { apply (f_equal (λ s, fst <$> salesDataMap s)) in Hwc.
    unfold without_coordinates in Hwc. simpl in Hwc.
    rewrite <- !list_fmap_compose in Hwc. exact Hwc. }
  assert (Forall2 (λ r r', geocoded r = true → geocoded r' = true)
            (getAllSalesData s) (getAllSalesData s')) as Hall.
  { unfold getAllSalesData, map_values. apply Forall2_fmap.
    apply Forall2_same_length_lookup. split.
    - apply (f_equal length) in Hkeys. unfold map_keys in Hkeys.
      by rewrite !length_fmap in Hkeys.
    - intros i [k r] [k' r'] Hi Hi' Hr. simpl in *.
      assert (k' = k) as ->.
      { apply (f_equal (λ l, l !! i)) in Hkeys. unfold map_keys in Hkeys.
        rewrite !list_lookup_fmap, Hi, Hi' in Hkeys. simpl in Hkeys.
        congruence. }
      assert (map_get k (salesDataMap s) = Some r) as Hget.
      { apply map_get_elem; [by destruct Hok|].
        by eapply list_elem_of_lookup_2. }
      assert (map_get k (salesDataMap s') = Some r') as Hget'.
      { apply map_get_elem; [by destruct Hok'|].
        by eapply list_elem_of_lookup_2. }
      pose proof (runs_keep_geocoded es w k r Hok Hget Hr) as Hkept.
      fold s' in Hkept. congruence. }
  pose proof (List_filter_length_le geocoded geocoded _ _ Hall) as Hle.
  assert (length (getAllSalesData s') = length (getAllSalesData s)) as Hlen.
  { symmetry. by eapply Forall2_length. }
  pose proof (List_filter_length_split geocoded (getAllSalesData s)).
  pose proof (List_filter_length_split geocoded (getAllSalesData s')).
  unfold geocodingStatus. simpl. split_and!; lia.
Qed.

Lemma geocoding_status_moves_forward_witness :
  let es := [Sample.geocoder_failing_once; Sample.geocoder] in
  let w := Sample.world_of Sample.two_pune in
  store_ok (storage w)
  ∧ let before := geocodingStatus (storage w) in
    let after := geocodingStatus (storage (runs es w)) in
    totalRecords after = totalRecords before
    ∧ geocodedRecords before ≤ geocodedRecords after
    ∧ pendingGeocode after ≤ pendingGeocode before.
Proof.
  intros es w.
  assert (store_ok (storage w)) as Hok
    by apply createMultipleSalesData_store_ok, store_ok_empty.
  split; [exact Hok|].
  exact (geocoding_status_moves_forward es w Hok).
Defined.


(** ** More on the ingestion job *)

(** While the chunk loop runs, the entry of the job reads [processing],
    with no error, no inserted record and a progress within the total. *)
Lemma chunk_loop_processing S now jsonData uploadId w :
  let n := length jsonData in
  let chunkSize := Nat.min 2000 (Nat.max 500 (n / 20)) in
  let w0 :=
    set_status uploadId
      {| status := processing; totalRows := 0; processedRows := 0;
         insertedRecords := 0; error_message := None; startTime := now |} w in
  let w1 :=
    update_status uploadId
      (λ st, {| status := status st; totalRows := n;
                processedRows := processedRows st;
                insertedRecords := insertedRecords st;
                error_message := error_message st;
                startTime := startTime st |}) w0 in
  Forall (λ w', ∃ st, poll uploadId w' = Some st
                      ∧ status st = processing
                      ∧ error_message st = None
                      ∧ insertedRecords st = 0
                      ∧ startTime st = now
                      ∧ processedRows st ≤ totalRows st
                      ∧ totalRows st ≤ n)
    (for_slices chunkSize jsonData (chunk_step S uploadId chunkSize n)
       ([], w1, [w0; w1])).2.
Proof.
  intros n chunkSize w0 w1.
  assert (poll uploadId w0
          = Some {| status := processing; totalRows := 0; processedRows := 0;
                    insertedRecords := 0; error_message := None;
                    startTime := now |}) as Hp0.
  { unfold poll, w0, set_status. simpl. apply lookup_insert_eq. }
  assert (poll uploadId w1
          = Some {| status := processing; totalRows := n; processedRows := 0;
                    insertedRecords := 0; error_message := None;
                    startTime := now |}) as Hp1.
  { unfold w1. rewrite poll_update_status, Hp0. done. }
  destruct (for_slices_invariant chunkSize jsonData
              (chunk_step S uploadId chunkSize n) ltac:(lia)
              (λ i acc,
                 let '(arr, w', trace) := acc in
                 Forall (λ w', ∃ st, poll uploadId w' = Some st
                                     ∧ status st = processing
                                     ∧ error_message st = None
                                     ∧ insertedRecords st = 0
                                     ∧ startTime st = now
                                     ∧ processedRows st ≤ totalRows st
                                     ∧ totalRows st ≤ n) trace
                 ∧ ∃ p, poll uploadId w'
                        = Some {| status := processing; totalRows := n;
                                  processedRows := p;
                                  insertedRecords := 0;
                                  error_message := None;
                                  startTime := now |})
              ([], w1, [w0; w1])) as (j & _ & Hinv).
  - intros i [[arr w'] trace] Hi (Hall & p & Hpoll).
    unfold chunk_step.
    set (w'' := update_status uploadId _ w').
    assert (poll uploadId w''
            = Some {| status := processing; totalRows := n;
                      processedRows := Nat.min (i + chunkSize) n;
                      insertedRecords := 0; error_message := None;
                      startTime := now |}) as Hp''.
    { unfold w''. rewrite poll_update_status, Hpoll. done. }
    split; [|by eexists].
    apply Forall_app. split; [done|]. apply Forall_singleton.
    eexists. split; [exact Hp''|]. simpl. split_and!; try done; lia.
  - split; [|by eexists].
    repeat apply Forall_cons_2; [..|apply Forall_nil_2];
      eexists; (split; [eassumption|]); simpl; split_and!; try done; lia.
  - destruct (for_slices _ _ _ _) as [[arr w2] trace].
    by destruct Hinv as [Hall _].
Qed.

Lemma length_omap_le {A B} (f : A → option B) l :
  length (omap f l) ≤ length l.
Proof.
  induction l as [|x l IH]; [done|]. cbn [omap list_omap].
  destruct (f x); simpl; lia.
Qed.

Lemma poll_set_storage uploadId s w :
  poll uploadId (set_storage s w) = poll uploadId w.
Proof. done. Qed.

(** X13: the entry of a job follows one protocol, for decoded rows and
    for a decoder failure alike: it reads [processing], with no error
    message, no inserted record and a progress within the total, in every
    world but the last, and the last write makes it [completed] or [error];
    it is [error] exactly when it carries a message, the start time never
    changes, and neither the progress nor the inserted count exceeds the
    total. *)
Theorem job_status_protocol
    (S : Schema) (now : Z) (decoded : Decoded) (uploadId : string) (w : World) :
  ∃ before final st,
    processExcelInBackground S now decoded uploadId w = before ++ [final]
    ∧ Forall (λ w', ∃ st', poll uploadId w' = Some st'
                           ∧ status st' = processing
                           ∧ error_message st' = None
                           ∧ insertedRecords st' = 0
                           ∧ startTime st' = now
                           ∧ processedRows st' ≤ totalRows st') before
    ∧ poll uploadId final = Some st
    ∧ (status st = completed ∨ status st = error)
    ∧ (status st = error ↔ is_Some (error_message st))
    ∧ startTime st = now
    ∧ processedRows st ≤ totalRows st
    ∧ insertedRecords st ≤ totalRows st.
Proof.
  destruct decoded as [jsonData|message].
  - pose proof (chunk_loop_processing S now jsonData uploadId w) as Hall.
    destruct (chunk_loop_spec S now jsonData uploadId w)
      as (w2 & trace & Hloop & Htrace & Hlast & Hpoll).
    cbv zeta in Hloop, Hall. rewrite Hloop in Hall. cbn [snd] in Hall.
    assert (Forall (λ w', ∃ st', poll uploadId w' = Some st'
                                 ∧ status st' = processing
                                 ∧ error_message st' = None
                                 ∧ insertedRecords st' = 0
                                 ∧ startTime st' = now
                                 ∧ processedRows st' ≤ totalRows st') trace)
      as Hall'.
    { eapply Forall_impl; [exact Hall|]. simpl.
      intros w' (st & ? & ? & ? & ? & ? & ? & ?). by exists st. }
    unfold processExcelInBackground. cbv zeta. rewrite Hloop.
    destruct (omap (normalize_row S) jsonData) as [|x arr'] eqn:Harr.
    + cbn [length Nat.eqb]. eexists trace, _, _. split; [done|].
      split; [done|]. rewrite poll_update_status, Hpoll. simpl.
      split; [done|]. simpl.
      split_and!; [by right | by split; [eexists|] | done | done | lia].
    + cbn [length Nat.eqb].
      destruct (createMultipleSalesData (x :: arr') _) as [inserted s4] eqn:Hins.
      eexists (trace ++ [_; _]), _, _. split.
      { by rewrite <- (assoc_L (++)). }
      split.
      { apply Forall_app. split; [done|].
        repeat apply Forall_cons_2; [..|apply Forall_nil_2];
          rewrite !poll_set_storage, Hpoll; eexists; (split; [done|]);
          simpl; split_and!; done. }
      rewrite poll_update_status, !poll_set_storage, Hpoll. simpl.
      split; [done|]. simpl.
      assert (length inserted = length (x :: arr')) as Hlen.
      { rewrite createMultipleSalesData_unchunked in Hins.
        cbn [storage set_storage] in Hins.
        destruct (array_map_createSalesData (x :: arr')
                    (clearSalesData (storage w2)) store_ok_empty)
          as (Hids & _).
        rewrite Hins in Hids. cbn [fst] in Hids.
        apply (f_equal length) in Hids.
        by rewrite !length_fmap, length_seq in Hids. }
      pose proof (length_omap_le (normalize_row S) jsonData) as Hle.
      rewrite Harr in Hle.
      split_and!; [by left | | done | done | lia].
      split; [done | by intros [? ?]].
  - simpl. eexists [_], _, _. split; [done|]. split.
    + apply Forall_singleton. eexists. unfold poll. simpl.
      rewrite lookup_insert_eq. split; [done|]. simpl. split_and!; done.
    + rewrite poll_update_status. unfold poll. simpl.
      rewrite lookup_insert_eq. simpl. split; [done|]. simpl.
      split_and!; [by right | by split; [eexists|] | done | done | done].
Qed.

(** *** A job that accepts rows *)

Lemma array_map_createSalesData_fields arr s :
  Forall2 (λ d r, state r = i_state d ∧ city r = i_city d
                  ∧ maker r = or_empty (i_maker d)
                  ∧ rto r = or_empty (i_rto d)
                  ∧ latitude r = i_latitude d
                  ∧ longitude r = i_longitude d)
    arr (array_map createSalesData arr s).1.
Proof.
  revert s. induction arr as [|d arr IH]; intros s; [constructor|].
  cbn [array_map].
  destruct (createSalesData d s) as [r s1] eqn:Hr.
  specialize (IH s1). destruct (array_map createSalesData arr s1) as [rs s2].
  cbn [fst] in *. constructor; [|exact IH].
  unfold createSalesData in Hr. injection Hr as <- _. done.
Qed.

Lemma elem_of_omap_normalize S (jsonData : list (gmap string JsVal)) d :
  d ∈ omap (normalize_row S) jsonData →
  ∃ rowData, rowData ∈ jsonData ∧ normalize_row S rowData = Some d.
Proof. intros Hd. by apply list_elem_of_omap in Hd. Qed.

(** The store a job fills: one record for each accepted row, each in the
    scan of the next enrichment run. *)
Lemma ingested_store S (jsonData : list (gmap string JsVal)) :
  let accepted := omap (normalize_row S) jsonData in
  let r := createMultipleSalesData accepted Storage.empty in
  store_ok r.2
  ∧ getAllSalesData r.2 = r.1
  ∧ length r.1 = length accepted
  ∧ Forall2 (λ d rec, state rec = i_state d ∧ city rec = i_city d
                      ∧ maker rec = or_empty (i_maker d)
                      ∧ rto rec = or_empty (i_rto d)
                      ∧ latitude rec = 0%Z ∧ longitude rec = 0%Z
                      ∧ needs_geocode rec = true)
      accepted r.1.
Proof.
  intros accepted r.
  assert (r = array_map createSalesData accepted Storage.empty) as Hr
    by apply createMultipleSalesData_unchunked.
  destruct (array_map_createSalesData accepted Storage.empty store_ok_empty)
    as (Hids & Hmap & _ & _ & Hok).
  rewrite <- Hr in Hids, Hmap, Hok. simpl in Hmap.
  split_and!.
  - done.
  - unfold getAllSalesData, map_values. rewrite Hmap.
    rewrite <- list_fmap_compose. apply list_fmap_id.
  - apply (f_equal length) in Hids.
    by rewrite !length_fmap, length_seq in Hids.
  - rewrite Hr.
    pose proof (array_map_createSalesData_fields accepted Storage.empty) as H.
    assert (Forall (λ d, ∃ rowData, normalize_row S rowData = Some d) accepted)
      as Hacc.
    { apply Forall_forall. intros d Hd.
      apply elem_of_omap_normalize in Hd as (rowData & _ & Hd).
      by exists rowData. }
    clear -H Hacc.
    induction H as [|d rec ds recs (Hs & Hc & Hm & Ho & Hlat & Hlon) _ IH];
      [constructor|].
    apply Forall_cons in Hacc as [(rowData & Hrow) Hacc].
    constructor; [|by apply IH].
    apply normalize_row_fields in Hrow
      as (_ & _ & _ & _ & _ & _ & Hst & Hct & _ & Hlat0 & Hlon0).
    rewrite Hlat0 in Hlat. rewrite Hlon0 in Hlon.
    split_and!; try done.
    unfold needs_geocode. by rewrite Hlat, Hlon, Hs, Hc, Hst, Hct.
Qed.

(** The world a job with accepted rows leaves. *)
Lemma completed_job S now jsonData uploadId w :
  let accepted := omap (normalize_row S) jsonData in
  accepted ≠ [] →
  ∃ final,
    last (processExcelInBackground S now (Rows jsonData) uploadId w)
    = Some final
    ∧ poll uploadId final
      = Some {| status := completed; totalRows := length jsonData;
                processedRows := length jsonData;
                insertedRecords := length accepted;
                error_message := None; startTime := now |}
    ∧ (∀ other, other ≠ uploadId → poll other final = poll other w)
    ∧ geocodingCache final = geocodingCache w
    ∧ storage final = (createMultipleSalesData accepted Storage.empty).2.
Proof.
  intros accepted Hne.
  destruct (processExcelInBackground_rows S now jsonData uploadId w)
    as (w2 & tr & Htr & Hlast & Hpoll & ->).
  destruct (last_trace_elem _ _ _ _ _ Htr Hlast) as (_ & Hcache & Hothers).
  destruct (ingested_store S jsonData) as (_ & _ & Hlen & _).
  fold accepted in Hlen |- *. rewrite decide_False by done. cbv zeta.
  eexists. split.
  { match goal with |- context [tr ++ [?a; ?b; ?c]] =>
      change (tr ++ [a; b; c]) with (tr ++ [a; b] ++ [c])
    end.
    rewrite (assoc_L (++)). apply last_snoc. }
  rewrite poll_update_status, !poll_set_storage, Hpoll. simpl.
  change (clearSalesData (storage w2)) with Storage.empty.
  rewrite Hlen. split_and!; try done.
  intros other Hother. rewrite poll_update_status_ne by done.
  rewrite !poll_set_storage. by apply Hothers.
Qed.

(** X14: when at least one row is accepted, the job ends [completed]:
    its entry then reads the number of decoded rows as total and as
    progress, and the number of accepted rows as inserted records, with
    no error message; the other jobs and the geocoding cache are as they
    were.  The store then holds one record for each accepted row, in row
    order, with the state, city, maker and rto of the row, and nothing of
    what it held before; every record has the coordinates (0, 0) and is in
    the scan of the next enrichment run, so that the geocoding status
    reads all of them as pending. *)
Theorem accepted_rows_complete_the_job
    (S : Schema) (now : Z) (jsonData : list (gmap string JsVal))
    (uploadId : string) (w : World) :
  let accepted := omap (normalize_row S) jsonData in
  accepted ≠ [] →
  ∃ final,
    last (processExcelInBackground S now (Rows jsonData) uploadId w)
    = Some final
    ∧ poll uploadId final
      = Some {| status := completed; totalRows := length jsonData;
                processedRows := length jsonData;
                insertedRecords := length accepted;
                error_message := None; startTime := now |}
    ∧ (∀ other, other ≠ uploadId → poll other final = poll other w)
    ∧ geocodingCache final = geocodingCache w
    ∧ Forall2 (λ d r, state r = i_state d ∧ city r = i_city d
                      ∧ maker r = or_empty (i_maker d)
                      ∧ rto r = or_empty (i_rto d)
                      ∧ latitude r = 0%Z ∧ longitude r = 0%Z)
        accepted (getAllSalesData (storage final))
    ∧ itemsNeedingGeocode (storage final) = getAllSalesData (storage final)
    ∧ Routes.geocodingStatus (storage final)
      = {| Routes.totalRecords := length accepted;
           Routes.geocodedRecords := 0;
           Routes.pendingGeocode := length accepted |}.
Proof.
  intros accepted Hne.
  destruct (completed_job S now jsonData uploadId w Hne)
    as (final & Hlast & Hpoll & Hothers & Hcache & Hstore).
  destruct (ingested_store S jsonData) as (_ & Hall & Hlen & Hfields).
  fold accepted in Hall, Hlen, Hfields, Hstore.
  set (r := createMultipleSalesData accepted Storage.empty) in *.
  exists final. rewrite Hstore, Hall.
  assert (∀ x, x ∈ r.1 → needs_geocode x = true) as Hneeds.
  { intros x Hx. clear -Hfields Hx.
    induction Hfields as [|d rec ds recs H _ IH];
      [by apply elem_of_nil in Hx|].
    apply elem_of_cons in Hx as [->|Hx]; [|by apply IH].
    by destruct H as (_ & _ & _ & _ & _ & _ & ?). }
  split_and!; try done.
  - eapply Forall2_impl; [exact Hfields|]. simpl.
    intros d rec (? & ? & ? & ? & ? & ? & _). done.
  - unfold itemsNeedingGeocode. rewrite Hall. by apply List_filter_all.
  - unfold Routes.geocodingStatus. rewrite Hall, Hlen.
    rewrite List_filter_none.
    + simpl. by rewrite Nat.sub_0_r.
    + intros x Hx. by apply needs_geocode_not_geocoded, Hneeds.
Qed.

Lemma accepted_rows_complete_the_job_witness :
  let S := typed_schema in
  let jsonData :=
    [Sample.row_2023; Sample.row_2021; Sample.row_manufacturer] in
  let w := Sample.world_of Sample.one_enriched in
  omap (normalize_row S) jsonData ≠ []
  ∧ ∃ final,
      last (processExcelInBackground S 7 (Rows jsonData) "upload_1" w)
      = Some final
      ∧ poll "upload_1" final
        = Some {| status := completed; totalRows := 3; processedRows := 3;
                  insertedRecords := 2; error_message := None;
                  startTime := 7 |}
      ∧ length (getAllSalesData (storage final)) = 2
      ∧ itemsNeedingGeocode (storage final)
        = getAllSalesData (storage final).
Proof.
  intros S jsonData w.
  assert (omap (normalize_row S) jsonData ≠ []) as Hne
    by (vm_compute; discriminate).
  split; [exact Hne|].
  destruct (accepted_rows_complete_the_job S 7 jsonData "upload_1" w Hne)
    as (final & Hlast & Hpoll & _ & _ & Hrecords & Hscan & _).
  exists final. split; [exact Hlast|]. split.
  - rewrite Hpoll. vm_compute. reflexivity.
  - split; [|exact Hscan].
    apply Forall2_length in Hrecords. rewrite <- Hrecords.
    vm_compute. reflexivity.
Defined.

(** *** A job that fails *)

(** X15: a job that ends in the error state, whether the decoder failed
    or no row was accepted, has written nothing but its own entry: in
    every world of the job the store, the geocoding cache and the entries
    of the other jobs are as they were when the job started. *)
Theorem failed_job_changes_nothing
    (S : Schema) (now : Z) (decoded : Decoded) (uploadId : string)
    (w final : World) (st : UploadStatus) :
  let trace := processExcelInBackground S now decoded uploadId w in
  last trace = Some final → poll uploadId final = Some st →
  status st = error →
  Forall (λ w', storage w' = storage w
                ∧ geocodingCache w' = geocodingCache w
                ∧ ∀ other, other ≠ uploadId → poll other w' = poll other w)
    trace.
Proof.
  destruct decoded as [jsonData|message]; intros trace; subst trace.
  - destruct (processExcelInBackground_rows S now jsonData uploadId w)
      as (w2 & tr & Htr & Hlast & Hpoll & ->).
    destruct (last_trace_elem _ _ _ _ _ Htr Hlast) as (Hs2 & Hc2 & Ho2).
    destruct (decide (omap (normalize_row S) jsonData = [])) as [Hnil|Hne].
    + intros _ _ _. apply Forall_app. split.
      * destruct Htr as [Hall _]. eapply Forall_impl; [exact Hall|]. simpl.
        intros w' (? & ? & ? & _). done.
      * apply Forall_singleton. split_and!; [done | done |].
        intros other Hother. rewrite poll_update_status_ne by done.
        by apply Ho2.
    + cbv zeta.
      match goal with |- context [tr ++ [?a; ?b; ?c]] =>
        change (tr ++ [a; b; c]) with (tr ++ [a; b] ++ [c])
      end.
      rewrite (assoc_L (++)), last_snoc. intros [= <-].
      rewrite poll_update_status, !poll_set_storage, Hpoll. simpl.
      intros [= <-]. done.
  - simpl. intros _ _ _.
    repeat apply Forall_cons_2; [..|apply Forall_nil_2];
      (split_and!; [done | done |]); intros other Hother; unfold poll; simpl.
    + by rewrite lookup_insert_ne.
    + rewrite lookup_alter_ne by done. by rewrite lookup_insert_ne.
Qed.

Lemma failed_job_changes_nothing_witness :
  let w := Sample.world_of Sample.one_enriched in
  let trace :=
    processExcelInBackground typed_schema 7 (Throws "Unsupported file")
      "upload_1" w in
  ∃ final st,
    last trace = Some final ∧ poll "upload_1" final = Some st
    ∧ status st = error
    ∧ error_message st = Some "Unsupported file"
    ∧ Forall (λ w', storage w' = storage w
                    ∧ geocodingCache w' = geocodingCache w
                    ∧ ∀ other, other ≠ "upload_1" →
                               poll other w' = poll other w) trace.
Proof.
  intros w trace.
  eexists _, _. split; [reflexivity|]. split; [reflexivity|].
  split; [reflexivity|]. split; [reflexivity|].
  exact (failed_job_changes_nothing typed_schema 7 (Throws "Unsupported file")
           "upload_1" w _ _ eq_refl eq_refl eq_refl).
Defined.


(** ** From the upload to the geocoded store *)

(** X16: an upload with at least one accepted row, followed by one
    enrichment run against a service that answers every lookup with
    coordinates other than (0, 0) (the cache holding no (0, 0) pair),
    ends with every record geocoded: the geocoding status reads the number
    of accepted rows as total and as geocoded, none as pending, and any
    further run sends no lookup and changes nothing. *)
Theorem upload_then_enrichment_geocodes_every_record
    (S : Schema) (now : Z) (jsonData : list (gmap string JsVal))
    (uploadId : string) (w : World) (e : Env) (key : string) :
  let accepted := omap (normalize_row S) jsonData in
  accepted ≠ [] →
  apiKey e = Some key → str_truthy key = true →
  (∀ id address, ∃ c, respond e id address = Some c ∧ c ≠ (0, 0)%Z) →
  (∀ key c, geocodingCache w !! key = Some c → c ≠ (0, 0)%Z) →
  ∃ final,
    last (processExcelInBackground S now (Rows jsonData) uploadId w)
    = Some final
    ∧ let w' := (updateCoordinatesInBackground e final).1 in
      Routes.geocodingStatus (storage w')
      = {| Routes.totalRecords := length accepted;
           Routes.geocodedRecords := length accepted;
           Routes.pendingGeocode := 0 |}
      ∧ ∀ e', updateCoordinatesInBackground e' w' = (w', []).
Proof.
  intros accepted Hne Hkey Htruthy Hanswers Hcache.
  destruct (completed_job S now jsonData uploadId w Hne)
    as (final & Hlast & _ & _ & Hcache' & Hstore).
  destruct (ingested_store S jsonData) as (Hok & Hall & Hlen & Hfields).
  fold accepted in Hok, Hall, Hlen, Hfields, Hstore.
  set (r := createMultipleSalesData accepted Storage.empty) in *.
  exists final. split; [done|]. intros w'.
  assert (store_ok (storage final)) as Hok' by (by rewrite Hstore).
  assert (∀ key c, geocodingCache final !! key = Some c → c ≠ (0, 0)%Z)
    as Hcache'' by (by rewrite Hcache').
  destruct (run_against_answering_service e final key Hok' Hkey Htruthy
              Hanswers Hcache'') as (_ & Hscan).
  fold w' in Hscan. split; [|intros e'; by apply run_on_empty_scan].
  destruct (run_more e final) as (Hwc & _). fold w' in Hwc.
  assert ((λ d, (state d, city d)) <$> getAllSalesData (storage w')
          = (λ d, (state d, city d)) <$> getAllSalesData (storage final))
    as Hsame.
  { apply (f_equal (λ s, (λ kv, (state kv.2, city kv.2)) <$> salesDataMap s))
      in Hwc.
    unfold Routes.without_coordinates in Hwc. simpl in Hwc.
    rewrite <- !list_fmap_compose in Hwc.
    unfold getAllSalesData, map_values. rewrite <- !list_fmap_compose.
    exact Hwc. }
  assert (Forall (λ d, state d ≠ "" ∧ city d ≠ "")
            (getAllSalesData (storage w'))) as Hnonempty.
  { apply Forall_forall. intros d' Hd'.
    assert ((state d', city d')
            ∈ (λ d, (state d, city d)) <$> getAllSalesData (storage w'))
      as Hin by (by apply (list_elem_of_fmap_2 (λ d, (state d, city d)))).
    rewrite Hsame, Hstore, Hall in Hin.
    apply list_elem_of_fmap in Hin as (d & [= -> ->] & Hd).
    assert (needs_geocode d = true) as Hneeds.
    { clear -Hfields Hd.
      induction Hfields as [|x rec ds recs H _ IH];
        [by apply elem_of_nil in Hd|].
      apply elem_of_cons in Hd as [->|Hd]; [|by apply IH].
      by destruct H as (_ & _ & _ & _ & _ & _ & ?). }
    unfold needs_geocode in Hneeds. rewrite !andb_true_iff in Hneeds.
    destruct Hneeds as [[_ Hs] Hc].
    split; intros Heq; rewrite Heq in *; done. }
  pose proof (pending_is_the_scan (storage w') Hnonempty) as Hpending.
  rewrite Hscan in Hpending.
  pose proof (pending_as_filter (storage w')) as Hfilter.
  pose proof (List_filter_length_split Routes.geocoded
                (getAllSalesData (storage w'))) as Hsum.
  assert (length (getAllSalesData (storage w')) = length accepted) as Hcount.
  { apply (f_equal length) in Hsame. rewrite !length_fmap in Hsame.
    by rewrite Hsame, Hstore, Hall. }
  unfold Routes.geocodingStatus in *. simpl in *. f_equal; lia.
Qed.

Lemma upload_then_enrichment_geocodes_every_record_witness :
  let S := typed_schema in
  let jsonData :=
    [Sample.row_2023; Sample.row_2021; Sample.row_manufacturer] in
  let w := Sample.world_of Sample.one_enriched in
  let e := Sample.geocoder in
  omap (normalize_row S) jsonData ≠ []
  ∧ apiKey e = Some "key" ∧ str_truthy "key" = true
  ∧ (∀ id address, ∃ c, respond e id address = Some c ∧ c ≠ (0, 0)%Z)
  ∧ (∀ key c, geocodingCache w !! key = Some c → c ≠ (0, 0)%Z)
  ∧ ∃ final,
      last (processExcelInBackground S 7 (Rows jsonData) "upload_1" w)
      = Some final
      ∧ let w' := (updateCoordinatesInBackground e final).1 in
        Routes.geocodingStatus (storage w')
        = {| Routes.totalRecords := length (omap (normalize_row S) jsonData);
             Routes.geocodedRecords :=
               length (omap (normalize_row S) jsonData);
             Routes.pendingGeocode := 0 |}
        ∧ ∀ e', updateCoordinatesInBackground e' w' = (w', []).
Proof.
  intros S jsonData w e.
  assert (omap (normalize_row S) jsonData ≠ []) as Hne
    by (vm_compute; discriminate).
  assert (apiKey e = Some "key") as Hkey by reflexivity.
  assert (str_truthy "key" = true) as Htruthy by reflexivity.
  assert (∀ id address, ∃ c, respond e id address = Some c ∧ c ≠ (0, 0)%Z)
    as Hanswers.
  { intros id address. exists (18 + id, 73 + id)%Z.
    split; [reflexivity|]. intros [= H1 H2]. lia. }
  assert (∀ key c, geocodingCache w !! key = Some c → c ≠ (0, 0)%Z) as Hcache.
  { intros key c Hc. simpl in Hc. by rewrite lookup_empty in Hc. }
  split; [exact Hne|]. split; [exact Hkey|]. split; [exact Htruthy|].
  split; [exact Hanswers|]. split; [exact Hcache|].
  exact (upload_then_enrichment_geocodes_every_record S 7 jsonData
           "upload_1" w e "key" Hne Hkey Htruthy Hanswers Hcache).
Defined.


(** ** More on the cascading filters *)

Import Filters.

(** The handler with the four option sets taken apart. *)
Lemma cascadingFilters_eq body s :
  let makers := default [] (makers body) in
  let rtos := default [] (rtos body) in
  let states := default [] (states body) in
  let districts := default [] (districts body) in
  let allData := getAllSalesData s in
  cascadingFilters body s
  = (List.filter
       (λ item,
          unconstrained_or_includes makers (maker item)
          && unconstrained_or_includes rtos (rto item)
          && unconstrained_or_includes states (state item)
          && unconstrained_or_includes districts (district item))
       allData,
     {| fo_makers :=
          sort (List.filter str_truthy
                  (fold_left
                     (λ acc item,
                        if unconstrained_or_includes rtos (rto item)
                           && unconstrained_or_includes states (state item)
                           && unconstrained_or_includes districts
                                (district item)
                        then set_add (maker item) acc else acc)
                     allData []));
        fo_rtos :=
          sort (List.filter str_truthy
                  (fold_left
                     (λ acc item,
                        if unconstrained_or_includes makers (maker item)
                           && unconstrained_or_includes states (state item)
                           && unconstrained_or_includes districts
                                (district item)
                        then set_add (rto item) acc else acc)
                     allData []));
        fo_states :=
          sort (List.filter str_truthy
                  (fold_left
                     (λ acc item,
                        if unconstrained_or_includes makers (maker item)
                           && unconstrained_or_includes rtos (rto item)
                           && unconstrained_or_includes districts
                                (district item)
                        then set_add (state item) acc else acc)
                     allData []));
        fo_districts :=
          sort (List.filter str_truthy
                  (fold_left
                     (λ acc item,
                        if unconstrained_or_includes makers (maker item)
                           && unconstrained_or_includes rtos (rto item)
                           && unconstrained_or_includes states (state item)
                        then set_add (district item) acc else acc)
                     allData [])) |}).
Proof.
  intros makers rtos states districts allData. unfold cascadingFilters.
  fold makers rtos states districts allData.
  by rewrite options_step_fold.
Qed.

Lemma fold_left_ext {A B} (f g : A → B → A) l a :
  (∀ a b, f a b = g a b) → fold_left f l a = fold_left g l a.
Proof.
  intros Hext. revert a. induction l as [|b l IH]; intros a; [done|].
  simpl. by rewrite Hext, IH.
Qed.

Lemma List_filter_ext {A} (f g : A → bool) l :
  (∀ x, f x = g x) → List.filter f l = List.filter g l.
Proof.
  intros Hext. induction l as [|x l IH]; [done|]. simpl.
  by rewrite Hext, IH.
Qed.

Lemma unconstrained_or_includes_ext (a a' : list string) :
  (∀ x, x ∈ a ↔ x ∈ a') →
  ∀ x, unconstrained_or_includes a x = unconstrained_or_includes a' x.
Proof.
  intros Hset x.
  destruct (unconstrained_or_includes a x) eqn:Ha;
    destruct (unconstrained_or_includes a' x) eqn:Ha'; try done.
  - apply unconstrained_or_includes_spec in Ha.
    assert (unconstrained_or_includes a' x = true) as Hyes; [|congruence].
    apply unconstrained_or_includes_spec. destruct Ha as [->|Hin].
    + left. destruct a' as [|y a']; [done|].
      exfalso. apply (elem_of_nil y). apply Hset. left.
    + right. by apply Hset.
  - apply unconstrained_or_includes_spec in Ha'.
    assert (unconstrained_or_includes a x = true) as Hyes; [|congruence].
    apply unconstrained_or_includes_spec. destruct Ha' as [->|Hin].
    + left. destruct a as [|y a]; [done|].
      exfalso. apply (elem_of_nil y). apply Hset. left.
    + right. by apply Hset.
Qed.

(** X17: the filter handler reads each selection as a set: two request
    bodies whose lists hold the same values, in any order and any number
    of times (an absent list counting as an empty one), get the same
    filtered records and the same option lists. *)
Theorem selections_are_read_as_sets (body body' : Selection) (s : MemStorage) :
  (∀ x, x ∈ default [] (makers body) ↔ x ∈ default [] (makers body')) →
  (∀ x, x ∈ default [] (rtos body) ↔ x ∈ default [] (rtos body')) →
  (∀ x, x ∈ default [] (states body) ↔ x ∈ default [] (states body')) →
  (∀ x, x ∈ default [] (districts body)
        ↔ x ∈ default [] (districts body')) →
  cascadingFilters body s = cascadingFilters body' s.
Proof.
  intros Hm Hr Hs Hd. rewrite !cascadingFilters_eq. cbv zeta.
  pose proof (unconstrained_or_includes_ext _ _ Hm) as Em.
  pose proof (unconstrained_or_includes_ext _ _ Hr) as Er.
  pose proof (unconstrained_or_includes_ext _ _ Hs) as Es.
  pose proof (unconstrained_or_includes_ext _ _ Hd) as Ed.
  f_equal; [|f_equal; do 2 f_equal].
  - apply List_filter_ext. intros item. by rewrite Em, Er, Es, Ed.
  - apply fold_left_ext. intros acc item. by rewrite Er, Es, Ed.
  - apply fold_left_ext. intros acc item. by rewrite Em, Es, Ed.
  - apply fold_left_ext. intros acc item. by rewrite Em, Er, Ed.
  - apply fold_left_ext. intros acc item. by rewrite Em, Er, Es.
Qed.

Lemma selections_are_read_as_sets_witness :
  let body := {| makers := Some ["Acme"; "Zenith"; "Acme"]; rtos := None;
                 states := Some ["Maharashtra"]; districts := Some [] |} in
  let body' := {| makers := Some ["Zenith"; "Acme"]; rtos := Some [];
                  states := Some ["Maharashtra"; "Maharashtra"];
                  districts := None |} in
  cascadingFilters body Sample.acme_zenith
  = cascadingFilters body' Sample.acme_zenith.
Proof.
  intros body body'.
  apply (selections_are_read_as_sets body body' Sample.acme_zenith);
    intros x; simpl; rewrite ?elem_of_cons, ?elem_of_nil; tauto.
Defined.

(** ** The filter bar and the filter handler *)

Import FilterBar.


Lemma cascadingFilters_options body s :
  let makers := default [] (makers body) in
  let rtos := default [] (rtos body) in
  let states := default [] (states body) in
  let districts := default [] (districts body) in
  let options := (cascadingFilters body s).2 in
  (∀ v, v ∈ fo_makers options ↔
        v ≠ "" ∧ ∃ item, item ∈ getAllSalesData s ∧ maker item = v
          ∧ unconstrained_or_includes rtos (rto item)
            && unconstrained_or_includes states (state item)
            && unconstrained_or_includes districts (district item) = true)
  ∧ (∀ v, v ∈ fo_rtos options ↔
          v ≠ "" ∧ ∃ item, item ∈ getAllSalesData s ∧ rto item = v
            ∧ unconstrained_or_includes makers (maker item)
              && unconstrained_or_includes states (state item)
              && unconstrained_or_includes districts (district item) = true)
  ∧ (∀ v, v ∈ fo_states options ↔
          v ≠ "" ∧ ∃ item, item ∈ getAllSalesData s ∧ state item = v
            ∧ unconstrained_or_includes makers (maker item)
              && unconstrained_or_includes rtos (rto item)
              && unconstrained_or_includes districts (district item) = true)
  ∧ (∀ v, v ∈ fo_districts options ↔
          v ≠ "" ∧ ∃ item, item ∈ getAllSalesData s ∧ district item = v
            ∧ unconstrained_or_includes makers (maker item)
              && unconstrained_or_includes rtos (rto item)
              && unconstrained_or_includes states (state item) = true).
Proof.
  intros makers rtos states districts options. subst options.
  rewrite cascadingFilters_eq. cbv zeta.
  cbn [snd fo_makers fo_rtos fo_states fo_districts].
  fold makers rtos states districts.
  split_and!; intros v;
    match goal with |- context [fold_left ?g ?l []] =>
      match g with
      | (λ acc item, if ?c then set_add (?f item) acc else acc) =>
          destruct (option_list_spec (λ item, c) f l) as (_ & _ & Hin)
      end
    end; apply Hin.
Qed.




Lemma includes_nil x : unconstrained_or_includes [] x = true.
Proof. done. Qed.

Lemma length_zero_nil {A} (l : list A) : (0 <? length l) = false → l = [].
Proof. destruct l; [done|]. simpl. discriminate. Qed.

(** X19: when the filter bar shows no active filter, the request it posts
    returns every stored record, in store order, and offers every
    non-empty maker, rto, state and district of the store; with any
    selection the filtered records are a sublist of the stored ones. *)
Theorem no_active_filter_shows_every_record (p : Props) (s : MemStorage) :
  (hasActiveFilters p = false →
   let r := cascadingFilters (request p) s in
   r.1 = getAllSalesData s
   ∧ (∀ v, v ∈ fo_makers r.2 ↔ v ≠ "" ∧ v ∈ maker <$> getAllSalesData s)
   ∧ (∀ v, v ∈ fo_rtos r.2 ↔ v ≠ "" ∧ v ∈ rto <$> getAllSalesData s)
   ∧ (∀ v, v ∈ fo_states r.2 ↔ v ≠ "" ∧ v ∈ state <$> getAllSalesData s)
   ∧ (∀ v, v ∈ fo_districts r.2 ↔
           v ≠ "" ∧ v ∈ district <$> getAllSalesData s))
  ∧ (cascadingFilters (request p) s).1 `sublist_of` getAllSalesData s.
Proof.
  split.
  - intros Hnone r. unfold hasActiveFilters in Hnone.
    rewrite !orb_false_iff in Hnone.
    destruct Hnone
      as [[[Hm%length_zero_nil Hr%length_zero_nil] Hs%length_zero_nil]
            Hd%length_zero_nil].
    destruct (cascadingFilters_options (request p) s) as (Om & Or & Os & Od).
    fold r in Om, Or, Os, Od.
    cbn [request makers rtos states districts default] in Om, Or, Os, Od.
    rewrite Hm, Hr, Hs, Hd in *.
    split_and!.
    + subst r. rewrite cascadingFilters_eq. cbn [fst].
      apply List_filter_all. intros item _.
      cbn [request makers rtos states districts default].
      by rewrite Hm, Hr, Hs, Hd.
    + intros v. rewrite Om, list_elem_of_fmap. split.
      * intros (Hv & item & Hin & Heq & _). split; [done|]. by exists item.
      * intros (Hv & item & Heq & Hin). split; [done|]. by exists item.
    + intros v. rewrite Or, list_elem_of_fmap. split.
      * intros (Hv & item & Hin & Heq & _). split; [done|]. by exists item.
      * intros (Hv & item & Heq & Hin). split; [done|]. by exists item.
    + intros v. rewrite Os, list_elem_of_fmap. split.
      * intros (Hv & item & Hin & Heq & _). split; [done|]. by exists item.
      * intros (Hv & item & Heq & Hin). split; [done|]. by exists item.
    + intros v. rewrite Od, list_elem_of_fmap. split.
      * intros (Hv & item & Hin & Heq & _). split; [done|]. by exists item.
      * intros (Hv & item & Heq & Hin). split; [done|]. by exists item.
  - rewrite cascadingFilters_eq. cbn [fst]. apply List_filter_sublist.
Qed.

Lemma no_active_filter_shows_every_record_witness :
  hasActiveFilters Cases.nothing_checked = false
  ∧ (cascadingFilters (request Cases.nothing_checked) Sample.acme_zenith).1
    = getAllSalesData Sample.acme_zenith.
Proof.
  assert (hasActiveFilters Cases.nothing_checked = false) as Hnone
    by reflexivity.
  split; [exact Hnone|].
  exact (proj1 (proj1 (no_active_filter_shows_every_record
                         Cases.nothing_checked Sample.acme_zenith) Hnone)).
Defined.


(** *** Checking and unchecking a value *)

Lemma filter_ne_snoc (selected : list string) v :
  v ∉ selected →
  List.filter (λ x, bool_decide (x ≠ v)) (selected ++ [v]) = selected.
Proof.
  induction selected as [|x l IH]; simpl.
  - intros _. by rewrite bool_decide_eq_false_2 by (by intros ?).
  - intros [Hne Hnot]%not_elem_of_cons.
    rewrite bool_decide_eq_true_2 by done. by rewrite IH.
Qed.

Lemma handleFilterChange_unknown p filterType v checked :
  filterType ∉ ["maker"; "rto"; "state"; "district"] →
  handleFilterChange p filterType v checked = [].
Proof.
  rewrite !not_elem_of_cons. intros (H1 & H2 & H3 & H4 & _).
  unfold handleFilterChange.
  apply String.eqb_neq in H1, H2, H3, H4. by rewrite H1, H2, H3, H4.
Qed.

(** X20: checking a value that is not selected and unchecking it again
    gives back the selection as it was: the first call hands the parent
    the selection with the value added at the end, and with that selection
    the second call hands back the original list; this holds for each of
    the four dimensions, and a filter type other than these four makes no
    call at all. *)
Theorem check_then_uncheck_restores_selection (p : Props) (v : string) :
  ((v ∉ selectedMakers p) →
   ∃ updated,
     handleFilterChange p "maker" v true = [onMakersChange updated]
     ∧ v ∈ updated
     ∧ handleFilterChange (with_makers updated p) "maker" v false
       = [onMakersChange (selectedMakers p)])
  ∧ ((v ∉ selectedRTOs p) →
     ∃ updated,
       handleFilterChange p "rto" v true = [onRTOsChange updated]
       ∧ v ∈ updated
       ∧ handleFilterChange (with_rtos updated p) "rto" v false
         = [onRTOsChange (selectedRTOs p)])
  ∧ ((v ∉ selectedStates p) →
     ∃ updated,
       handleFilterChange p "state" v true = [onStatesChange updated]
       ∧ v ∈ updated
       ∧ handleFilterChange (with_states updated p) "state" v false
         = [onStatesChange (selectedStates p)])
  ∧ ((v ∉ selectedDistricts p) →
     ∃ updated,
       handleFilterChange p "district" v true = [onDistrictsChange updated]
       ∧ v ∈ updated
       ∧ handleFilterChange (with_districts updated p) "district" v false
         = [onDistrictsChange (selectedDistricts p)])
  ∧ (∀ filterType checked,
       filterType ∉ ["maker"; "rto"; "state"; "district"] →
       handleFilterChange p filterType v checked = []).
Proof.
  split_and!.
  - intros Hnot. exists (selectedMakers p ++ [v]).
    split_and!; [done | apply elem_of_app; right; left |].
    unfold handleFilterChange. simpl. by rewrite filter_ne_snoc.
  - intros Hnot. exists (selectedRTOs p ++ [v]).
    split_and!; [done | apply elem_of_app; right; left |].
    unfold handleFilterChange. simpl. by rewrite filter_ne_snoc.
  - intros Hnot. exists (selectedStates p ++ [v]).
    split_and!; [done | apply elem_of_app; right; left |].
    unfold handleFilterChange. simpl. by rewrite filter_ne_snoc.
  - intros Hnot. exists (selectedDistricts p ++ [v]).
    split_and!; [done | apply elem_of_app; right; left |].
    unfold handleFilterChange. simpl. by rewrite filter_ne_snoc.
  - intros filterType checked. apply handleFilterChange_unknown.
Qed.

Lemma check_then_uncheck_restores_selection_witness :
  ("Zenith" ∉ selectedMakers Cases.acme_checked)
  ∧ ∃ updated,
      handleFilterChange Cases.acme_checked "maker" "Zenith" true
      = [onMakersChange updated]
      ∧ "Zenith" ∈ updated
      ∧ handleFilterChange (with_makers updated Cases.acme_checked)
          "maker" "Zenith" false
        = [onMakersChange (selectedMakers Cases.acme_checked)].
Proof.
  assert ("Zenith" ∉ selectedMakers Cases.acme_checked) as Hnot.
  { simpl. rewrite not_elem_of_cons. split; [discriminate|].
    apply not_elem_of_nil. }
  split; [exact Hnot|].
  exact (proj1 (check_then_uncheck_restores_selection Cases.acme_checked
                  "Zenith") Hnot).
Defined.

(** *** Select all *)

Lemma List_filter_ext_in {A} (f g : A → bool) l :
  (∀ x, x ∈ l → f x = g x) → List.filter f l = List.filter g l.
Proof.
  induction l as [|x l IH]; [done|]. intros Hext. simpl.
  rewrite (Hext x) by left. rewrite IH; [done|].
  intros y Hy. apply Hext. by right.
Qed.

Lemma List_filter_twice {A} (f g : A → bool) l :
  List.filter g (List.filter f l) = List.filter (λ x, f x && g x) l.
Proof.
  induction l as [|x l IH]; [done|]. simpl.
  destruct (f x); simpl; [|exact IH]. destruct (g x); by rewrite IH.
Qed.

(** With every option of a dimension selected, a record that meets the
    other constraints passes exactly when its value is not empty. *)
Lemma every_option_selected (others : SalesData → bool)
    (f : SalesData → string) (allData : list SalesData) item :
  let options :=
    sort (List.filter str_truthy
            (fold_left
               (λ acc item, if others item then set_add (f item) acc else acc)
               allData [])) in
  options ≠ [] → item ∈ allData → others item = true →
  unconstrained_or_includes options (f item) = str_truthy (f item).
Proof.
  intros options Hne Hin Hothers.
  destruct (option_list_spec others f allData) as (_ & _ & Hopt).
  fold options in Hopt.
  destruct (str_truthy (f item)) eqn:Hv.
  - apply unconstrained_or_includes_spec. right. apply Hopt. split.
    + intros Heq. by rewrite Heq in Hv.
    + by exists item.
  - apply str_truthy_false in Hv.
    destruct (unconstrained_or_includes options (f item)) eqn:Hu; [|done].
    apply unconstrained_or_includes_spec in Hu as [Hnil|Hmem]; [done|].
    apply Hopt in Hmem as [Hnot _]. done.
Qed.

(** X21: the Select All button of a dimension hands the parent every
    option on offer, unless the selection already has as many entries as
    there are options, in which case it hands over the empty selection.
    With every option of the dimension selected (and at least one on
    offer), the request returns the records it returns with nothing
    selected in that dimension, less those whose value in the dimension is
    empty. *)
Theorem select_all_keeps_records_with_a_value (p : Props) (s : MemStorage) :
  let options := (cascadingFilters (request p) s).2 in
  let all := λ (selected available : list string),
    if length selected =? length available then [] else available in
  handleSelectAll p "maker" (fo_makers options)
  = [onMakersChange (all (selectedMakers p) (fo_makers options))]
  ∧ handleSelectAll p "rto" (fo_rtos options)
    = [onRTOsChange (all (selectedRTOs p) (fo_rtos options))]
  ∧ handleSelectAll p "state" (fo_states options)
    = [onStatesChange (all (selectedStates p) (fo_states options))]
  ∧ handleSelectAll p "district" (fo_districts options)
    = [onDistrictsChange (all (selectedDistricts p) (fo_districts options))]
  ∧ (fo_makers options ≠ [] →
     (cascadingFilters (request (with_makers (fo_makers options) p)) s).1
     = List.filter (λ item, str_truthy (maker item))
         (cascadingFilters (request (with_makers [] p)) s).1)
  ∧ (fo_rtos options ≠ [] →
     (cascadingFilters (request (with_rtos (fo_rtos options) p)) s).1
     = List.filter (λ item, str_truthy (rto item))
         (cascadingFilters (request (with_rtos [] p)) s).1)
  ∧ (fo_states options ≠ [] →
     (cascadingFilters (request (with_states (fo_states options) p)) s).1
     = List.filter (λ item, str_truthy (state item))
         (cascadingFilters (request (with_states [] p)) s).1)
  ∧ (fo_districts options ≠ [] →
     (cascadingFilters (request (with_districts (fo_districts options) p))
        s).1
     = List.filter (λ item, str_truthy (district item))
         (cascadingFilters (request (with_districts [] p)) s).1).
Proof.
  intros options all. subst options.
  split_and!; try done;
    intros Hne; rewrite !cascadingFilters_eq in *; cbv zeta in *;
    cbn [fst snd fo_makers fo_rtos fo_states fo_districts request with_makers
         with_rtos with_states with_districts makers rtos states districts
         default from_option selectedMakers selectedRTOs selectedStates
         selectedDistricts] in *;
    unfold Datatypes.id in *;
    rewrite List_filter_twice; apply List_filter_ext_in; intros item Hin;
    match goal with
    | H : sort (List.filter str_truthy (fold_left ?g ?l [])) ≠ [] |- _ =>
        match g with
        | (λ acc item, if ?c then set_add (?f item) acc else acc) =>
            pose proof (every_option_selected (λ item, c) f l item H Hin)
              as Hall
        end
    end;
    cbv beta in Hall; rewrite !includes_nil;
    destruct (unconstrained_or_includes (selectedMakers p) (maker item))
      eqn:Em;
    destruct (unconstrained_or_includes (selectedRTOs p) (rto item)) eqn:Er;
    destruct (unconstrained_or_includes (selectedStates p) (state item))
      eqn:Es;
    destruct (unconstrained_or_includes (selectedDistricts p) (district item))
      eqn:Ed;
    rewrite ?Em, ?Er, ?Es, ?Ed in Hall; cbn [andb] in Hall |- *;
    rewrite ?andb_false_r; try done;
    rewrite Hall by done; by destruct (str_truthy _).
Qed.

Lemma select_all_keeps_records_with_a_value_witness :
  let p := Cases.nothing_checked in
  let s := Sample.acme_zenith in
  let options := (cascadingFilters (request p) s).2 in
  fo_districts options ≠ []
  ∧ (cascadingFilters (request (with_districts (fo_districts options) p)) s).1
    = List.filter (λ item, str_truthy (district item))
        (cascadingFilters (request (with_districts [] p)) s).1.
Proof.
  intros p s options.
  assert (fo_districts options ≠ []) as Hne by (vm_compute; discriminate).
  split; [exact Hne|].
  destruct (select_all_keeps_records_with_a_value p s)
    as (_ & _ & _ & _ & _ & _ & _ & Hd).
  exact (Hd Hne).
Defined.

(** With nothing checked both records are shown; Select All on the
    districts, of which only Nashik is on offer, leaves the record of
    Nashik: the record without a district is not shown any more. *)
Example select_all_districts :
  let p := Cases.nothing_checked in
  let s := Sample.acme_zenith in
  let options := (cascadingFilters (request p) s).2 in
  id <$> (cascadingFilters (request p) s).1 = [1; 2]%Z
  ∧ handleSelectAll p "district" (fo_districts options)
    = [onDistrictsChange ["Nashik"]]
  ∧ id <$> (cascadingFilters (request (with_districts ["Nashik"] p)) s).1
    = [2%Z].
Proof. vm_compute. done. Qed.


(** ** The upload form *)

Import FileUpload.

(** X22: a file the upload form hands to the upload is one the filter of
    the upload route accepts: its type is one of the two spreadsheet types
    of the form, both among the three the server allows, and its size is
    at most 100 MB; the form hands over the file it was given. *)
Theorem form_uploads_what_the_server_accepts (file uploaded : File) :
  handleFileSelect file = Upload uploaded →
  uploaded = file
  ∧ type file ∈ validTypes
  ∧ Routes.fileFilter (type file) = None
  ∧ (size file ≤ 100 * 1024 * 1024)%Z.
Proof.
  unfold handleFileSelect.
  destruct (bool_decide (type file ∈ validTypes)) eqn:Htype; [|done].
  apply bool_decide_eq_true in Htype. cbn [negb].
  destruct (100 * 1024 * 1024 <? size file)%Z eqn:Hsize; [done|].
  apply Z.ltb_ge in Hsize. intros [= <-].
  split_and!; [done | done | | done].
  unfold Routes.fileFilter. rewrite bool_decide_eq_true_2; [done|].
  unfold validTypes in Htype. unfold Routes.allowedTypes.
  rewrite !elem_of_cons in Htype. rewrite !elem_of_cons.
  destruct Htype as [->| [->|Hnil]]; [by left | by right; left |].
  by apply elem_of_nil in Hnil.
Qed.

Lemma form_uploads_what_the_server_accepts_witness :
  let file := {| type := "application/vnd.ms-excel"; size := 2048 |} in
  handleFileSelect file = Upload file
  ∧ file = file
  ∧ type file ∈ validTypes
  ∧ Routes.fileFilter (type file) = None
  ∧ (size file ≤ 100 * 1024 * 1024)%Z.
Proof.
  intros file.
  assert (handleFileSelect file = Upload file) as Hsel by reflexivity.
  split; [exact Hsel|].
  exact (form_uploads_what_the_server_accepts file file Hsel).
Defined.

(** The server accepts OpenDocument spreadsheets, the form does not. *)
Example opendocument_spreadsheet :
  Routes.fileFilter "application/vnd.oasis.opendocument.spreadsheet" = None
  ∧ handleFileSelect
      {| type := "application/vnd.oasis.opendocument.spreadsheet";
         size := 2048 |}
    = InvalidFileType.
Proof. split; reflexivity. Qed.

(** *** Polling the upload status *)

Lemma poll_bound replies fuel attempts :
  attempts ≤ maxAttempts →
  (poll replies fuel attempts).2 ≤ maxAttempts + 1.
Proof.
  revert attempts. induction fuel as [|fuel IH]; intros attempts Hle.
  { cbn [poll snd]. lia. }
  cbn [poll]. destruct (replies attempts) as [st|].
  - destruct (status st); cbn [snd]; try lia.
    destruct (attempts <? maxAttempts) eqn:Hlt; cbn [snd]; [|lia].
    apply Nat.ltb_lt in Hlt. specialize (IH (attempts + 1) ltac:(lia)).
    by destruct (poll replies fuel (attempts + 1)) as [[? ?] ?].
  - destruct (attempts <? maxAttempts) eqn:Hlt; cbn [snd]; [|lia].
    apply Nat.ltb_lt in Hlt. apply IH. lia.
Qed.

(** The poller while the job is still processing or the request fails:
    it asks again, up to the first reply that ends the job. *)
Lemma poll_until replies fuel attempts k st :
  attempts ≤ k → k ≤ maxAttempts → maxAttempts + 1 - attempts ≤ fuel →
  (∀ j st', (attempts ≤ j < k) → replies j = Some st' →
            status st' = processing) →
  replies k = Some st → status st ≠ processing →
  poll replies fuel attempts
  = (omap replies (seq attempts (k + 1 - attempts)),
     (poll replies 1 k).1.2, k + 1).
Proof.
  intros Hak Hk Hfuel Hwait Hst Hterm.
  remember (k - attempts) as d eqn:Hd.
  revert attempts fuel Hak Hfuel Hwait Hd.
  induction d as [|d IH]; intros attempts fuel Hak Hfuel Hwait Hd.
  - assert (attempts = k) as -> by lia.
    replace (k + 1 - k) with 1 by lia.
    destruct fuel as [|fuel]; [lia|].
    cbn [poll seq omap list_omap fst snd]. rewrite Hst.
    destruct (status st); done.
  - destruct fuel as [|fuel]; [lia|].
    replace (k + 1 - attempts) with (S (k + 1 - (attempts + 1))) by lia.
    cbn [poll seq omap list_omap].
    assert ((attempts <? maxAttempts) = true) as Hlt
      by (apply Nat.ltb_lt; lia).
    replace (S attempts) with (attempts + 1) by lia.
    specialize (IH (attempts + 1) fuel ltac:(lia) ltac:(lia)).
    destruct (replies attempts) as [st'|] eqn:Hreply.
    + rewrite (Hwait attempts st') by (done || lia). rewrite Hlt.
      rewrite IH; [done | | lia].
      intros j st'' Hj. apply Hwait. lia.
    + rewrite Hlt. rewrite IH; [done | | lia].
      intros j st'' Hj. apply Hwait. lia.
Qed.

(** The poller when no reply ends the job: it stops asking after request
    [maxAttempts]. *)
Lemma poll_gives_up replies fuel attempts :
  attempts ≤ maxAttempts → maxAttempts + 1 - attempts ≤ fuel →
  (∀ j st', (attempts ≤ j ≤ maxAttempts) → replies j = Some st' →
            status st' = processing) →
  poll replies fuel attempts
  = (omap replies (seq attempts (maxAttempts + 1 - attempts)),
     Stopped, maxAttempts + 1).
Proof.
  intros Ha Hfuel Hwait.
  remember (maxAttempts - attempts) as d eqn:Hd.
  revert attempts fuel Ha Hfuel Hwait Hd.
  induction d as [|d IH]; intros attempts fuel Ha Hfuel Hwait Hd.
  - assert (attempts = maxAttempts) as -> by lia.
    replace (maxAttempts + 1 - maxAttempts) with 1 by lia.
    destruct fuel as [|fuel]; [lia|].
    cbn [poll seq omap list_omap]. rewrite Nat.ltb_irrefl.
    destruct (replies maxAttempts) as [st'|] eqn:Hreply; [|done].
    by rewrite (Hwait maxAttempts st') by (done || lia).
  - destruct fuel as [|fuel]; [lia|].
    replace (maxAttempts + 1 - attempts)
      with (S (maxAttempts + 1 - (attempts + 1))) by lia.
    cbn [poll seq omap list_omap].
    assert ((attempts <? maxAttempts) = true) as Hlt
      by (apply Nat.ltb_lt; lia).
    replace (S attempts) with (attempts + 1) by lia.
    specialize (IH (attempts + 1) fuel ltac:(lia) ltac:(lia)).
    destruct (replies attempts) as [st'|] eqn:Hreply.
    + rewrite (Hwait attempts st') by (done || lia). rewrite Hlt.
      rewrite IH; [done | | lia].
      intros j st'' Hj. apply Hwait. lia.
    + rewrite Hlt. rewrite IH; [done | | lia].
      intros j st'' Hj. apply Hwait. lia.
Qed.

Lemma poll_fuel replies fuel fuel' attempts :
  attempts ≤ maxAttempts →
  maxAttempts + 1 - attempts ≤ fuel → maxAttempts + 1 - attempts ≤ fuel' →
  poll replies fuel attempts = poll replies fuel' attempts.
Proof.
  revert fuel' attempts.
  induction fuel as [|fuel IH]; intros fuel' attempts Ha Hfuel Hfuel';
    [lia|].
  destruct fuel' as [|fuel']; [lia|]. cbn [poll].
  destruct (attempts <? maxAttempts) eqn:Hlt.
  - apply Nat.ltb_lt in Hlt.
    by rewrite (IH fuel' (attempts + 1)) by lia.
  - done.
Qed.

(** X23: the poller of the upload status never asks more than
    [maxAttempts + 1] = 1801 times, and the rounds it is given are enough.
    While the replies read [processing] or the requests fail it asks
    again; at the first reply that reads [completed] it shows the toast
    with the number of inserted records, at the first that reads [error]
    the toast with the message of the job (a fixed text when there is
    none), and it stops there; when no reply up to request 1800 ends the
    job it stops without a toast.  Every status it received has been
    shown. *)
Theorem poller_stops_at_the_final_status_or_gives_up
    (replies : nat → option UploadStatus) :
  (∀ k st,
     k ≤ maxAttempts →
     (∀ j st', j < k → replies j = Some st' → status st' = processing) →
     replies k = Some st → status st = completed →
     pollUploadStatus replies
     = (omap replies (seq 0 (k + 1)),
        ProcessingComplete (insertedRecords st), k + 1))
  ∧ (∀ k st,
       k ≤ maxAttempts →
       (∀ j st', j < k → replies j = Some st' → status st' = processing) →
       replies k = Some st → status st = error →
       ∃ description,
         pollUploadStatus replies
         = (omap replies (seq 0 (k + 1)), ProcessingFailed description, k + 1)
         ∧ description ≠ ""
         ∧ (∀ message, error_message st = Some message → message ≠ "" →
                       description = message))
  ∧ ((∀ j st', j ≤ maxAttempts → replies j = Some st' →
               status st' = processing) →
     pollUploadStatus replies
     = (omap replies (seq 0 (maxAttempts + 1)), Stopped, maxAttempts + 1))
  ∧ (pollUploadStatus replies).2 ≤ maxAttempts + 1
  ∧ (∀ fuel, maxAttempts + 1 ≤ fuel →
             poll replies fuel 0 = pollUploadStatus replies).
Proof.
  unfold pollUploadStatus. split_and!.
  - intros k st Hk Hwait Hst Hdone.
    rewrite (poll_until replies _ 0 k st); try done; try lia.
    + rewrite Nat.sub_0_r. cbn [poll]. by rewrite Hst, Hdone.
    + intros j st' Hj. apply Hwait. lia.
    + by rewrite Hdone.
  - intros k st Hk Hwait Hst Hfailed.
    eexists. split_and!.
    + rewrite (poll_until replies _ 0 k st); try done; try lia.
      * rewrite Nat.sub_0_r. cbn [poll]. rewrite Hst, Hfailed. done.
      * intros j st' Hj. apply Hwait. lia.
      * by rewrite Hfailed.
    + destruct (error_message st) as [message|]; [|done].
      destruct (str_truthy message) eqn:Hm; [|done].
      intros ->. done.
    + intros message -> Hne.
      destruct (str_truthy message) eqn:Hm; [done|].
      by apply str_truthy_false in Hm.
  - intros Hwait.
    rewrite (poll_gives_up replies _ 0); try lia.
    + by rewrite Nat.sub_0_r.
    + intros j st' Hj. apply Hwait. lia.
  - apply poll_bound. lia.
  - intros fuel Hfuel. apply poll_fuel; lia.
Qed.

Lemma poller_stops_at_the_final_status_or_gives_up_witness :
  let replies := Cases.completes_at_third_poll in
  2 ≤ maxAttempts
  ∧ (∀ j st', j < 2 → replies j = Some st' → status st' = processing)
  ∧ pollUploadStatus replies
    = (omap replies (seq 0 (2 + 1)), ProcessingComplete 5, 2 + 1).
Proof.
  intros replies.
  assert (2 ≤ maxAttempts) as Hk by (unfold maxAttempts; lia).
  assert (∀ j st', j < 2 → replies j = Some st' → status st' = processing)
    as Hwait.
  { intros j st' Hj. unfold replies, Cases.completes_at_third_poll.
    apply Nat.ltb_lt in Hj. rewrite Hj. by intros [= <-]. }
  split; [exact Hk|]. split; [exact Hwait|].
  exact (proj1 (poller_stops_at_the_final_status_or_gives_up replies)
           2 _ Hk Hwait eq_refl eq_refl).
Defined.
